(** * PhET-iO tandem: identifiers, registry, parametric IO types, groups, event stack

    A shallow embedding of the JavaScript sources of the tandem repository
    (PhetioIDUtils.js, Tandem.js, FunctionIO / ArrayIO / PhetioGroupIO /
    NullableIO, Group and PhetioObject) together with the properties the
    specification states about them.

    Conventions of the embedding:
    - a JavaScript string is a [string]; positions and lengths are [Z], as
      [indexOf] and [lastIndexOf] answer [-1];
    - a call that may throw returns a [result]; [assert && assert( c, msg )]
      is [assert_ a c msg], where the flag [a] says whether assertions are
      enabled in the build;
    - module-level variables ([launched], [staticInstances], the caches) are
      fields of an explicit state record that every operation threads;
    - callbacks into code outside the repository (instance listeners, emitter
      listeners, the data stream) are recorded in a trace, in call order. *)

From Stdlib Require Import ZArith Ascii String List Lia DecimalString DecimalZ.
From stdpp Require Import base strings gmap list.
Import ListNotations.

Local Open Scope Z_scope.

(** ** Results of calls that may throw *)

Inductive error : Type :=
| AssertionError (msg : string)
| TypeError
| ReferenceError
| LoopBound.

Inductive result (A : Type) : Type :=
| Ok (a : A)
| Throw (e : error).

Arguments Ok {A} a.
Arguments Throw {A} e.

Definition bind {A B : Type} (r : result A) (k : A -> result B) : result B :=
  match r with
  | Ok a => k a
  | Throw e => Throw e
  end.

Notation "'do' x <- r ; k" := (bind r (fun x => k))
  (at level 10, x pattern, r at level 100, k at level 200).

(** [assert && assert( cond, msg )] *)
Definition assert_ (enabled cond : bool) (msg : string) : result unit :=
  if enabled && negb cond then Throw (AssertionError msg) else Ok tt.

(** [LoopBound] is the answer of a [while] loop whose iteration bound ran out;
    the bounds below are computed from the state, and the theorems show that
    they always suffice. *)

Definition isAssertion {A : Type} (r : result A) : Prop :=
  exists msg, r = Throw (AssertionError msg).

(** ** JavaScript string primitives *)

Module JsString.

(** [s.indexOf( search )]: position of the first occurrence, or [-1]. *)
Fixpoint indexOfFrom (search s : string) (i : Z) : Z :=
  if String.prefix search s then i
  else match s with
       | EmptyString => -1
       | String _ s' => indexOfFrom search s' (i + 1)
       end.

Definition indexOf (s search : string) : Z := indexOfFrom search s 0.

(** [s.lastIndexOf( search )]: position of the last occurrence, or [-1]. *)
Fixpoint lastIndexOfFrom (search s : string) (i found : Z) : Z :=
  let found' := if String.prefix search s then i else found in
  match s with
  | EmptyString => found'
  | String _ s' => lastIndexOfFrom search s' (i + 1) found'
  end.

Definition lastIndexOf (s search : string) : Z := lastIndexOfFrom search s 0 (-1).

Definition len (s : string) : Z := Z.of_nat (String.length s).

Definition clamp (s : string) (i : Z) : Z := Z.max 0 (Z.min i (len s)).

(** [s.substring( a, b )]: both ends are clamped to [0 .. s.length] and
    swapped when [a > b]. *)
Definition substring (s : string) (a b : Z) : string :=
  let a' := clamp s a in
  let b' := clamp s b in
  let lo := Z.min a' b' in
  let hi := Z.max a' b' in
  String.substring (Z.to_nat lo) (Z.to_nat (hi - lo)) s.

(** The character [ch] occurs somewhere in [s]. *)
Definition hasChar (ch : ascii) (s : string) : Prop :=
  In ch (list_ascii_of_string s).

Definition char (ch : ascii) : string := String ch EmptyString.

(** [s.split( sep )] for a separator of one character. *)
Fixpoint split (s : string) (sep : ascii) : list string :=
  match s with
  | EmptyString => [EmptyString]
  | String c s' =>
      if Ascii.eqb c sep then EmptyString :: split s' sep
      else match split s' sep with
           | piece :: pieces => String c piece :: pieces
           | [] => [String c EmptyString]
           end
  end.

Definition isWhiteSpace (c : ascii) : bool :=
  let n := nat_of_ascii c in
  (Nat.eqb n 32 || (Nat.leb 9 n && Nat.leb n 13))%bool.

Definition digitValue (c : ascii) : option Z :=
  let n := Z.of_nat (nat_of_ascii c) in
  if (48 <=? n) && (n <=? 57) then Some (n - 48) else None.

Fixpoint skipWhiteSpace (s : string) : string :=
  match s with
  | String c s' => if isWhiteSpace c then skipWhiteSpace s' else s
  | EmptyString => s
  end.

(** The longest prefix of decimal digits, read as a number; [None] when
    there is no digit. *)
Fixpoint leadingDigits (s : string) (acc : option Z) : option Z :=
  match s with
  | String c s' =>
      match digitValue c with
      | Some d => leadingDigits s' (Some (10 * default 0 acc + d))
      | None => acc
      end
  | EmptyString => acc
  end.

(** [parseInt( s, 10 )]; [None] is [NaN], and an [undefined] argument is
    [None] too. *)
Definition parseInt (s : option string) : option Z :=
  match s with
  | None => None
  | Some s =>
      match skipWhiteSpace s with
      | String "-" s' => Z.opp <$> leadingDigits s' None
      | String "+" s' => leadingDigits s' None
      | s' => leadingDigits s' None
      end
  end.

(** [String( n )] for an integer [n] (below the range where JavaScript
    switches to exponent notation). *)
Definition numberToString (n : Z) : string :=
  NilZero.string_of_int (Z.to_int n).

End JsString.

(** ** PhetioIDUtils.js *)

Module PhetioIDUtils.
Import JsString.

Definition SEPARATOR : string := ".".
Definition GROUP_SEPARATOR : string := "_".

(** [append( phetioID, ...componentNames )] *)
Fixpoint append (a : bool) (phetioID : string) (componentNames : list string)
  : result string :=
  match componentNames with
  | [] => Ok phetioID
  | componentName :: rest =>
      do _ <- assert_ a (indexOf componentName SEPARATOR =? -1)
                ("separator appears in componentName: " +:+ componentName);
      append a (phetioID +:+ SEPARATOR +:+ componentName) rest
  end.

(** [getComponentName( phetioID )] *)
Definition getComponentName (a : bool) (phetioID : string) : result string :=
  do _ <- assert_ a (len phetioID >? 0) "";
  let indexOfLastSeparator := lastIndexOf phetioID SEPARATOR in
  if indexOfLastSeparator =? -1 then Ok phetioID
  else Ok (substring phetioID (indexOfLastSeparator + 1) (len phetioID)).

(** [getParentID( phetioID )] *)
Definition getParentID (a : bool) (phetioID : string) : result string :=
  let indexOfLastSeparator := lastIndexOf phetioID SEPARATOR in
  do _ <- assert_ a (negb (indexOfLastSeparator =? -1))
            ("phetioID does not have a parent component: " +:+ phetioID);
  Ok (substring phetioID 0 indexOfLastSeparator).

(** [getDOMElementID( phetioID )] *)
Definition getDOMElementID (phetioID : string) : string :=
  "phetioID:" +:+ phetioID.

(** [isDynamicElement( phetioID )] *)
Definition isDynamicElement (phetioID : string) : bool :=
  indexOf phetioID GROUP_SEPARATOR >=? 0.

(** [getGeneralID( Client, ...componentNames )], where [simulationName] is
    [Client.CAMEL_CASE_SIMULATION_NAME]. *)
Definition getGeneralID (a : bool) (simulationName : string)
           (componentNames : list string) : result string :=
  append a simulationName ("general" :: componentNames).

(** *** Notions used to state the properties of identifiers *)

(** The component name [c] contains no separator. *)
Definition noDot (c : string) : Prop := ~ hasChar "." c.

(** [p], then a separator and a component for each name, in order. *)
Definition joinPath (p : string) (componentNames : list string) : string :=
  fold_left (fun id c => id +:+ SEPARATOR +:+ c) componentNames p.

(** [getParentID] applied [n] times. *)
Fixpoint ancestor (a : bool) (n : nat) (phetioID : string) : result string :=
  match n with
  | O => Ok phetioID
  | S n' => do parent <- getParentID a phetioID; ancestor a n' parent
  end.

End PhetioIDUtils.

(** ** Tandem.js *)

Module Tandem.

(** What the registry reads from the [window] global. *)
Record Chipper : Type := { brand : string }.
Record Phet : Type := { chipper : option Chipper }.
Record Env : Type := {
  assertions : bool;        (* [assert] is defined *)
  phet : option Phet        (* [window.phet] *)
}.

(** [window.phet && window.phet.chipper && phet.chipper.brand === 'phet-io'] *)
Definition phetioBrand (env : Env) : bool :=
  match phet env with
  | Some p =>
      match chipper p with
      | Some c => String.eqb (brand c) "phet-io"
      | None => false
      end
  | None => false
  end.

Inductive TandemClass : Type := PlainTandem | GroupTandem | SupertypeTandem.

Record Tandem : Type := mkTandem {
  id : string;
  static : bool;
  tandemRequiredButNotSupplied : bool;
  enabled : bool;
  class : TandemClass
}.

(** An options hash; [None] is an absent key. *)
Record Options : Type := mkOptions {
  o_static : option bool;
  o_tandemRequiredButNotSupplied : option bool;
  o_enabled : option bool
}.

Definition noOptions : Options := mkOptions None None None.

Definition orElse {A : Type} (o d : option A) : option A :=
  match o with Some x => Some x | None => d end.

(** [_.extend( defaults, options )] *)
Definition extend (defaults options : Options) : Options :=
  {| o_static := orElse (o_static options) (o_static defaults);
     o_tandemRequiredButNotSupplied :=
       orElse (o_tandemRequiredButNotSupplied options)
              (o_tandemRequiredButNotSupplied defaults);
     o_enabled := orElse (o_enabled options) (o_enabled defaults) |}.

(** [new Tandem( id, options )] *)
Definition new (id : option string) (options : Options) : Tandem :=
  let options := extend (mkOptions (Some false) (Some false) (Some true)) options in
  {| id := match id with Some s => s | None => "" end;
     static := default false (o_static options);
     tandemRequiredButNotSupplied :=
       default false (o_tandemRequiredButNotSupplied options);
     enabled := default true (o_enabled options);
     class := PlainTandem |}.

(** The [type] argument of [addInstance]; a missing [typeName] is [""]. *)
Record IOType : Type := { typeName : string }.

Definition truthyType (type : option IOType) : bool :=
  match type with
  | Some t => negb (String.eqb (typeName t) "")
  | None => false
  end.

Record StaticInstance : Type := {
  si_tandem : Tandem;
  si_instance : nat;
  si_type : option IOType
}.

(** Calls received by the instance listeners; a listener and an instance
    are named by their object identity. *)
Inductive Notification : Type :=
| AddInstance (listener : nat) (id : string) (instance : nat) (type : option IOType)
| RemoveInstance (listener : nat) (id : string) (instance : nat).

(** The module-level variables of Tandem.js. *)
Record Registry : Type := mkRegistry {
  launched : bool;
  staticInstances : list StaticInstance;
  instanceListeners : list nat;
  notified : list Notification;
  console : list string
}.

Definition initial : Registry := mkRegistry false [] [] [] [].

Definition setLaunched (b : bool) (r : Registry) : Registry :=
  mkRegistry b (staticInstances r) (instanceListeners r) (notified r) (console r).
Definition setStaticInstances (q : list StaticInstance) (r : Registry) : Registry :=
  mkRegistry (launched r) q (instanceListeners r) (notified r) (console r).
Definition notify (ns : list Notification) (r : Registry) : Registry :=
  mkRegistry (launched r) (staticInstances r) (instanceListeners r)
             (notified r ++ ns) (console r).
Definition consoleLog (msg : string) (r : Registry) : Registry :=
  mkRegistry (launched r) (staticInstances r) (instanceListeners r)
             (notified r) (console r ++ [msg]).

(** [Tandem.addInstanceListener( instanceListener )] *)
Definition addInstanceListener (listener : nat) (r : Registry) : Registry :=
  mkRegistry (launched r) (staticInstances r) (instanceListeners r ++ [listener])
             (notified r) (console r).

(** The calls of the [for] loop over [instanceListeners] in [addInstance]. *)
Definition announce (listeners : list nat) (t : Tandem) (instance : nat)
           (type : option IOType) : list Notification :=
  map (fun l => AddInstance l (id t) instance type) listeners.

(** The calls of the [for] loop over [instanceListeners] in [removeInstance]. *)
Definition retract (listeners : list nat) (t : Tandem) (instance : nat)
  : list Notification :=
  map (fun l => RemoveInstance l (id t) instance) listeners.

(** [tandem.addInstance( instance, type )]; a SupertypeTandem overrides it
    with a no-op. *)
Definition addInstance (env : Env) (t : Tandem) (instance : nat)
           (type : option IOType) (r : Registry) : result Registry :=
  match class t with
  | SupertypeTandem => Ok r
  | _ =>
      if phetioBrand env && enabled t then
        do _ <- assert_ (assertions env) (negb (tandemRequiredButNotSupplied t))
                  "Tandem was required but not supplied";
        let r := match type with
                 | None => consoleLog ("Missing type declaration for " +:+ id t) r
                 | Some _ => r
                 end in
        do _ <- assert_ (assertions env) (truthyType type)
                  "type must be specified and have a typeName";
        if static t && negb (launched r) then
          Ok (setStaticInstances
                (staticInstances r ++ [Build_StaticInstance t instance type]) r)
        else
          Ok (notify (announce (instanceListeners r) t instance type) r)
      else Ok r
  end.

(** [tandem.removeInstance( instance )]; the brand is read without the
    [window.phet] guard of [addInstance]. *)
Definition removeInstance (env : Env) (t : Tandem) (instance : nat)
           (r : Registry) : result Registry :=
  match class t with
  | SupertypeTandem => Ok r
  | _ =>
      match phet env with
      | None => Throw ReferenceError
      | Some p =>
          match chipper p with
          | None => Throw TypeError
          | Some c =>
              if String.eqb (brand c) "phet-io" && enabled t then
                Ok (notify (retract (instanceListeners r) t instance) r)
              else Ok r
          end
      end
  end.

(** The trace records the calls the listeners receive; what a listener does
    with a call is outside Tandem.js. Where that matters, [outcome] gives
    it: a loop over the listeners makes its calls in order and stops at the
    first call that throws, with the error of that listener. *)
Fixpoint callListeners (outcome : Notification -> result unit)
         (calls : list Notification) : list Notification * result unit :=
  match calls with
  | [] => ([], Ok tt)
  | call :: rest =>
      match outcome call with
      | Ok _ =>
          let (made, r) := callListeners outcome rest in
          (call :: made, r)
      | Throw e => ([call], Throw e)
      end
  end.

(** [tandem.removeInstance( instance )] with listeners that may throw: the
    registry as the call leaves it, and the outcome of the call. *)
Definition removeInstanceWith (outcome : Notification -> result unit)
           (env : Env) (t : Tandem) (instance : nat) (r : Registry)
  : Registry * result unit :=
  match class t with
  | SupertypeTandem => (r, Ok tt)
  | _ =>
      match phet env with
      | None => (r, Throw ReferenceError)
      | Some p =>
          match chipper p with
          | None => (r, Throw TypeError)
          | Some c =>
              if String.eqb (brand c) "phet-io" && enabled t then
                let (made, res) :=
                  callListeners outcome
                    (map (fun l => RemoveInstance l (id t) instance)
                         (instanceListeners r)) in
                (notify made r, res)
              else (r, Ok tt)
          end
      end
  end.

(** [tandem.createTandem( id, options )]; [id] is a string. *)
Definition createTandem (env : Env) (t : Tandem) (childId : string)
           (options : Options) : result Tandem :=
  do _ <- assert_ (assertions env) (JsString.len childId >? 0) "id must be defined";
  let string := if JsString.len (id t) >? 0 then id t +:+ "." +:+ childId
                else childId in
  let options := extend (mkOptions (Some (static t)) None (Some (enabled t))) options in
  Ok (new (Some string) options).

(** [tandem.createSupertypeTandem()] *)
Definition createSupertypeTandem (t : Tandem) : Tandem :=
  mkTandem (id t) false false true SupertypeTandem.

(** [Tandem.createRootTandem()], for a package whose camel-cased name is
    [simName]. *)
Definition createRootTandem (simName : string) : Tandem :=
  new (Some simName) noOptions.

(** [Tandem.createStaticTandem( name )] *)
Definition createStaticTandem (env : Env) (simName name : string) : result Tandem :=
  createTandem env (createRootTandem simName) name (mkOptions (Some true) None None).

(** The [while ( staticInstances.length > 0 )] loop of [launch]. *)
Fixpoint drainStaticInstances (bound : nat) (env : Env) (r : Registry)
  : result Registry :=
  match staticInstances r with
  | [] => Ok r
  | staticInstance :: rest =>
      match bound with
      | O => Throw LoopBound
      | S bound' =>
          do r' <- addInstance env (si_tandem staticInstance)
                     (si_instance staticInstance) (si_type staticInstance)
                     (setStaticInstances rest r);
          drainStaticInstances bound' env r'
      end
  end.

(** [Tandem.launch()] *)
Definition launch (env : Env) (r : Registry) : result Registry :=
  do _ <- assert_ (assertions env) (negb (launched r)) "Tandem was launched twice";
  let r := setLaunched true r in
  drainStaticInstances (length (staticInstances r)) env r.

(** Registering a list of entries one after the other. *)
Fixpoint addInstances (env : Env) (entries : list StaticInstance) (r : Registry)
  : result Registry :=
  match entries with
  | [] => Ok r
  | e :: rest =>
      do r' <- addInstance env (si_tandem e) (si_instance e) (si_type e) r;
      addInstances env rest r'
  end.

(** [tandem.tail] *)
Definition tail (env : Env) (t : Tandem) : result string :=
  do _ <- assert_ (assertions env) (JsString.indexOf (id t) "." >=? 0)
            "tandem ID does not have a tail";
  let lastIndexOfDot := JsString.lastIndexOf (id t) "." in
  let tail := JsString.substring (id t) (lastIndexOfDot + 1) (JsString.len (id t)) in
  do _ <- assert_ (assertions env) (JsString.len tail >? 0)
            "tandem ID did not have a tail";
  Ok tail.

(** [tandem.parentTandem] *)
Definition parentTandem (env : Env) (t : Tandem) : result Tandem :=
  do _ <- assert_ (assertions env) (JsString.indexOf (id t) "." >=? 0)
            "tandem ID does not have a tail";
  let lastIndexOfDot := JsString.lastIndexOf (id t) "." in
  let headID := JsString.substring (id t) 0 lastIndexOfDot in
  Ok (new (Some headID)
          (mkOptions (Some (static t)) (Some (tandemRequiredButNotSupplied t))
                     (Some (enabled t)))).

(** A GroupTandem: a tandem with the counter [groupElementIndex]. *)
Record GroupTandemObject : Type := mkGroupTandem {
  gt_tandem : Tandem;
  groupElementIndex : Z
}.

(** [tandem.createGroupTandem( id )]: [new GroupTandem( this.id + '.' + id )],
    whose constructor calls [Tandem.call( this, id )] without options. *)
Definition createGroupTandem (t : Tandem) (groupId : string) : GroupTandemObject :=
  let base := new (Some (id t +:+ "." +:+ groupId)) noOptions in
  mkGroupTandem
    (mkTandem (id base) (static base) (tandemRequiredButNotSupplied base)
              (enabled base) GroupTandem)
    0.

(** [groupTandem.createNextTandem()] *)
Definition createNextTandem (g : GroupTandemObject) : Tandem * GroupTandemObject :=
  (new (Some (id (gt_tandem g) +:+ "_"
              +:+ JsString.numberToString (groupElementIndex g))) noOptions,
   mkGroupTandem (gt_tandem g) (groupElementIndex g + 1)).

(** [createNextTandem()] called [n] times. *)
Fixpoint createNextTandems (n : nat) (g : GroupTandemObject)
  : list Tandem * GroupTandemObject :=
  match n with
  | O => ([], g)
  | S n' =>
      let (t, g1) := createNextTandem g in
      let (ts, g2) := createNextTandems n' g1 in
      (t :: ts, g2)
  end.

(** [Tandem.tandemRequired()], for the root tandem of [simName]. *)
Definition tandemRequired (env : Env) (simName : string) : result Tandem :=
  createTandem env (createRootTandem simName) "requiredTandem"
               (mkOptions None (Some true) None).

(** [Tandem.validateOptions( options )]: [tandem] is [options.tandem], and
    [validateTandems] is [phet.phetio && phet.phetio.queryParameters &&
    phet.phetio.queryParameters.phetioValidateTandems]. *)
Definition validateOptions (env : Env) (validateTandems : bool)
           (tandem : option Tandem) : result unit :=
  if phetioBrand env && validateTandems then
    do _ <- assert_ (assertions env)
              (match tandem with Some _ => true | None => false end)
              "tandem should be defined in common code components";
    match tandem with
    | Some t =>
        assert_ (assertions env) (negb (tandemRequiredButNotSupplied t))
                "Default tandem instance cannot be used when running as PhET-iO"
    | None => if assertions env then Throw TypeError else Ok tt
    end
  else Ok tt.

(** [Tandem.indicateUninstrumentedCode()] *)
Definition indicateUninstrumentedCode (env : Env) (validateTandems : bool)
  : result unit :=
  if phetioBrand env && validateTandems then
    assert_ (assertions env) false "Uninstrumented code detected"
  else Ok tt.

(** [createTandem] along a path of names, without options. *)
Fixpoint createTandems (env : Env) (t : Tandem) (names : list string)
  : result Tandem :=
  match names with
  | [] => Ok t
  | name :: rest =>
      do child <- createTandem env t name noOptions;
      createTandems env child rest
  end.

(** *** Notions used to state the properties of the registry *)

(** What [addInstance] does once past its two assertions. *)
Definition logMissingType (t : Tandem) (type : option IOType) (r : Registry)
  : Registry :=
  match type with
  | None => consoleLog ("Missing type declaration for " +:+ id t) r
  | Some _ => r
  end.

Definition register (t : Tandem) (instance : nat) (type : option IOType)
           (r : Registry) : Registry :=
  let r := logMissingType t type r in
  if static t && negb (launched r) then
    setStaticInstances (staticInstances r ++ [Build_StaticInstance t instance type]) r
  else notify (announce (instanceListeners r) t instance type) r.

(** The two assertions of [addInstance] hold, or assertions are disabled. *)
Definition passes (env : Env) (t : Tandem) (type : option IOType) : bool :=
  negb (assertions env)
  || (negb (tandemRequiredButNotSupplied t) && truthyType type).

Definition isSupertype (t : Tandem) : bool :=
  match class t with SupertypeTandem => true | _ => false end.

(** The entry is one whose [addInstance] reaches the registry. *)
Definition active (env : Env) (t : Tandem) : bool :=
  negb (isSupertype t) && phetioBrand env && enabled t.

(** The calls the listeners receive for a list of entries, entry by entry. *)
Definition announceAll (listeners : list nat) (entries : list StaticInstance)
  : list Notification :=
  flat_map (fun e => announce listeners (si_tandem e) (si_instance e) (si_type e))
           entries.

Definition pendingEntry (env : Env) (e : StaticInstance) : Prop :=
  static (si_tandem e) = true /\ active env (si_tandem e) = true.

End Tandem.

(** ** Parametric IO type constructors: FunctionIO, PhetioGroupIO, ArrayIO

    An IO type is a JavaScript constructor function; [===] on two of them
    compares object identity, which is the [ref] given at allocation. *)

Module ParametricTypes.

Record IOType : Type := mkIOType {
  ref : nat;                   (* object identity *)
  typeName : string;
  parameterTypes : list nat    (* identities of the parameter types *)
}.

(** The two module-level [cache] objects, used as maps from a string key,
    and the next free object identity. A cache is a plain object: its own
    properties are the entries of the map, and the entry at "__proto__",
    which assignment never makes an own property (it runs the setter
    inherited from Object.prototype), is the prototype the cache was given
    that way. *)
Record Store : Type := mkStore {
  nextRef : nat;
  functionCache : gmap string IOType;
  groupCache : gmap string IOType
}.

Definition empty : Store := mkStore 0 ∅ ∅.

(** [names.join( sep )] *)
Definition join (sep : string) (names : list string) : string :=
  String.concat sep names.

(** The arguments that are defined, when all are. *)
Fixpoint allDefined (types : list (option IOType)) : option (list IOType) :=
  match types with
  | [] => Some []
  | Some t :: rest =>
      match allDefined rest with
      | Some ts => Some (t :: ts)
      | None => None
      end
  | None :: _ => None
  end.

Definition isDefined {A : Type} (o : option A) : bool :=
  match o with Some _ => true | None => false end.

(** [cache.hasOwnProperty( key )], with the value of the own property when
    there is one. An own property named "hasOwnProperty" shadows the method
    of Object.prototype: it holds an IO type, which is a class, and a class
    called without [new] throws. *)
Definition ownProperty (cache : gmap string IOType) (key : string)
  : result (option IOType) :=
  match cache !! "hasOwnProperty" with
  | Some _ => Throw TypeError
  | None => Ok (if String.eqb key "__proto__" then None else cache !! key)
  end.

(** The properties every class has that cannot be assigned through an
    object inheriting from it: its own [length], [name] and [prototype] are
    read-only, and [arguments] and [caller] of Function.prototype throw. *)
Definition classReadOnly (key : string) : bool :=
  existsb (String.eqb key) ["length"; "name"; "prototype"; "arguments"; "caller"].

Section WithValidation.

(** [ObjectIO.validateSubtype] belongs to ObjectIO, which is outside these
    sources: it accepts or rejects (by an assertion) a new type. *)
Variable validateSubtype : IOType -> bool.

(** Whether ObjectIO, which every IO type extends, has a static property of
    this name that cannot be assigned through an inheriting object. *)
Variable objectIOReadOnly : string -> bool.

Definition checkSubtype (a : bool) (t : IOType) : result IOType :=
  do _ <- assert_ a (validateSubtype t) "validateSubtype";
  Ok t.

(** [create( returnType, functionParameterTypes )] of FunctionIO *)
Definition createFunctionIO (a : bool) (returnType : IOType)
           (functionParameterTypes : list IOType) (st : Store)
  : result IOType :=
  let parameterTypes := join "," (map typeName functionParameterTypes) in
  checkSubtype a
    {| ref := nextRef st;
       typeName := "FunctionIO(" +:+ parameterTypes +:+ ")=>" +:+ typeName returnType;
       parameterTypes := map ref (functionParameterTypes ++ [returnType]) |}.

(** [FunctionIO( returnType, functionParameterTypes )]; an argument that
    is [undefined] is [None]. The cache key contains a ".", so it is never
    "hasOwnProperty" or "__proto__", and this cache is a map throughout. *)
Definition FunctionIO (a : bool) (returnType : option IOType)
           (functionParameterTypes : list (option IOType)) (st : Store)
  : result (IOType * Store) :=
  do _ <- assert_ a (forallb isDefined functionParameterTypes)
            "parameter type was not truthy";
  do _ <- assert_ a (isDefined returnType) "return type was not truthy";
  match returnType, allDefined functionParameterTypes with
  | Some returnType, Some functionParameterTypes =>
      let cacheKey := typeName returnType +:+ "." +:+
                      join "," (map typeName functionParameterTypes) in
      match functionCache st !! cacheKey with
      | Some cached => Ok (cached, st)
      | None =>
          do t <- createFunctionIO a returnType functionParameterTypes st;
          Ok (t, mkStore (S (nextRef st))
                         (<[cacheKey := t]> (functionCache st))
                         (groupCache st))
      end
  | _, _ => Throw TypeError
  end.

(** [create( parameterType )] of PhetioGroupIO *)
Definition createPhetioGroupIO (a : bool) (parameterType : IOType) (st : Store)
  : result IOType :=
  checkSubtype a
    {| ref := nextRef st;
       typeName := "PhetioGroupIO<" +:+ typeName parameterType +:+ ">";
       parameterTypes := [ref parameterType] |}.

(** [cache[ key ] = type] in strict mode, for a key that is not an own
    property: "__proto__" goes to the setter, which makes [type] the
    prototype; once the prototype is an IO type, a key that names one of its
    read-only properties is refused; any other key becomes an own property. *)
Definition assign (cache : gmap string IOType) (key : string) (type : IOType)
  : result (gmap string IOType) :=
  if String.eqb key "__proto__" then Ok (<[key := type]> cache)
  else if isDefined (cache !! "__proto__")
          && (classReadOnly key || objectIOReadOnly key)
       then Throw TypeError
       else Ok (<[key := type]> cache).

(** [PhetioGroupIO( parameterType )] *)
Definition PhetioGroupIO (a : bool) (parameterType : option IOType) (st : Store)
  : result (IOType * Store) :=
  do _ <- assert_ a (isDefined parameterType) "element type should be defined";
  match parameterType with
  | Some parameterType =>
      do own <- ownProperty (groupCache st) (typeName parameterType);
      match own with
      | Some cached => Ok (cached, st)
      | None =>
          do t <- createPhetioGroupIO a parameterType st;
          do cache <- assign (groupCache st) (typeName parameterType) t;
          Ok (t, mkStore (S (nextRef st)) (functionCache st) cache)
      end
  | None => Throw TypeError
  end.

End WithValidation.

(** Modelled from the spec: [phetioInherit] is not among the sources. An IO
    type is a named descriptor built around a constructor function, so
    [phetioInherit( supertype, typeName, subtype, methods, statics )] gives
    the constructor [subtype] the name [typeName] and returns it. *)
Definition phetioInherit (typeName : string) (subtype : nat)
           (parameterTypes : list nat) : IOType :=
  mkIOType subtype typeName parameterTypes.

(** [ArrayIO( elementType )]: every call evaluates the function expression
    [ArrayIOImpl] anew and hands it to [phetioInherit]; there is no cache. *)
Definition ArrayIO (elementType : option IOType) (st : Store) : IOType * Store :=
  let ArrayIOImpl := nextRef st in
  (phetioInherit "ArrayIO" ArrayIOImpl
     (match elementType with Some t => [ref t] | None => [] end),
   mkStore (S (nextRef st)) (functionCache st) (groupCache st)).

(** *** Notions used to state the properties of the caches *)

(** Every type in the PhetioGroupIO cache is named after its key, was
    allocated before [nextRef], and no two keys share a type object. *)
Definition groupCacheOK (st : Store) : Prop :=
  (forall key t, groupCache st !! key = Some t ->
     typeName t = "PhetioGroupIO<" +:+ key +:+ ">" /\ (ref t < nextRef st)%nat)
  /\ (forall k1 k2 t1 t2,
        groupCache st !! k1 = Some t1 -> groupCache st !! k2 = Some t2 ->
        ref t1 = ref t2 -> k1 = k2).

End ParametricTypes.

(** ** State objects: NullableIO and ArrayIO *)

Module StateObjects.

(** JavaScript values, as far as serialization tells them apart. *)
#[warnings="-register-all"] Inductive Value : Type :=
| VNull
| VUndefined
| VBoolean (b : bool)
| VNumber (n : Z)
| VString (s : string)
| VArray (elements : list Value)
| VObject (ref : nat).

Definition isNull (v : Value) : bool :=
  match v with VNull => true | _ => false end.

(** The static serialization methods and the validator of an IO type. *)
Record IOType : Type := mkIOType {
  isValidValue : Value -> bool;
  toStateObject : Value -> result Value;
  fromStateObject : Value -> result Value
}.

(** [NullableIO( parameterType )] *)
Definition NullableIO (parameterType : IOType) : IOType :=
  {| isValidValue := fun instance =>
       isNull instance || isValidValue parameterType instance;
     toStateObject := fun instance =>
       if isNull instance then Ok VNull
       else toStateObject parameterType instance;
     fromStateObject := fun stateObject =>
       if isNull stateObject then Ok VNull
       else fromStateObject parameterType stateObject |}.

(** The [for] loops of ArrayIO: [out.push( f( xs[ i ] ) )] for each index. *)
Fixpoint pushEach (f : Value -> result Value) (xs out : list Value)
  : result (list Value) :=
  match xs with
  | [] => Ok out
  | x :: rest =>
      do y <- f x;
      pushEach f rest (out ++ [y])
  end.

(** The indexed elements [v[ 0 ] .. v[ v.length - 1 ]] of a value: those of
    an array, the characters of a string, none for a value without a
    [length]; reading [length] of [null] or [undefined] throws. *)
Definition indexed (v : Value) : result (list Value) :=
  match v with
  | VArray elements => Ok elements
  | VString s => Ok (map (fun c => VString (JsString.char c)) (list_ascii_of_string s))
  | VNull | VUndefined => Throw TypeError
  | _ => Ok []
  end.

Definition isArray (v : Value) : bool :=
  match v with VArray _ => true | _ => false end.

(** [ArrayIO( elementType )]; an element type always has a [toStateObject]. *)
Definition ArrayIO (a : bool) (elementType : IOType) : IOType :=
  {| isValidValue := fun array =>
       match array with
       | VArray elements => forallb (isValidValue elementType) elements
       | _ => false
       end;
     toStateObject := fun array =>
       do _ <- assert_ a (isArray array) "ArrayIO should wrap array instances";
       do elements <- indexed array;
       do json <- pushEach (toStateObject elementType) elements [];
       Ok (VArray json);
     fromStateObject := fun stateObject =>
       do elements <- indexed stateObject;
       do array <- pushEach (fromStateObject elementType) elements [];
       Ok (VArray array) |}.

(** An IO type round-trips when every valid instance is serialized to a
    state object from which it is read back. *)
Definition roundTrips (T : IOType) : Prop :=
  forall x, isValidValue T x = true ->
    exists s, toStateObject T x = Ok s /\ fromStateObject T s = Ok x.

(** The type never writes an instance other than [null] as [null]. *)
Definition neverNull (T : IOType) : Prop :=
  forall x, isValidValue T x = true -> x <> VNull -> toStateObject T x <> Ok VNull.

(** An IO type with the single instance [0], serialized as [null]. *)
Definition ZeroIO : IOType :=
  {| isValidValue := fun v => match v with VNumber 0 => true | _ => false end;
     toStateObject := fun _ => Ok VNull;
     fromStateObject := fun _ => Ok (VNumber 0) |}.

(** The identity serialization of TString. *)
Definition TString : IOType :=
  {| isValidValue := fun v => match v with VString _ => true | _ => false end;
     toStateObject := fun value => Ok value;
     fromStateObject := fun stateObject => Ok stateObject |}.

End StateObjects.

(** ** Group (dynamic group manager) *)

Module Group.

Record Env : Type := {
  assertions : bool;        (* [assert] is defined *)
  PHET_IO_ENABLED : bool    (* [Tandem.PHET_IO_ENABLED] *)
}.

Definition GROUP_SEPARATOR : ascii := "_".

(** [prefix + GROUP_SEPARATOR + index], where [index] may be [NaN]. *)
Definition indexToString (index : option Z) : string :=
  match index with
  | Some n => JsString.numberToString n
  | None => "NaN"
  end.

Definition componentNameOf (prefix : string) (index : option Z) : string :=
  prefix +:+ JsString.char GROUP_SEPARATOR +:+ indexToString index.

(** [parseInt( name.split( GROUP_SEPARATOR )[ 1 ], 10 )] *)
Definition indexOfName (name : string) : option Z :=
  JsString.parseInt (nth_error (JsString.split name GROUP_SEPARATOR) 1).

(** The component names [prefix_i], [prefix_(i+1)], ... of [n] members. *)
Definition namesFrom (prefix : string) (i : Z) (n : nat) : list string :=
  map (fun k => componentNameOf prefix (Some (i + Z.of_nat k))) (seq 0 n).

Section WithMembers.

(** The arguments handed to the group's creation function. *)
Variable Args : Type.

(** A group member is the object [createMember( groupMemberTandem, ...args )]
    answers; [createMember] is the caller's factory and builds a new
    object on every call, so a member is its object identity, the
    component name of its GroupMemberTandem and its arguments. *)
Record Member : Type := mkMember {
  m_ref : nat;
  m_name : string;
  m_args : Args
}.

(** [this.phetioType.parameterType.validator], as [validate] applies it. *)
Variable validator : Member -> bool.

(** The three checks of [Group.assertDynamicPhetioObject]. *)
Variable isDynamicPhetioObject : Member -> bool.

Record Group : Type := mkGroup {
  prefix : string;
  array : list Member;
  groupElementIndex : Z;
  nextRef : nat;                 (* next free object identity *)
  created : list Member;         (* emitted by memberCreatedEmitter *)
  disposed : list Member         (* emitted by memberDisposedEmitter, then disposed *)
}.

(** The group after its constructor. *)
Definition new (prefix : string) : Group := mkGroup prefix [] 0 0 [] [].

Definition setIndex (n : Z) (g : Group) : Group :=
  mkGroup (prefix g) (array g) n (nextRef g) (created g) (disposed g).

(** [array.indexOf( member )], by object identity. *)
Fixpoint indexOfMember (member : Member) (l : list Member) (i : nat) : option nat :=
  match l with
  | [] => None
  | m :: rest =>
      if Nat.eqb (m_ref m) (m_ref member) then Some i
      else indexOfMember member rest (S i)
  end.

(** [array.splice( index, 1 )] for an index inside the array. *)
Fixpoint removeAt (i : nat) (l : list Member) : list Member :=
  match l, i with
  | [], _ => []
  | _ :: rest, O => rest
  | m :: rest, S i' => m :: removeAt i' rest
  end.

(** [arrayRemove( array, member )] of PHET_CORE: asserts that the member
    is in the array and splices it out at its first index; without
    assertions [splice( -1, 1 )] takes the last element. *)
Definition arrayRemove (a : bool) (l : list Member) (member : Member)
  : result (list Member) :=
  match indexOfMember member l 0 with
  | Some i => Ok (removeAt i l)
  | None =>
      do _ <- assert_ a false "item not found in Array";
      Ok (removelast l)
  end.

(** [disposeGroupMember( member )] *)
Definition disposeGroupMember (env : Env) (member : Member) (g : Group)
  : result Group :=
  do array' <- arrayRemove (assertions env) (array g) member;
  Ok (mkGroup (prefix g) array' (groupElementIndex g) (nextRef g)
              (created g) (disposed g ++ [member])).

(** The [while ( this.array.length > 0 )] loop of [clear]. *)
Fixpoint clearLoop (bound : nat) (env : Env) (g : Group) : result Group :=
  match last (array g) with
  | None => Ok g
  | Some member =>
      match bound with
      | O => Throw LoopBound
      | S bound' =>
          do g' <- disposeGroupMember env member g;
          clearLoop bound' env g'
      end
  end.

(** [clear()] *)
Definition clear (env : Env) (g : Group) : result Group :=
  do g' <- clearLoop (length (array g)) env g;
  Ok (setIndex 0 g').

(** [createGroupMember( index, argsForCreateFunction )] *)
Definition createGroupMember (env : Env) (index : option Z) (args : Args)
           (g : Group) : result (Member * Group) :=
  let componentName := componentNameOf (prefix g) index in
  let groupMember := mkMember (nextRef g) componentName args in
  do _ <- assert_ (assertions env) (validator groupMember) "validation failed";
  do _ <- assert_ (assertions env && PHET_IO_ENABLED env)
            (isDynamicPhetioObject groupMember)
            "instance should be an instrumented dynamic PhetioObject";
  Ok (groupMember,
      mkGroup (prefix g) (array g ++ [groupMember]) (groupElementIndex g)
              (S (nextRef g)) (created g ++ [groupMember]) (disposed g)).

(** [createNextMember( ...argsForCreateFunction )]: the argument
    [this.groupElementIndex++] is evaluated before the call. *)
Definition createNextMember (env : Env) (args : Args) (g : Group)
  : result (Member * Group) :=
  let index := groupElementIndex g in
  createGroupMember env (Some index) args (setIndex (index + 1) g).

(** [createCorrespondingGroupMember( phetioObject, ...argsForCreateFunction )],
    where [name] is [phetioObject.tandem.name]. *)
Definition createCorrespondingGroupMember (env : Env) (name : string)
           (args : Args) (g : Group) : result (Member * Group) :=
  let index := indexOfName name in
  let g := match index with
           | Some i => if groupElementIndex g =? i
                       then setIndex (groupElementIndex g + 1) g else g
           | None => g
           end in
  createGroupMember env index args g.

(** [createNextMember] called once for each element of [argss]. *)
Fixpoint createNextMembers (env : Env) (argss : list Args) (g : Group)
  : result (list Member * Group) :=
  match argss with
  | [] => Ok ([], g)
  | args :: rest =>
      do mg <- createNextMember env args g;
      do msg <- createNextMembers env rest (snd mg);
      Ok (fst mg :: fst msg, snd msg)
  end.

(** *** Notions used to state the properties of a group *)

(** The two checks of [createGroupMember] let the member through. *)
Definition accepts (env : Env) (member : Member) : bool :=
  (negb (assertions env) || validator member)
  && (negb (assertions env && PHET_IO_ENABLED env) || isDynamicPhetioObject member).

(** The member [createGroupMember] builds for an index. *)
Definition candidate (g : Group) (index : option Z) (args : Args) : Member :=
  mkMember (nextRef g) (componentNameOf (prefix g) index) args.

(** The live members are distinct objects, allocated before [nextRef]. *)
Definition wellFormed (g : Group) : Prop :=
  NoDup (map m_ref (array g))
  /\ Forall (fun m => (m_ref m < nextRef g)%nat) (array g).

(** Every member ever created is either live or disposed, once. *)
Definition accounted (g : Group) : Prop :=
  Permutation (created g) (disposed g ++ array g).

(** The live members carry pairwise different names, each made of the
    prefix and an index below the counter. *)
Definition indexedBelowCounter (g : Group) : Prop :=
  Forall (fun m => exists i, i < groupElementIndex g
                             /\ m_name m = componentNameOf (prefix g) (Some i))
         (array g)
  /\ NoDup (map m_name (array g)).

End WithMembers.

Arguments accounted {Args} _.
Arguments indexedBelowCounter {Args} _.
Arguments accepts {Args} _ _ _ _.
Arguments candidate {Args} _ _ _.
Arguments wellFormed {Args} _.
Arguments mkMember {Args} _ _ _.
Arguments m_ref {Args} _.
Arguments m_name {Args} _.
Arguments m_args {Args} _.
Arguments prefix {Args} _.
Arguments array {Args} _.
Arguments groupElementIndex {Args} _.
Arguments nextRef {Args} _.
Arguments created {Args} _.
Arguments disposed {Args} _.
Arguments new {Args} _.
Arguments setIndex {Args} _ _.
Arguments clear {Args} _ _.
Arguments clearLoop {Args} _ _ _.
Arguments disposeGroupMember {Args} _ _ _.
Arguments arrayRemove {Args} _ _ _.
Arguments indexOfMember {Args} _ _ _.
Arguments removeAt {Args} _ _.
Arguments createGroupMember {Args} _ _ _ _ _ _.
Arguments createNextMember {Args} _ _ _ _ _.
Arguments createNextMembers {Args} _ _ _ _ _.
Arguments createCorrespondingGroupMember {Args} _ _ _ _ _ _.

End Group.

(** ** PhetioObject: the event stack *)

Module PhetioObject.

Record QueryParameters : Type := { phetioEmitHighFrequencyEvents : bool }.

Record Env : Type := {
  assertions : bool;                  (* [assert] is defined *)
  PHET_IO_ENABLED : bool;             (* [Tandem.PHET_IO_ENABLED] *)
  phetio : option QueryParameters     (* [window.phet && window.phet.phetio], with its [queryParameters] *)
}.

(** Indicates a high frequency message was skipped. *)
Definition SKIPPING_HIGH_FREQUENCY_MESSAGE : Z := -1.

Record TandemInfo : Type := { supplied : bool }.

Record PhetioObject : Type := mkPhetioObject {
  tandem : option TandemInfo;         (* [null] until initialized *)
  phetioObjectInitialized : bool;
  phetioHighFrequency : bool;
  phetioMessageStack : list Z;        (* [push] and [pop] work at the end *)
  isDisposed : bool
}.

Definition setStack (stack : list Z) (o : PhetioObject) : PhetioObject :=
  mkPhetioObject (tandem o) (phetioObjectInitialized o) (phetioHighFrequency o)
                 stack (isDisposed o).

(** [isPhetioInstrumented()] *)
Definition isPhetioInstrumented (env : Env) (o : PhetioObject) : bool :=
  match tandem o with
  | Some t => supplied t && PHET_IO_ENABLED env
  | None => false
  end.

(** Whether [phetioStartEvent] opts out of the event. *)
Definition skipsHighFrequency (env : Env) (o : PhetioObject) : bool :=
  match phetio env with
  | Some q => negb (phetioEmitHighFrequencyEvents q) && phetioHighFrequency o
  | None => false
  end.

Section WithDataStream.

(** The data stream of PHET_IO is outside the repository: [start] answers
    the index of the new message, [end] receives what was popped, which is
    [None] for [undefined]; either may throw. *)
Variable Sink : Type.
Variable Event : Type.
Variable dataStream_start : Event -> Sink -> result (Z * Sink).
Variable dataStream_end : option Z -> Sink -> result Sink.

(** [phetioStartEvent( event, data )]; [event] stands for the name and the
    data, and the assertions on their types and on the number of arguments
    hold by typing. *)
Definition phetioStartEvent (env : Env) (o : PhetioObject) (event : Event)
           (s : Sink) : result (PhetioObject * Sink) :=
  do _ <- assert_ (assertions env) (phetioObjectInitialized o)
            "phetioObject should be initialized";
  if skipsHighFrequency env o then
    Ok (setStack (phetioMessageStack o ++ [SKIPPING_HIGH_FREQUENCY_MESSAGE]) o, s)
  else if isPhetioInstrumented env o then
    do started <- dataStream_start event s;
    Ok (setStack (phetioMessageStack o ++ [fst started]) o, snd started)
  else Ok (o, s).

(** [phetioEndEvent()]: the object after the [pop], and the outcome of the
    call; [pop] on an empty array answers [undefined]. *)
Definition phetioEndEvent (env : Env) (o : PhetioObject) (s : Sink)
  : PhetioObject * result Sink :=
  let topMessageIndex := last (phetioMessageStack o) in
  let o' := setStack (removelast (phetioMessageStack o)) o in
  if decide (topMessageIndex = Some SKIPPING_HIGH_FREQUENCY_MESSAGE) then (o', Ok s)
  else if isPhetioInstrumented env o then (o', dataStream_end topMessageIndex s)
  else (o', Ok s).

(** [phetioStartEvent] called for each event of a list, in order. *)
Fixpoint phetioStartEvents (env : Env) (o : PhetioObject) (events : list Event)
         (s : Sink) : result (PhetioObject * Sink) :=
  match events with
  | [] => Ok (o, s)
  | event :: rest =>
      do started <- phetioStartEvent env o event s;
      phetioStartEvents env (fst started) rest (snd started)
  end.

(** [phetioEndEvent] called [n] times, up to the first call that throws. *)
Fixpoint phetioEndEvents (n : nat) (env : Env) (o : PhetioObject) (s : Sink)
  : PhetioObject * result Sink :=
  match n with
  | O => (o, Ok s)
  | S n' =>
      match phetioEndEvent env o s with
      | (o', Ok s') => phetioEndEvents n' env o' s'
      | (o', Throw e) => (o', Throw e)
      end
  end.

(** *** Notions used to state the properties of the event stack *)

(** The indices the data stream answers for a list of events, in order. *)
Fixpoint startAll (events : list Event) (s : Sink) : result (list Z * Sink) :=
  match events with
  | [] => Ok ([], s)
  | event :: rest =>
      do started <- dataStream_start event s;
      do others <- startAll rest (snd started);
      Ok (fst started :: fst others, snd others)
  end.

(** The data stream told to end a list of indices, in order. *)
Fixpoint endAll (indices : list Z) (s : Sink) : result Sink :=
  match indices with
  | [] => Ok s
  | index :: rest =>
      do s' <- dataStream_end (Some index) s;
      endAll rest s'
  end.

End WithDataStream.

Arguments phetioStartEvent {Sink Event} _ _ _ _ _.
Arguments phetioEndEvent {Sink} _ _ _ _.
Arguments phetioStartEvents {Sink Event} _ _ _ _ _.
Arguments phetioEndEvents {Sink} _ _ _ _ _.
Arguments startAll {Sink Event} _ _ _.
Arguments endAll {Sink} _ _ _.

(** The keys of the [DEFAULTS] of PhetioObject. *)
Definition OPTIONS_KEYS : list string :=
  [ "tandem"; "phetioType"; "phetioDocumentation"; "phetioState";
    "phetioReadOnly"; "phetioEventType"; "phetioHighFrequency";
    "phetioPlayback"; "phetioStudioControl"; "phetioComponentOptions";
    "phetioFeatured"; "phetioEventMetadata" ].

(** [array.indexOf( key ) >= 0] on an array of strings. *)
Fixpoint includes (array : list string) (key : string) : bool :=
  match array with
  | [] => false
  | k :: rest => String.eqb k key || includes rest key
  end.

(** [specifiesPhetioObjectKey( options )]: the enumerable keys of [options]
    in the order of [for ... in], each with whether it is an own property. *)
Fixpoint specifiesPhetioObjectKey (options : list (string * bool)) : bool :=
  match options with
  | [] => false
  | (key, own) :: rest =>
      if own && includes OPTIONS_KEYS key then true
      else specifiesPhetioObjectKey rest
  end.

(** [_.keys( options )]: the own enumerable keys. *)
Definition keys (options : list (string * bool)) : list string :=
  map fst (List.filter snd options).

(** [_.intersection( a, b )]: the elements of [a] that are in [b], without
    repetition. *)
Fixpoint intersection (a b : list string) : list string :=
  match a with
  | [] => []
  | x :: rest =>
      let others := intersection rest b in
      if includes b x && negb (includes others x) then x :: others else others
  end.

(** *** A data stream for the examples

    It numbers the messages and keeps the stack of those still open; its
    [end] asserts that the index it is given is the one started last. *)
Record CheckingStream : Type := mkStream {
  nextIndex : Z;
  openMessages : list Z
}.

Definition checkingStart (event : string) (s : CheckingStream)
  : result (Z * CheckingStream) :=
  Ok (nextIndex s, mkStream (nextIndex s + 1) (openMessages s ++ [nextIndex s])).

Definition checkingEnd (topMessageIndex : option Z) (s : CheckingStream)
  : result CheckingStream :=
  do _ <- assert_ true
            (bool_decide (topMessageIndex <> None
                          /\ topMessageIndex = last (openMessages s)))
            "end does not match a started message";
  Ok (mkStream (nextIndex s) (removelast (openMessages s))).

(** A data stream that only counts its messages; its [end] accepts whatever
    it is given. *)
Definition countingStart (event : string) (s : Z) : result (Z * Z) :=
  Ok (s, s + 1).

Definition countingEnd (topMessageIndex : option Z) (s : Z) : result Z :=
  Ok s.

End PhetioObject.

(** ** IOObject: the event protocol of the earlier object type *)

Module IOObject.

Record Env : Type := { assertions : bool }.

Record TandemInfo : Type := { isLegalAndUsable : bool }.

Record IOObject : Type := mkIOObject {
  eventInProgress : bool;
  initialized : bool;
  ioObjectTandem : option TandemInfo  (* [undefined] until initialized *)
}.

Definition setEventInProgress (b : bool) (o : IOObject) : IOObject :=
  mkIOObject b (initialized o) (ioObjectTandem o).

Section WithEvents.

(** [phetioEvents] is outside the repository: [start] answers the index of
    the new event, [end] receives the index it is given, which is [None]
    for [false]; either may throw. *)
Variable Sink : Type.
Variable Event : Type.
Variable phetioEvents_start : Event -> Sink -> result (Z * Sink).
Variable phetioEvents_end : option Z -> Sink -> result Sink.

(** [startEvent( eventType, event, args )]: the object as the call leaves
    it, and the outcome; the answer is [None] for [false]. *)
Definition startEvent (env : Env) (o : IOObject) (event : Event) (s : Sink)
  : IOObject * result (option Z * Sink) :=
  match assert_ (assertions env) (negb (eventInProgress o))
                "cannot start event while event is in progress" with
  | Throw e => (o, Throw e)
  | Ok _ =>
      let o' := setEventInProgress true o in
      match ioObjectTandem o with
      | None => (o', Throw TypeError)
      | Some t =>
          if isLegalAndUsable t then
            (o', do started <- phetioEvents_start event s;
                 Ok (Some (fst started), snd started))
          else (o', Ok (None, s))
      end
  end.

(** [endEvent( id )] *)
Definition endEvent (env : Env) (o : IOObject) (id : option Z) (s : Sink)
  : IOObject * result Sink :=
  match assert_ (assertions env) (eventInProgress o)
                "cannot end an event that hasn't started" with
  | Throw e => (o, Throw e)
  | Ok _ =>
      match ioObjectTandem o with
      | None => (o, Throw TypeError)
      | Some t =>
          if isLegalAndUsable t then
            match phetioEvents_end id s with
            | Ok s' => (setEventInProgress false o, Ok s')
            | Throw e => (o, Throw e)
            end
          else (setEventInProgress false o, Ok s)
      end
  end.

(** [dispose()]: whether [removeInstance] of the tandem was called. *)
Definition dispose (env : Env) (o : IOObject) : result bool :=
  do _ <- assert_ (assertions env) (negb (eventInProgress o))
            "cannot dispose while event is in progress";
  Ok (initialized o).

(** *** Notions used to state the protocol *)

Inductive Call : Type :=
| Start (event : Event)
| End (id : option Z).

(** A sequence of calls on one object, up to the first that throws. *)
Fixpoint calls (env : Env) (o : IOObject) (cs : list Call) (s : Sink)
  : IOObject * result Sink :=
  match cs with
  | [] => (o, Ok s)
  | Start event :: rest =>
      match startEvent env o event s with
      | (o', Ok started) => calls env o' rest (snd started)
      | (o', Throw e) => (o', Throw e)
      end
  | End id :: rest =>
      match endEvent env o id s with
      | (o', Ok s') => calls env o' rest s'
      | (o', Throw e) => (o', Throw e)
      end
  end.

(** Starts and ends take turns. *)
Fixpoint alternate (inProgress : bool) (cs : list Call) : bool :=
  match cs with
  | [] => true
  | Start _ :: rest => negb inProgress && alternate true rest
  | End _ :: rest => inProgress && alternate false rest
  end.

End WithEvents.

Arguments startEvent {Sink Event} _ _ _ _ _.
Arguments endEvent {Sink} _ _ _ _ _.
Arguments Start {Event} _.
Arguments End {Event} _.
Arguments calls {Sink Event} _ _ _ _ _ _.
Arguments alternate {Event} _ _.

End IOObject.

(** ** DynamicElement: an instance created on demand *)

Module DynamicElement.

Record Env : Type := {
  assertions : bool;
  phetio : option bool   (* [phet.phetio], with its [queryParameters.phetioPrintPhetioFiles] *)
}.

Record Instance : Type := mkInstance {
  ref : nat;
  isPhetioObject : bool;         (* [instance instanceof PhetioObject] *)
  phetioDynamicElement : bool
}.

Section WithCreator.

Variable Args : Type.

(** What the creator returns for the given arguments at its call number
    [n]; [None] is a falsy value. *)
Variable creator : Args -> nat -> option Instance.

Record DynamicElement : Type := mkDynamicElement {
  instance : option Instance;
  created : list Args            (* the calls of the creator so far *)
}.

(** [getInstance( ...arguments )]: the element as the call leaves it, and
    the outcome. *)
Definition getInstance (env : Env) (d : DynamicElement) (args : Args)
  : DynamicElement * result (option Instance) :=
  let d' := match instance d with
            | Some _ => d
            | None => mkDynamicElement (creator args (length (created d)))
                                       (created d ++ [args])
            end in
  (d',
   do _ <- assert_ (assertions env)
             (match instance d' with Some i => isPhetioObject i | None => false end)
             "instance should be instrumented";
   do _ <- assert_ (assertions env)
             (match instance d' with Some i => phetioDynamicElement i | None => false end)
             "instance should be marked as phetioDynamicElement:true";
   Ok (instance d')).

(** [new DynamicElement( creator, ...defaultArguments )] *)
Definition new (env : Env) (defaultArguments : Args) : result DynamicElement :=
  match phetio env with
  | None => Throw TypeError
  | Some true =>
      let created := getInstance env (mkDynamicElement None []) defaultArguments in
      do _ <- snd created; Ok (fst created)
  | Some false => Ok (mkDynamicElement None [])
  end.

End WithCreator.

Arguments instance {Args} _.
Arguments created {Args} _.
Arguments mkDynamicElement {Args} _ _.

End DynamicElement.

(** ** TFocus and TSphereBucket: state of wrapped objects *)

Module TFocus.

(** A node of the scene graph, with its children in order. *)
#[warnings="-register-all"] Inductive Node : Type :=
| mkNode (nodeId : nat) (nodeChildren : list Node).

Definition children (n : Node) : list Node :=
  match n with mkNode _ nodeChildren => nodeChildren end.

(** A focus region [{ display, trail }]; of the trail, its nodes and the
    [indices] that phet.scenery.Trail keeps for them. *)
Record Focus : Type := mkFocus {
  display : nat;
  trailNodes : list Node;
  trailIndices : list nat
}.

(** [toStateObject( focus )]; [None] is [null]. *)
Definition toStateObject (focus : option Focus) : option (list nat) :=
  match focus with
  | None => None
  | Some f => Some (trailIndices f)
  end.

(** The [for] loop of [fromStateObject]: [currentNode.children[ index ]] is
    [undefined] for an index that names no child, and reading [children] of
    [undefined] throws. *)
Fixpoint follow (currentNode : option Node) (indices : list nat)
         (nodes : list (option Node)) : result (list (option Node)) :=
  match indices with
  | [] => Ok nodes
  | index :: rest =>
      match currentNode with
      | None => Throw TypeError
      | Some n =>
          let next := nth_error (children n) index in
          follow next rest (nodes ++ [next])
      end
  end.

(** [fromStateObject( indices )], where [simDisplay] and [rootNode] are
    [phet.joist.sim.display] and its [rootNode]; the answer is the display
    and the nodes handed to [new phet.scenery.Trail]. *)
Definition fromStateObject (simDisplay : nat) (rootNode : Node)
           (indices : option (list nat))
  : result (option (nat * list (option Node))) :=
  match indices with
  | None => Ok None
  | Some indices =>
      do nodes <- follow (Some rootNode) indices [Some rootNode];
      Ok (Some (simDisplay, nodes))
  end.

(** *** Notions used to state the properties of TFocus *)

(** [rest] are the nodes reached from [current] by taking, one after the
    other, the children named by [indices]. *)
Fixpoint isPath (current : Node) (indices : list nat) (rest : list Node) : Prop :=
  match indices, rest with
  | [], [] => True
  | index :: indices', n :: rest' =>
      nth_error (children current) index = Some n /\ isPath n indices' rest'
  | _, _ => False
  end.

End TFocus.

Module TSphereBucket.

Record Particle : Type := mkParticle {
  particleRef : nat;              (* object identity *)
  particleTandemId : string       (* [particle.particleTandem.id] *)
}.

(** A SphereBucket, as far as its wrapper reads it: [instance._particles]. *)
Record SphereBucket : Type := mkBucket { particles : list Particle }.

(** [getParticleTandemID( particle )] *)
Definition getParticleTandemID (particle : Particle) : string :=
  particleTandemId particle.

(** [toStateObject( instance )] *)
Definition toStateObject (instance : SphereBucket) : list string :=
  map getParticleTandemID (particles instance).

Section WithRegistry.

(** [phetio.getInstance] belongs to PHET_IO; it answers the instance
    registered under an identifier, or throws. *)
Variable getInstance : string -> result Particle.

(** [stateArray.map( function( tandemID ) { return phetio.getInstance( tandemID ); } )] *)
Fixpoint fromStateObject (stateArray : list string) : result (list Particle) :=
  match stateArray with
  | [] => Ok []
  | tandemID :: rest =>
      do particle <- getInstance tandemID;
      do others <- fromStateObject rest;
      Ok (particle :: others)
  end.

End WithRegistry.

(** [setValue( instance, particleArray )]: empties [_particles], then pushes
    each value. *)
Definition setValue (instance : SphereBucket) (particleArray : list Particle)
  : SphereBucket :=
  fold_left (fun bucket value => mkBucket (particles bucket ++ [value]))
            particleArray (mkBucket []).

End TSphereBucket.

(** * Properties *)

(** ** Assertions and sequencing *)

Lemma assert_true (enabled : bool) (msg : string) : assert_ enabled true msg = Ok tt.
Proof. unfold assert_. now rewrite andb_false_r. Qed.

Lemma assert_off (cond : bool) (msg : string) : assert_ false cond msg = Ok tt.
Proof. reflexivity. Qed.

Lemma assert_fails (msg : string) :
  assert_ true false msg = Throw (AssertionError msg).
Proof. reflexivity. Qed.

Lemma assert_Ok (enabled cond : bool) (msg : string) :
  assert_ enabled cond msg = Ok tt <-> enabled = false \/ cond = true.
Proof.
  unfold assert_. destruct enabled, cond; simpl; split; intros H;
    try discriminate; auto; destruct H; discriminate.
Qed.

(** ** Strings *)

Lemma append_String (c : ascii) (s1 s2 : string) :
  String c s1 +:+ s2 = String c (s1 +:+ s2).
Proof. reflexivity. Qed.

Lemma append_Empty (s : string) : EmptyString +:+ s = s.
Proof. reflexivity. Qed.

Section StringFacts.
Import JsString.

Variable ch : ascii.

Lemma prefix_char (s : string) :
  String.prefix (char ch) s =
  match s with
  | String c _ => if Ascii.ascii_dec ch c then true else false
  | EmptyString => false
  end.
Proof.
  destruct s as [|c s]; simpl; [reflexivity|].
  destruct (Ascii.ascii_dec ch c); [destruct s|]; reflexivity.
Qed.

Lemma hasChar_String (c : ascii) (s : string) :
  hasChar ch (String c s) <-> c = ch \/ hasChar ch s.
Proof. unfold hasChar. simpl. tauto. Qed.

Lemma hasChar_append (s1 s2 : string) :
  hasChar ch (s1 +:+ s2) <-> hasChar ch s1 \/ hasChar ch s2.
Proof.
  induction s1 as [|c s1 IH].
  - rewrite append_Empty. unfold hasChar. simpl. tauto.
  - rewrite append_String, !hasChar_String, IH. tauto.
Qed.

Lemma indexOfFrom_absent (s : string) (i : Z) :
  ~ hasChar ch s -> indexOfFrom (char ch) s i = -1.
Proof.
  revert i. induction s as [|c s IH]; intros i Hno;
    cbn [indexOfFrom]; rewrite prefix_char.
  - reflexivity.
  - rewrite hasChar_String in Hno.
    destruct (Ascii.ascii_dec ch c) as [->|_]; [tauto|].
    apply IH. tauto.
Qed.

Lemma indexOfFrom_present (s : string) (i : Z) :
  hasChar ch s -> i <= indexOfFrom (char ch) s i.
Proof.
  revert i. induction s as [|c s IH]; intros i Hin.
  - destruct Hin.
  - cbn [indexOfFrom]. rewrite prefix_char.
    destruct (Ascii.ascii_dec ch c) as [->|Hne]; [lia|].
    apply hasChar_String in Hin. destruct Hin as [->|Hin]; [congruence|].
    specialize (IH (i + 1) Hin). lia.
Qed.

Lemma indexOf_absent_iff (s : string) :
  indexOf s (char ch) = -1 <-> ~ hasChar ch s.
Proof.
  split.
  - intros H Hin. pose proof (indexOfFrom_present s 0 Hin) as Hle.
    unfold indexOf in H. lia.
  - apply indexOfFrom_absent.
Qed.

Lemma lastIndexOfFrom_absent (s : string) (i found : Z) :
  ~ hasChar ch s -> lastIndexOfFrom (char ch) s i found = found.
Proof.
  revert i found. induction s as [|c s IH]; intros i found Hno;
    cbn [lastIndexOfFrom]; rewrite prefix_char.
  - reflexivity.
  - rewrite hasChar_String in Hno.
    destruct (Ascii.ascii_dec ch c) as [->|_]; [tauto|].
    apply IH; tauto.
Qed.

Lemma lastIndexOfFrom_append (p c : string) (i found : Z) :
  ~ hasChar ch c ->
  lastIndexOfFrom (char ch) (p +:+ String ch c) i found = i + len p.
Proof.
  intros Hno. revert i found.
  induction p as [|x p IH]; intros i found.
  - rewrite append_Empty. cbn [lastIndexOfFrom]. rewrite prefix_char.
    destruct (Ascii.ascii_dec ch ch) as [_|Hne]; [|congruence].
    rewrite lastIndexOfFrom_absent by assumption. unfold len. simpl. lia.
  - rewrite append_String. cbn [lastIndexOfFrom]. rewrite IH.
    unfold len. cbn [String.length]. lia.
Qed.

Lemma lastIndexOfFrom_ge (s : string) (i found : Z) :
  found <= i -> found <= lastIndexOfFrom (char ch) s i found.
Proof.
  revert i found. induction s as [|c s IH]; intros i found Hle;
    cbn [lastIndexOfFrom]; rewrite prefix_char.
  - lia.
  - destruct (Ascii.ascii_dec ch c) as [_|_].
    + etransitivity; [|apply IH]; lia.
    + apply IH; lia.
Qed.

Lemma lastIndexOfFrom_present (s : string) (i found : Z) :
  hasChar ch s -> found <= i -> i <= lastIndexOfFrom (char ch) s i found.
Proof.
  revert i found. induction s as [|c s IH]; intros i found Hin Hle.
  - destruct Hin.
  - cbn [lastIndexOfFrom]. rewrite prefix_char.
    destruct (Ascii.ascii_dec ch c) as [Heq|Hne].
    + apply lastIndexOfFrom_ge. lia.
    + apply hasChar_String in Hin. destruct Hin as [->|Hin]; [congruence|].
      specialize (IH (i + 1) found Hin). lia.
Qed.

Lemma lastIndexOf_absent_iff (s : string) :
  lastIndexOf s (char ch) = -1 <-> ~ hasChar ch s.
Proof.
  split.
  - intros H Hin. unfold lastIndexOf in H.
    pose proof (lastIndexOfFrom_present s 0 (-1) Hin). lia.
  - apply lastIndexOfFrom_absent.
Qed.

End StringFacts.

Lemma length_append (s1 s2 : string) :
  String.length (s1 +:+ s2) = (String.length s1 + String.length s2)%nat.
Proof.
  induction s1 as [|c s1 IH]; [reflexivity|].
  rewrite append_String. simpl. now rewrite IH.
Qed.

Lemma substring_whole (s : string) :
  String.substring 0 (String.length s) s = s.
Proof. induction s as [|c s IH]; simpl; [reflexivity|]. now rewrite IH. Qed.

Lemma substring_head (p q : string) :
  String.substring 0 (String.length p) (p +:+ q) = p.
Proof.
  induction p as [|c p IH].
  - rewrite append_Empty. destruct q; reflexivity.
  - rewrite append_String. simpl. now rewrite IH.
Qed.

Lemma substring_tail (p q : string) :
  String.substring (String.length p) (String.length q) (p +:+ q) = q.
Proof.
  induction p as [|c p IH].
  - rewrite append_Empty. apply substring_whole.
  - rewrite append_String. exact IH.
Qed.

Lemma js_substring_head (p q : string) :
  JsString.substring (p +:+ q) 0 (JsString.len p) = p.
Proof.
  unfold JsString.substring, JsString.clamp, JsString.len.
  rewrite length_append.
  replace (Z.min (Z.max 0 (Z.min 0 _)) _) with 0 by lia.
  replace (Z.max (Z.max 0 (Z.min 0 _)) _ - 0)
    with (Z.of_nat (String.length p)) by lia.
  rewrite Nat2Z.id. apply substring_head.
Qed.

Lemma js_substring_tail (p q : string) :
  JsString.substring (p +:+ q) (JsString.len p) (JsString.len (p +:+ q)) = q.
Proof.
  unfold JsString.substring, JsString.clamp, JsString.len.
  rewrite length_append.
  set (n := String.length p). set (m := String.length q).
  replace (Z.min (Z.max 0 (Z.min (Z.of_nat n) (Z.of_nat (n + m))))
                 (Z.max 0 (Z.min (Z.of_nat (n + m)) (Z.of_nat (n + m)))))
    with (Z.of_nat n) by lia.
  replace (Z.max (Z.max 0 (Z.min (Z.of_nat n) (Z.of_nat (n + m))))
                 (Z.max 0 (Z.min (Z.of_nat (n + m)) (Z.of_nat (n + m))))
           - Z.of_nat n)
    with (Z.of_nat m) by lia.
  rewrite !Nat2Z.id. apply substring_tail.
Qed.

Lemma append_assoc (s1 s2 s3 : string) :
  (s1 +:+ s2) +:+ s3 = s1 +:+ (s2 +:+ s3).
Proof.
  induction s1 as [|c s1 IH]; [reflexivity|].
  now rewrite !append_String, IH.
Qed.

Lemma len_nonneg (s : string) : 0 <= JsString.len s.
Proof. unfold JsString.len. lia. Qed.

Lemma len_append (s1 s2 : string) :
  JsString.len (s1 +:+ s2) = JsString.len s1 + JsString.len s2.
Proof. unfold JsString.len. rewrite length_append. lia. Qed.

(** ** Identifier utilities *)

Section PhetioIDUtilsFacts.
Import JsString PhetioIDUtils.

Abbreviation dot := ("."%char) (only parsing).
Abbreviation underscore := ("_"%char) (only parsing).

Lemma lastIndexOf_appended (p c : string) :
  ~ hasChar dot c -> lastIndexOf (p +:+ SEPARATOR +:+ c) SEPARATOR = len p.
Proof.
  intros Hno. unfold lastIndexOf.
  change (p +:+ SEPARATOR +:+ c) with (p +:+ String dot c).
  change SEPARATOR with (char dot).
  rewrite lastIndexOfFrom_append by assumption. lia.
Qed.

Lemma append_one (a : bool) (p c : string) :
  ~ hasChar dot c -> append a p [c] = Ok (p +:+ SEPARATOR +:+ c).
Proof.
  intros Hno. cbn [append].
  change SEPARATOR with (char dot) at 1.
  rewrite (proj2 (indexOf_absent_iff dot c) Hno).
  now rewrite Z.eqb_refl, assert_true.
Qed.

Lemma getParentID_appended (a : bool) (p c : string) :
  ~ hasChar dot c -> getParentID a (p +:+ SEPARATOR +:+ c) = Ok p.
Proof.
  intros Hno. unfold getParentID.
  rewrite lastIndexOf_appended by assumption.
  pose proof (len_nonneg p) as Hp.
  replace (len p =? -1) with false by (symmetry; apply Z.eqb_neq; lia).
  rewrite assert_true. cbn [bind].
  now rewrite js_substring_head.
Qed.

Lemma getComponentName_appended (a : bool) (p c : string) :
  ~ hasChar dot c -> getComponentName a (p +:+ SEPARATOR +:+ c) = Ok c.
Proof.
  intros Hno. unfold getComponentName.
  rewrite lastIndexOf_appended by assumption.
  pose proof (len_nonneg p) as Hp. pose proof (len_nonneg c) as Hc.
  assert (Hlen : len (p +:+ SEPARATOR +:+ c) = len p + 1 + len c).
  { rewrite !len_append. change (len SEPARATOR) with 1. lia. }
  replace (len (p +:+ SEPARATOR +:+ c) >? 0) with true
    by (symmetry; apply Z.gtb_lt; lia).
  rewrite assert_true. cbn [bind].
  replace (len p =? -1) with false by (symmetry; apply Z.eqb_neq; lia).
  f_equal.
  rewrite <- (append_assoc p SEPARATOR c).
  replace (len p + 1) with (len (p +:+ SEPARATOR))
    by (rewrite len_append; reflexivity).
  apply js_substring_tail.
Qed.

Lemma append_rejects_separator (p : string) (cs : list string) :
  Exists (hasChar dot) cs -> isAssertion (append true p cs).
Proof.
  revert p. induction cs as [|c cs IH]; intros p Hex.
  - apply Exists_nil in Hex. destruct Hex.
  - cbn [append].
    destruct (indexOf c SEPARATOR =? -1) eqn:Hidx.
    + rewrite assert_true. cbn [bind]. apply IH.
      apply Exists_cons in Hex. destruct Hex as [Hin|Hex]; [|assumption].
      apply Z.eqb_eq in Hidx.
      now apply (indexOf_absent_iff dot c) in Hidx.
    + rewrite assert_fails. cbn [bind]. eexists. reflexivity.
Qed.

Lemma getParentID_rejects_root (id : string) :
  ~ hasChar dot id -> isAssertion (getParentID true id).
Proof.
  intros Hno. unfold getParentID.
  change SEPARATOR with (char dot).
  rewrite (proj2 (lastIndexOf_absent_iff dot id) Hno).
  cbn. eexists. reflexivity.
Qed.

(** C1. For every parent identifier [p] and every component name [c] without
    the separator, [getParentID (append p c)] is [p] and
    [getComponentName (append p c)] is [c]; [append] fails by an assertion as
    soon as one of the component names contains the separator, and
    [getParentID] fails by an assertion on an identifier without separator. *)
Theorem append_getParentID_getComponentName_inverse :
  (forall (a : bool) (p c : string),
      ~ hasChar dot c ->
      exists id, append a p [c] = Ok id
                 /\ getParentID a id = Ok p
                 /\ getComponentName a id = Ok c)
  /\ (forall (p : string) (cs : list string),
         Exists (hasChar dot) cs -> isAssertion (append true p cs))
  /\ (forall id : string,
         ~ hasChar dot id -> isAssertion (getParentID true id)).
Proof.
  split; [|split].
  - intros a p c Hno. exists (p +:+ SEPARATOR +:+ c).
    split; [now apply append_one|].
    split; [now apply getParentID_appended | now apply getComponentName_appended].
  - apply append_rejects_separator.
  - apply getParentID_rejects_root.
Qed.

Lemma append_getParentID_getComponentName_inverse_witness :
  (exists id, append true "myScreen.myControlPanel" ["myComboBox"] = Ok id
              /\ getParentID true id = Ok "myScreen.myControlPanel"
              /\ getComponentName true id = Ok "myComboBox")
  /\ isAssertion (append true "myScreen" ["a"; "b.c"])
  /\ isAssertion (getParentID true "myScreen").
Proof.
  pose proof append_getParentID_getComponentName_inverse as (H1 & H2 & H3).
  split; [|split].
  - apply H1. unfold hasChar. vm_compute. intuition discriminate.
  - apply H2. apply Exists_cons_tl, Exists_cons_hd.
    unfold hasChar. vm_compute. tauto.
  - apply H3. unfold hasChar. vm_compute. intuition discriminate.
Defined.

(** C9. [isDynamicElement id] is true exactly when the group separator occurs
    somewhere in [id]; it is true of "sim.screen.electron_3" and false of
    "sim.screen.model". *)
Theorem isDynamicElement_iff_group_separator :
  (forall id : string,
      isDynamicElement id = true <-> hasChar underscore id)
  /\ isDynamicElement "sim.screen.electron_3" = true
  /\ isDynamicElement "sim.screen.model" = false.
Proof.
  split; [|split; reflexivity].
  intros id. unfold isDynamicElement, indexOf.
  change GROUP_SEPARATOR with (char underscore).
  split.
  - intros H. apply Z.geb_le in H.
    destruct (in_dec Ascii.ascii_dec underscore (list_ascii_of_string id))
      as [Hin|Hno]; [exact Hin|].
    rewrite (indexOfFrom_absent underscore id 0 Hno) in H. lia.
  - intros Hin. apply Z.geb_le.
    apply (indexOfFrom_present underscore id 0 Hin).
Qed.

End PhetioIDUtilsFacts.

(** ** The registry *)

Section TandemFacts.
Import Tandem.

Lemma addInstance_inactive env t instance type r :
  active env t = false -> addInstance env t instance type r = Ok r.
Proof.
  unfold active, isSupertype, addInstance. intros H.
  destruct (class t); simpl in H; try reflexivity;
    destruct (phetioBrand env), (enabled t); simpl in *; congruence.
Qed.

Lemma addInstance_active env t instance type r :
  active env t = true ->
  passes env t type = true ->
  addInstance env t instance type r = Ok (register t instance type r).
Proof.
  unfold active, isSupertype, passes, addInstance, register, logMissingType.
  intros H Hp.
  destruct (class t); simpl in H; try discriminate;
    destruct (phetioBrand env); simpl in H; try discriminate;
    rewrite H; simpl;
    destruct (assertions env), (tandemRequiredButNotSupplied t),
      (truthyType type); simpl in *; try discriminate;
    destruct type; simpl; destruct (static t && negb (launched r)); reflexivity.
Qed.

Lemma addInstance_Ok_passes env t instance type r r' :
  active env t = true ->
  addInstance env t instance type r = Ok r' ->
  passes env t type = true.
Proof.
  unfold active, isSupertype, passes, addInstance. intros H.
  destruct (class t); simpl in H; try discriminate;
    destruct (phetioBrand env); simpl in H; try discriminate;
    rewrite H; simpl;
    destruct (assertions env), (tandemRequiredButNotSupplied t),
      (truthyType type); simpl; intros; try reflexivity; discriminate.
Qed.

Lemma addInstance_Ok env t instance type r r' :
  active env t = true ->
  addInstance env t instance type r = Ok r' ->
  r' = register t instance type r.
Proof.
  intros Hact Hok. pose proof (addInstance_Ok_passes _ _ _ _ _ _ Hact Hok) as Hp.
  rewrite addInstance_active in Hok by assumption. congruence.
Qed.

Lemma register_pending t instance type r :
  static t = true -> launched r = false ->
  launched (register t instance type r) = false
  /\ staticInstances (register t instance type r)
     = staticInstances r ++ [Build_StaticInstance t instance type]
  /\ instanceListeners (register t instance type r) = instanceListeners r
  /\ notified (register t instance type r) = notified r.
Proof.
  intros Hs Hl. unfold register, logMissingType.
  destruct type; simpl; rewrite Hs, Hl; simpl; auto.
Qed.

Lemma register_launched t instance type r :
  launched r = true ->
  launched (register t instance type r) = true
  /\ staticInstances (register t instance type r) = staticInstances r
  /\ instanceListeners (register t instance type r) = instanceListeners r
  /\ notified (register t instance type r)
     = notified r ++ announce (instanceListeners r) t instance type.
Proof.
  intros Hl. unfold register, logMissingType.
  destruct type; simpl; rewrite Hl, andb_false_r; simpl; auto.
Qed.

Lemma addInstances_pending env es : forall r r',
  launched r = false ->
  Forall (pendingEntry env) es ->
  addInstances env es r = Ok r' ->
  launched r' = false
  /\ staticInstances r' = staticInstances r ++ es
  /\ instanceListeners r' = instanceListeners r
  /\ notified r' = notified r
  /\ Forall (fun e => passes env (si_tandem e) (si_type e) = true) es.
Proof.
  induction es as [|e es IH]; intros r r' Hl Hall Hok.
  - simpl in Hok. injection Hok as <-. rewrite app_nil_r. auto.
  - apply Forall_cons_iff in Hall. destruct Hall as [[Hs Hact] Hall].
    cbn [addInstances] in Hok.
    destruct (addInstance env (si_tandem e) (si_instance e) (si_type e) r)
      as [r1|err] eqn:Hadd; [|discriminate].
    cbn [bind] in Hok.
    pose proof (addInstance_Ok_passes _ _ _ _ _ _ Hact Hadd) as Hp.
    apply addInstance_Ok in Hadd; [|assumption]. subst r1.
    destruct (register_pending (si_tandem e) (si_instance e) (si_type e) r Hs Hl)
      as (Hl1 & Hq1 & Hls1 & Hn1).
    destruct (IH _ _ Hl1 Hall Hok) as (Hl' & Hq' & Hls' & Hn' & Hps).
    repeat split.
    + assumption.
    + rewrite Hq', Hq1, <- app_assoc. simpl. destruct e; reflexivity.
    + congruence.
    + congruence.
    + constructor; assumption.
Qed.

Lemma drainStaticInstances_launched env : forall q bound r,
  launched r = true ->
  staticInstances r = q ->
  Forall (fun e => active env (si_tandem e) = true
                   /\ passes env (si_tandem e) (si_type e) = true) q ->
  (length q <= bound)%nat ->
  exists r', drainStaticInstances bound env r = Ok r'
             /\ launched r' = true
             /\ staticInstances r' = []
             /\ instanceListeners r' = instanceListeners r
             /\ notified r' = notified r ++ announceAll (instanceListeners r) q.
Proof.
  induction q as [|e q IH]; intros bound r Hl Hq Hall Hb.
  - exists r. destruct bound; simpl; rewrite Hq; simpl;
      rewrite app_nil_r; auto.
  - destruct bound as [|bound]; [simpl in Hb; lia|].
    apply Forall_cons_iff in Hall. destruct Hall as [[Hact Hp] Hall].
    cbn [drainStaticInstances]. rewrite Hq.
    rewrite addInstance_active by assumption. cbn [bind].
    set (r0 := setStaticInstances q r).
    destruct (register_launched (si_tandem e) (si_instance e) (si_type e) r0 Hl)
      as (Hl1 & Hq1 & Hls1 & Hn1).
    destruct (IH bound _ Hl1 Hq1 Hall ltac:(simpl in Hb; lia))
      as (r' & Hdrain & Hl' & Hq' & Hls' & Hn').
    exists r'. repeat split; try assumption.
    + rewrite Hls', Hls1. reflexivity.
    + rewrite Hn', Hn1, Hls1. unfold announceAll. simpl.
      now rewrite <- app_assoc.
Qed.

(** C3. Static entries registered before launch, in the order given, are
    held back in the pending queue and reach no listener; [launch] then hands
    exactly these entries to the listeners, in that order (for each entry
    one call [addInstance( id, instance, type )] to every listener, the
    listeners in their order of registration), empties the queue and marks
    the registry launched; a second [launch] fails by an assertion; and
    after launch [addInstance] on a static entry goes to the listeners at
    once and leaves the queue empty. *)
Theorem launch_flushes_static_instances_in_order :
  forall (env : Env) (entries : list StaticInstance) (r0 r1 : Registry),
    launched r0 = false ->
    staticInstances r0 = [] ->
    Forall (pendingEntry env) entries ->
    addInstances env entries r0 = Ok r1 ->
    staticInstances r1 = entries
    /\ notified r1 = notified r0
    /\ exists r2,
        launch env r1 = Ok r2
        /\ notified r2
           = notified r0
             ++ flat_map (fun e =>
                            map (fun listener =>
                                   AddInstance listener (id (si_tandem e))
                                               (si_instance e) (si_type e))
                                (instanceListeners r0))
                         entries
        /\ staticInstances r2 = []
        /\ launched r2 = true
        /\ (assertions env = true -> isAssertion (launch env r2))
        /\ (forall t instance type,
               static t = true -> active env t = true -> passes env t type = true ->
               exists r3,
                 addInstance env t instance type r2 = Ok r3
                 /\ staticInstances r3 = []
                 /\ notified r3
                    = notified r2
                      ++ map (fun listener => AddInstance listener (id t) instance type)
                             (instanceListeners r0)).
Proof.
  intros env entries r0 r1 Hl Hq Hall Hadd.
  destruct (addInstances_pending env entries r0 r1 Hl Hall Hadd)
    as (Hl1 & Hq1 & Hls1 & Hn1 & Hps).
  rewrite Hq in Hq1. simpl in Hq1.
  split; [assumption|]. split; [assumption|].
  assert (Hready : Forall (fun e => active env (si_tandem e) = true
                     /\ passes env (si_tandem e) (si_type e) = true) entries).
  { rewrite Forall_forall in *. intros e He.
    split; [apply Hall, He | apply Hps, He]. }
  destruct (drainStaticInstances_launched env entries (length entries)
              (setLaunched true r1) eq_refl Hq1 Hready (Nat.le_refl _))
    as (r2 & Hdrain & Hl2 & Hq2 & Hls2 & Hn2).
  exists r2. split.
  { unfold launch. rewrite Hl1. simpl negb. rewrite assert_true. cbn [bind].
    change (staticInstances (setLaunched true r1)) with (staticInstances r1).
    rewrite Hq1. exact Hdrain. }
  simpl in Hls2, Hn2. rewrite Hls1 in Hls2, Hn2. rewrite Hn1 in Hn2.
  unfold announceAll, announce in Hn2.
  repeat split; try assumption.
  - intros Ha. unfold launch. rewrite Hl2, Ha. simpl. eexists. reflexivity.
  - intros t instance type Hs Hact Hp.
    exists (register t instance type r2).
    split; [now apply addInstance_active|].
    destruct (register_launched t instance type r2 Hl2) as (_ & Hq3 & _ & Hn3).
    split; [congruence|]. rewrite Hn3, Hls2. reflexivity.
Qed.

Lemma launch_flushes_static_instances_in_order_witness :
  let env := {| assertions := true;
                phet := Some {| chipper := Some {| brand := "phet-io" |} |} |} in
  let type := Some {| typeName := "TString" |} in
  let entry name instance :=
    {| si_tandem := mkTandem name true false true PlainTandem;
       si_instance := instance;
       si_type := type |} in
  let entries := [entry "sim.a" 1%nat; entry "sim.b" 2%nat; entry "sim.c" 3%nat] in
  let r0 := addInstanceListener 8%nat (addInstanceListener 9%nat initial) in
  exists r1 r2 r3,
    addInstances env entries r0 = Ok r1
    /\ staticInstances r1 = entries
    /\ notified r1 = []
    /\ launch env r1 = Ok r2
    /\ notified r2
       = [AddInstance 9%nat "sim.a" 1%nat type; AddInstance 8%nat "sim.a" 1%nat type;
          AddInstance 9%nat "sim.b" 2%nat type; AddInstance 8%nat "sim.b" 2%nat type;
          AddInstance 9%nat "sim.c" 3%nat type; AddInstance 8%nat "sim.c" 3%nat type]
    /\ staticInstances r2 = []
    /\ isAssertion (launch env r2)
    /\ addInstance env (si_tandem (entry "sim.d" 4%nat)) 4%nat type r2 = Ok r3
    /\ staticInstances r3 = []
    /\ notified r3
       = notified r2
         ++ [AddInstance 9%nat "sim.d" 4%nat type; AddInstance 8%nat "sim.d" 4%nat type].
Proof.
  intros env type entry entries r0.
  destruct (addInstances env entries r0) as [r1|] eqn:Hadd; [|discriminate].
  destruct (launch_flushes_static_instances_in_order env entries r0 r1)
    as (Hq & Hquiet & r2 & Hlaunch & Hn & Hdrained & _ & Hagain & Hlater).
  - reflexivity.
  - reflexivity.
  - repeat constructor.
  - exact Hadd.
  - destruct (Hlater (si_tandem (entry "sim.d" 4%nat)) 4%nat type)
      as (r3 & Hdirect & Hq3 & Hn3); [reflexivity|reflexivity|reflexivity|].
    exists r1, r2, r3.
    split; [reflexivity|]. split; [exact Hq|]. split; [exact Hquiet|].
    split; [exact Hlaunch|]. split; [exact Hn|]. split; [exact Hdrained|].
    split; [now apply Hagain|]. split; [exact Hdirect|].
    split; [exact Hq3|exact Hn3].
Defined.

(** C7 as stated fails: with the brand phet-io and assertions enabled,
    [removeInstance] on an entry that was never added returns normally; with
    no listener registered nothing happens at all, whatever listeners would
    do, and a registered listener is told to remove the instance. *)
Lemma removeInstance_never_added_returns :
  let env := {| assertions := true;
                phet := Some {| chipper := Some {| brand := "phet-io" |} |} |} in
  let t := new (Some "sim.screen.model") noOptions in
  removeInstance env t 7%nat initial = Ok initial
  /\ removeInstance env t 7%nat (addInstanceListener 0%nat initial)
     = Ok (notify [RemoveInstance 0%nat "sim.screen.model" 7%nat]
                  (addInstanceListener 0%nat initial))
  /\ ~ isAssertion (removeInstance env t 7%nat initial)
  /\ (forall outcome, removeInstanceWith outcome env t 7%nat initial = (initial, Ok tt)).
Proof.
  split; [reflexivity|]. split; [reflexivity|].
  split; [intros [msg H]; discriminate|]. intros outcome. reflexivity.
Qed.

Lemma callListeners_accepted (outcome : Notification -> result unit)
      (calls : list Notification) :
  (forall call, In call calls -> outcome call = Ok tt) ->
  callListeners outcome calls = (calls, Ok tt).
Proof.
  induction calls as [|call rest IH]; intros Hall; cbn [callListeners].
  - reflexivity.
  - rewrite (Hall call) by now left. rewrite IH; [reflexivity|].
    intros c Hc. apply Hall. now right.
Qed.

Lemma callListeners_thrown (outcome : Notification -> result unit)
      (calls : list Notification) (e : error) :
  snd (callListeners outcome calls) = Throw e ->
  exists made call rest,
    calls = made ++ call :: rest
    /\ (forall c, In c made -> outcome c = Ok tt)
    /\ outcome call = Throw e
    /\ fst (callListeners outcome calls) = made ++ [call].
Proof.
  induction calls as [|call rest IH]; cbn [callListeners]; intros Hthrow.
  - discriminate.
  - destruct (outcome call) as [[]|e'] eqn:Hcall.
    + destruct (callListeners outcome rest) as [made r] eqn:Hrest.
      cbn [fst snd] in *.
      destruct (IH Hthrow) as (made' & call' & rest' & Hsplit & Hmade & Hcall' & Hfst).
      exists (call :: made'), call', rest'. repeat split.
      * rewrite Hsplit. reflexivity.
      * intros c [<-|Hc]; [exact Hcall|now apply Hmade].
      * exact Hcall'.
      * rewrite Hfst. reflexivity.
    + cbn [fst snd] in *. injection Hthrow as ->.
      exists [], call, rest. repeat split; [|exact Hcall].
      intros c [].
Qed.

(** With listeners that accept every call, [removeInstanceWith] is
    [removeInstance]. *)
Lemma removeInstanceWith_accepting (env : Env) (t : Tandem) (instance : nat)
      (r : Registry) :
  match removeInstance env t instance r with
  | Ok r' => removeInstanceWith (fun _ => Ok tt) env t instance r = (r', Ok tt)
  | Throw e => removeInstanceWith (fun _ => Ok tt) env t instance r = (r, Throw e)
  end.
Proof.
  unfold removeInstance, removeInstanceWith, retract.
  destruct (class t); try reflexivity;
    (destruct (phet env) as [p|]; [|reflexivity];
     destruct (chipper p) as [c|]; [|reflexivity];
     destruct (_ && _); [|reflexivity];
     rewrite callListeners_accepted by reflexivity; reflexivity).
Qed.

(** C7, amended. [removeInstance] makes no check that the entry was ever
    added and has no assertion of its own. With [phet.chipper] defined, for
    an entry that is not enabled, not of a phet-io build or a supertype
    tandem it calls no listener and returns; for any other entry it calls
    [removeInstance( id, instance )] on the registered listeners in their
    order of registration, whatever was added before, and returns when they
    all do; it fails only where one of these calls fails, with the error of
    that listener and after the calls up to that one. *)
Theorem removeInstance_forwards_to_listeners :
  forall (outcome : Notification -> result unit) (env : Env) (t : Tandem)
         (instance : nat) (r : Registry) (p : Phet) (c : Chipper),
    phet env = Some p ->
    chipper p = Some c ->
    (active env t = false ->
     removeInstanceWith outcome env t instance r = (r, Ok tt))
    /\ (active env t = true ->
        (forall l, In l (instanceListeners r) ->
                   outcome (RemoveInstance l (id t) instance) = Ok tt) ->
        removeInstanceWith outcome env t instance r
        = (notify (map (fun l => RemoveInstance l (id t) instance)
                       (instanceListeners r)) r,
           Ok tt))
    /\ (forall e,
          snd (removeInstanceWith outcome env t instance r) = Throw e ->
          active env t = true
          /\ exists before l after,
              instanceListeners r = before ++ l :: after
              /\ (forall l', In l' before ->
                             outcome (RemoveInstance l' (id t) instance) = Ok tt)
              /\ outcome (RemoveInstance l (id t) instance) = Throw e
              /\ fst (removeInstanceWith outcome env t instance r)
                 = notify (map (fun l' => RemoveInstance l' (id t) instance)
                               (before ++ [l])) r).
Proof.
  intros outcome env t instance r p c Hp Hc.
  assert (Hactive : active env t
                    = match class t with
                      | SupertypeTandem => false
                      | _ => String.eqb (brand c) "phet-io" && enabled t
                      end).
  { unfold active, isSupertype, phetioBrand. rewrite Hp, Hc.
    destruct (class t); reflexivity. }
  assert (Hwith : removeInstanceWith outcome env t instance r
                  = if active env t
                    then let (made, res) :=
                           callListeners outcome
                             (map (fun l => RemoveInstance l (id t) instance)
                                  (instanceListeners r)) in
                         (notify made r, res)
                    else (r, Ok tt)).
  { rewrite Hactive. unfold removeInstanceWith. rewrite Hp, Hc.
    destruct (class t); reflexivity. }
  rewrite Hwith. clear Hwith Hactive.
  split; [|split].
  - intros ->. reflexivity.
  - intros -> Hall. rewrite callListeners_accepted; [reflexivity|].
    intros call Hcall. apply List.in_map_iff in Hcall.
    destruct Hcall as (l & <- & Hl). now apply Hall.
  - intros e. destruct (active env t); [|discriminate].
    destruct (callListeners outcome _) as [made res] eqn:Hcalls.
    cbn [fst snd]. intros ->. split; [reflexivity|].
    destruct (callListeners_thrown outcome _ e ltac:(rewrite Hcalls; reflexivity))
      as (made' & call & rest & Hsplit & Hmade & Hcall & Hfst).
    rewrite Hcalls in Hfst. cbn [fst] in Hfst. subst made.
    apply List.map_eq_app in Hsplit.
    destruct Hsplit as (before & tl & Hlisteners & Hbefore & Htl).
    destruct tl as [|l after]; [discriminate|].
    cbn [map] in Htl. injection Htl as Hl Hafter.
    exists before, l, after. split; [exact Hlisteners|]. split.
    + intros l' Hl'. apply Hmade. rewrite <- Hbefore.
      apply List.in_map_iff. exists l'. split; [reflexivity|exact Hl'].
    + split; [rewrite Hl; exact Hcall|].
      rewrite List.map_app. cbn [map]. rewrite Hbefore, Hl. reflexivity.
Qed.

Lemma removeInstance_forwards_to_listeners_witness :
  let env := {| assertions := true;
                phet := Some {| chipper := Some {| brand := "phet-io" |} |} |} in
  let t := new (Some "sim.screen.model") noOptions in
  let r := addInstanceListener 8%nat (addInstanceListener 9%nat initial) in
  let accepting := fun _ : Notification => Ok tt in
  let rejecting := fun call : Notification =>
                     match call with
                     | RemoveInstance 9%nat _ _ => Throw (AssertionError "unknown instance")
                     | _ => Ok tt
                     end in
  removeInstanceWith accepting env t 7%nat r
  = (notify [RemoveInstance 9%nat "sim.screen.model" 7%nat;
             RemoveInstance 8%nat "sim.screen.model" 7%nat] r,
     Ok tt)
  /\ removeInstanceWith rejecting env t 7%nat r
     = (notify [RemoveInstance 9%nat "sim.screen.model" 7%nat] r,
        Throw (AssertionError "unknown instance")).
Proof.
  intros env t r accepting rejecting.
  destruct (removeInstance_forwards_to_listeners accepting env t 7%nat r
              _ _ eq_refl eq_refl) as (_ & Hforward & _).
  split; [exact (Hforward eq_refl (fun _ _ => eq_refl))|reflexivity].
Defined.

(** C10. [createTandem childName] answers a child whose static and enabled
    flags are those of the parent unless the options give them, and whose
    identifier is [childName] alone when the parent's identifier is empty
    (the parent's identifier, a dot and [childName] otherwise); the child
    name must be non-empty where assertions are enabled. *)
Theorem createTandem_inherits_flags :
  forall (env : Env) (t : Tandem) (childName : string) (options : Options),
    assertions env = false \/ childName <> EmptyString ->
    exists child,
      createTandem env t childName options = Ok child
      /\ static child = default (static t) (o_static options)
      /\ enabled child = default (enabled t) (o_enabled options)
      /\ (id t = EmptyString -> id child = childName)
      /\ (id t <> EmptyString -> id child = id t +:+ "." +:+ childName).
Proof.
  intros env t childName options Hpre.
  unfold createTandem.
  assert (Hassert : assert_ (assertions env) (JsString.len childName >? 0)
                      "id must be defined" = Ok tt).
  { apply assert_Ok. destruct Hpre as [Hoff|Hne]; [now left|right].
    destruct childName; [congruence|].
    apply Z.gtb_lt. unfold JsString.len. simpl. lia. }
  rewrite Hassert. cbn [bind].
  eexists. split; [reflexivity|].
  repeat split.
  - unfold new, extend. simpl. destruct (o_static options); reflexivity.
  - unfold new, extend. simpl. destruct (o_enabled options); reflexivity.
  - intros Hid. rewrite Hid. reflexivity.
  - intros Hid. simpl. destruct (id t) as [|c rest]; [congruence|].
    replace (JsString.len (String c rest) >? 0) with true; [reflexivity|].
    symmetry. apply Z.gtb_lt. unfold JsString.len. simpl. lia.
Qed.

Lemma createTandem_inherits_flags_witness :
  let env := {| assertions := true; phet := None |} in
  let root := new (Some "") (mkOptions (Some true) None (Some false)) in
  exists child,
    createTandem env root "screen" noOptions = Ok child
    /\ static child = true /\ enabled child = false /\ id child = "screen".
Proof.
  intros env root.
  destruct (createTandem_inherits_flags env root "screen" noOptions)
    as (child & Hc & Hs & He & Hid & _).
  - right. discriminate.
  - exists child. repeat split; try assumption. now apply Hid.
Defined.

End TandemFacts.

(** ** Parametric IO types: identity of the synthesized types *)

Section ParametricTypesFacts.
Import ParametricTypes.

Variable validateSubtype : IOType -> bool.
Variable objectIOReadOnly : string -> bool.

Lemma FunctionIO_memoized (a : bool) (returnType : option IOType)
      (functionParameterTypes : list (option IOType)) (st st1 : Store) (t : IOType) :
  FunctionIO validateSubtype a returnType functionParameterTypes st = Ok (t, st1) ->
  FunctionIO validateSubtype a returnType functionParameterTypes st1 = Ok (t, st1).
Proof.
  unfold FunctionIO.
  destruct (assert_ a (forallb isDefined functionParameterTypes) _) as [[]|];
    [|discriminate].
  destruct (assert_ a (isDefined returnType) _) as [[]|]; [|discriminate].
  cbn [bind].
  destruct returnType as [rt|]; [|discriminate].
  destruct (allDefined functionParameterTypes) as [ps|]; [|discriminate].
  destruct (functionCache st !! _) as [cached|] eqn:Hlook.
  - intros [= <- <-]. now rewrite Hlook.
  - destruct (createFunctionIO validateSubtype a rt ps st) as [t'|]; [|discriminate].
    cbn [bind]. intros [= <- <-]. cbn [functionCache].
    now rewrite lookup_insert_eq.
Qed.

Lemma ownProperty_plain (cache : gmap string IOType) (key : string) :
  cache !! "hasOwnProperty" = None ->
  key <> "__proto__" ->
  ownProperty cache key = Ok (cache !! key).
Proof.
  intros Hmethod Hkey. unfold ownProperty. rewrite Hmethod.
  destruct (String.eqb_spec key "__proto__"); [contradiction|reflexivity].
Qed.

Lemma ownProperty_Ok (cache : gmap string IOType) (key : string)
      (own : option IOType) :
  ownProperty cache key = Ok own -> cache !! "hasOwnProperty" = None.
Proof.
  unfold ownProperty. destruct (cache !! "hasOwnProperty"); [discriminate|reflexivity].
Qed.

Lemma assign_Ok (cache cache' : gmap string IOType) (key : string) (t : IOType) :
  assign objectIOReadOnly cache key t = Ok cache' -> cache' = <[key := t]> cache.
Proof.
  unfold assign. destruct (String.eqb key "__proto__"); [congruence|].
  destruct (_ && _); [discriminate|congruence].
Qed.

(** After a call for a type whose name is neither of the two names that a
    plain object treats specially, the type answered is an own property of
    the cache. *)
Lemma PhetioGroupIO_cached (a : bool) (parameterType : IOType)
      (st st1 : Store) (t : IOType) :
  typeName parameterType <> "__proto__" ->
  typeName parameterType <> "hasOwnProperty" ->
  PhetioGroupIO validateSubtype objectIOReadOnly a (Some parameterType) st
  = Ok (t, st1) ->
  ownProperty (groupCache st1) (typeName parameterType) = Ok (Some t).
Proof.
  intros Hproto Hmethod. unfold PhetioGroupIO. cbn [isDefined].
  rewrite assert_true. cbn [bind].
  destruct (ownProperty (groupCache st) (typeName parameterType))
    as [own|] eqn:Hown; [|discriminate].
  pose proof (ownProperty_Ok _ _ _ Hown) as Hnone.
  rewrite (ownProperty_plain _ _ Hnone Hproto) in Hown. injection Hown as <-.
  cbn [bind].
  destruct (groupCache st !! typeName parameterType) as [cached|] eqn:Hlook.
  - intros [= <- <-]. rewrite (ownProperty_plain _ _ Hnone Hproto), Hlook.
    reflexivity.
  - destruct (createPhetioGroupIO validateSubtype a parameterType st) as [t'|];
      [|discriminate].
    cbn [bind].
    destruct (assign objectIOReadOnly (groupCache st) (typeName parameterType) t')
      as [cache'|] eqn:Hassign; [|discriminate].
    apply assign_Ok in Hassign. subst cache'.
    cbn [bind]. intros [= <- <-]. cbn [groupCache].
    rewrite ownProperty_plain;
      [|rewrite lookup_insert_ne by congruence; exact Hnone|exact Hproto].
    rewrite lookup_insert_eq. reflexivity.
Qed.

(** For such a type [PhetioGroupIO] is memoized. *)
Lemma PhetioGroupIO_memoized (a : bool) (parameterType : IOType)
      (st st1 : Store) (t : IOType) :
  typeName parameterType <> "__proto__" ->
  typeName parameterType <> "hasOwnProperty" ->
  PhetioGroupIO validateSubtype objectIOReadOnly a (Some parameterType) st
  = Ok (t, st1) ->
  PhetioGroupIO validateSubtype objectIOReadOnly a (Some parameterType) st1
  = Ok (t, st1).
Proof.
  intros Hproto Hmethod Hfirst.
  pose proof (PhetioGroupIO_cached a parameterType st st1 t Hproto Hmethod Hfirst)
    as Hcached.
  unfold PhetioGroupIO. cbn [isDefined]. rewrite assert_true. cbn [bind].
  rewrite Hcached. reflexivity.
Qed.

(** The cache key of [FunctionIO] contains a ".", so it is neither of the
    two names that a plain object treats specially. *)
Lemma FunctionIO_cacheKey_plain (returnName parameterNames : string) :
  returnName +:+ "." +:+ parameterNames <> "__proto__"
  /\ returnName +:+ "." +:+ parameterNames <> "hasOwnProperty".
Proof.
  assert (Hdot : JsString.hasChar "." (returnName +:+ "." +:+ parameterNames)).
  { apply hasChar_append. right. apply hasChar_append. left.
    unfold JsString.hasChar. simpl. now left. }
  split; intros Heq; rewrite Heq in Hdot; unfold JsString.hasChar in Hdot;
    simpl in Hdot; intuition discriminate.
Qed.

(** A FunctionIO type synthesized on a cache miss is named after its
    parameter types and its return type. *)
Lemma FunctionIO_fresh_name (a : bool) (rt : IOType) (ps : list IOType)
      (st : Store) (t : IOType) :
  createFunctionIO validateSubtype a rt ps st = Ok t ->
  typeName t = "FunctionIO(" +:+ join "," (map typeName ps) +:+ ")=>" +:+ typeName rt
  /\ ref t = nextRef st.
Proof.
  unfold createFunctionIO, checkSubtype.
  destruct (assert_ a _ _) as [[]|]; [|discriminate].
  cbn [bind]. intros [= <-]. split; reflexivity.
Qed.

Lemma PhetioGroupIO_fresh_name (a : bool) (pt : IOType) (st : Store) (t : IOType) :
  createPhetioGroupIO validateSubtype a pt st = Ok t ->
  typeName t = "PhetioGroupIO<" +:+ typeName pt +:+ ">" /\ ref t = nextRef st.
Proof.
  unfold createPhetioGroupIO, checkSubtype.
  destruct (assert_ a _ _) as [[]|]; [|discriminate].
  cbn [bind]. intros [= <-]. split; reflexivity.
Qed.

End ParametricTypesFacts.

(** C2 at ArrayIO. Two calls of [ArrayIO] with the same element type answer
    two different type objects, both named "ArrayIO" whatever the element
    type is: the collection-of factory neither memoizes nor derives the name
    from its parameter. *)
Theorem ArrayIO_not_memoized :
  forall (elementType : option ParametricTypes.IOType) (st : ParametricTypes.Store),
    let first := ParametricTypes.ArrayIO elementType st in
    let second := ParametricTypes.ArrayIO elementType (snd first) in
    ParametricTypes.ref (fst first) <> ParametricTypes.ref (fst second)
    /\ ParametricTypes.typeName (fst first) = "ArrayIO"
    /\ ParametricTypes.typeName (fst second) = "ArrayIO".
Proof.
  intros elementType st. simpl. repeat split. lia.
Qed.

(** ** State objects: round trips of the composite types *)

Section StateObjectsFacts.
Import StateObjects.

Lemma pushEach_round_trip (f g : Value -> result Value) : forall xs out out',
  Forall (fun x => exists s, f x = Ok s /\ g s = Ok x) xs ->
  exists ys,
    pushEach f xs out = Ok (out ++ ys)
    /\ Forall2 (fun x s => f x = Ok s) xs ys
    /\ pushEach g ys out' = Ok (out' ++ xs).
Proof.
  induction xs as [|x xs IH]; intros out out' Hall.
  - exists []. rewrite !app_nil_r. repeat split. constructor.
  - apply Forall_cons_iff in Hall. destruct Hall as [(s & Hf & Hg) Hall].
    destruct (IH (out ++ [s]) (out' ++ [x]) Hall) as (ys & Hto & Hall2 & Hfrom).
    exists (s :: ys). cbn [pushEach]. rewrite Hf, Hg. cbn [bind].
    rewrite Hto, Hfrom, <- !app_assoc. repeat split.
    constructor; assumption.
Qed.

(** C8 as stated fails: [ZeroIO] round-trips, but [NullableIO ZeroIO] writes
    its instance [0] as [null] and reads [null] back as [null]. *)
Lemma NullableIO_round_trip_fails :
  roundTrips ZeroIO
  /\ isValidValue (NullableIO ZeroIO) (VNumber 0) = true
  /\ toStateObject (NullableIO ZeroIO) (VNumber 0) = Ok VNull
  /\ fromStateObject (NullableIO ZeroIO) VNull = Ok VNull
  /\ ~ roundTrips (NullableIO ZeroIO).
Proof.
  split; [|repeat split].
  - intros x Hx. exists VNull. split; [reflexivity|].
    destruct x as [| |b|n|s|l|r]; try discriminate.
    destruct n; try discriminate. reflexivity.
  - intros Hrt. destruct (Hrt (VNumber 0) eq_refl) as (s & Hto & Hfrom).
    simpl in Hto. injection Hto as <-. discriminate.
Qed.

(** C8, amended. For a parameter type [T] that round-trips: [NullableIO T]
    maps [null] to [null] in both directions and otherwise hands the value to
    [T]; it round-trips provided [T] never serializes an instance other than
    [null] to [null]; [ArrayIO T] serializes an array of valid elements
    element by element, keeping length and order, and round-trips. *)
Theorem composite_types_round_trip :
  forall (a : bool) (T : IOType),
    roundTrips T ->
    (toStateObject (NullableIO T) VNull = Ok VNull
     /\ fromStateObject (NullableIO T) VNull = Ok VNull)
    /\ (forall v, v <> VNull ->
          toStateObject (NullableIO T) v = toStateObject T v
          /\ fromStateObject (NullableIO T) v = fromStateObject T v)
    /\ ((forall x, isValidValue T x = true -> x <> VNull ->
                   toStateObject T x <> Ok VNull) ->
        roundTrips (NullableIO T))
    /\ (forall elements,
          forallb (isValidValue T) elements = true ->
          exists json,
            toStateObject (ArrayIO a T) (VArray elements) = Ok (VArray json)
            /\ length json = length elements
            /\ Forall2 (fun x s => toStateObject T x = Ok s) elements json
            /\ fromStateObject (ArrayIO a T) (VArray json) = Ok (VArray elements))
    /\ roundTrips (ArrayIO a T).
Proof.
  intros a T Hrt.
  assert (Harray : forall elements,
             forallb (isValidValue T) elements = true ->
             exists json,
               toStateObject (ArrayIO a T) (VArray elements) = Ok (VArray json)
               /\ length json = length elements
               /\ Forall2 (fun x s => toStateObject T x = Ok s) elements json
               /\ fromStateObject (ArrayIO a T) (VArray json) = Ok (VArray elements)).
  { intros elements Hvalid.
    assert (Hall : Forall (fun x => exists s, toStateObject T x = Ok s
                                   /\ fromStateObject T s = Ok x) elements).
    { apply List.Forall_forall. intros x Hx. apply Hrt.
      rewrite forallb_forall in Hvalid. apply Hvalid, Hx. }
    destruct (pushEach_round_trip (toStateObject T) (fromStateObject T)
                elements [] [] Hall) as (json & Hto & Hall2 & Hfrom).
    exists json. simpl in Hto, Hfrom.
    cbn [ArrayIO toStateObject fromStateObject isArray indexed].
    rewrite assert_true. cbn [bind]. rewrite Hto, Hfrom. cbn [bind].
    repeat split; try assumption.
    symmetry. eapply Forall2_length, Hall2. }
  split; [split; reflexivity|].
  split.
  { intros v Hv. destruct v; try congruence; split; reflexivity. }
  split.
  { intros Hnonnull x Hx.
    destruct x as [| |b|n|s|l|r];
      try (exists VNull; split; reflexivity);
      cbn [NullableIO isValidValue isNull orb] in Hx;
      destruct (Hrt _ Hx) as (so & Hto & Hfrom);
      (exists so; split; [exact Hto|]);
      (destruct so; [exfalso; eapply Hnonnull; eauto; discriminate|..]);
      exact Hfrom. }
  split; [exact Harray|].
  intros x Hx. destruct x as [| |b|n|s|elements|r]; try discriminate.
  destruct (Harray elements Hx) as (json & Hto & _ & _ & Hfrom).
  exists (VArray json). split; assumption.
Qed.

Lemma composite_types_round_trip_witness :
  toStateObject (NullableIO TString) VNull = Ok VNull
  /\ roundTrips (NullableIO TString)
  /\ exists json,
      toStateObject (ArrayIO true TString) (VArray [VString "a"; VString "b"])
        = Ok (VArray json)
      /\ fromStateObject (ArrayIO true TString) (VArray json)
         = Ok (VArray [VString "a"; VString "b"]).
Proof.
  assert (Hrt : roundTrips TString).
  { intros x _. exists x. split; reflexivity. }
  destruct (composite_types_round_trip true TString Hrt)
    as ((Hnull & _) & _ & Hnullable & Harray & _).
  split; [exact Hnull|]. split.
  - apply Hnullable. intros x Hx Hne Hto. simpl in Hto. congruence.
  - destruct (Harray [VString "a"; VString "b"] eq_refl)
      as (json & Hto & _ & _ & Hfrom).
    exists json. split; assumption.
Defined.

End StateObjectsFacts.

(** ** Dynamic groups *)

Section GroupFacts.
Import Group.

Variable Args : Type.
Variable validator : Member Args -> bool.
Variable isDynamicPhetioObject : Member Args -> bool.
Variable env : Env.

Let Member := (Member Args).
Let Group := (Group Args).

Lemma createGroupMember_accepted (index : option Z) (args : Args) (g : Group) :
  accepts validator isDynamicPhetioObject env (candidate g index args) = true ->
  createGroupMember validator isDynamicPhetioObject env index args g
  = Ok (candidate g index args,
        mkGroup Args (prefix g) (array g ++ [candidate g index args])
                (groupElementIndex g) (S (nextRef g))
                (created g ++ [candidate g index args]) (disposed g)).
Proof.
  unfold accepts, createGroupMember, candidate. intros H.
  apply andb_prop in H. destruct H as [Hv Hd].
  assert (H1 : assert_ (assertions env)
                 (validator (mkMember (nextRef g) (componentNameOf (prefix g) index) args))
                 "validation failed" = Ok tt).
  { apply assert_Ok. destruct (assertions env); simpl in Hv; auto. }
  assert (H2 : assert_ (assertions env && PHET_IO_ENABLED env)
                 (isDynamicPhetioObject
                    (mkMember (nextRef g) (componentNameOf (prefix g) index) args))
                 "instance should be an instrumented dynamic PhetioObject" = Ok tt).
  { apply assert_Ok. destruct (assertions env && PHET_IO_ENABLED env);
      simpl in Hd; auto. }
  rewrite H1. cbn [bind]. rewrite H2. reflexivity.
Qed.

Lemma createGroupMember_Ok (index : option Z) (args : Args) (g g' : Group)
      (m : Member) :
  createGroupMember validator isDynamicPhetioObject env index args g = Ok (m, g') ->
  m = candidate g index args
  /\ prefix g' = prefix g
  /\ array g' = array g ++ [m]
  /\ groupElementIndex g' = groupElementIndex g
  /\ nextRef g' = S (nextRef g)
  /\ created g' = created g ++ [m]
  /\ disposed g' = disposed g.
Proof.
  unfold createGroupMember, candidate.
  destruct (assert_ (assertions env) _ _) as [[]|]; [|discriminate].
  cbn [bind].
  destruct (assert_ (assertions env && PHET_IO_ENABLED env) _ _) as [[]|];
    [|discriminate].
  cbn [bind]. intros [= <- <-]. repeat split.
Qed.

Lemma createGroupMember_wellFormed (index : option Z) (args : Args)
      (g g' : Group) (m : Member) :
  wellFormed g ->
  createGroupMember validator isDynamicPhetioObject env index args g = Ok (m, g') ->
  wellFormed g'.
Proof.
  intros [Hnd Hlt] Hok.
  apply createGroupMember_Ok in Hok.
  destruct Hok as (-> & _ & Harr & _ & Hnext & _ & _).
  unfold wellFormed. rewrite Harr, Hnext, List.map_app. simpl. split.
  - apply NoDup_app. split; [assumption|]. split; [|apply NoDup_singleton].
    intros r Hin Hr. apply list_elem_of_singleton in Hr. subst r.
    apply list_elem_of_In, List.in_map_iff in Hin. destruct Hin as (m & Hm & Hin).
    rewrite List.Forall_forall in Hlt.
    specialize (Hlt m Hin). simpl in Hm. lia.
  - apply List.Forall_app. split.
    + eapply List.Forall_impl; [|exact Hlt]. simpl. intros. lia.
    + constructor; [simpl; lia|constructor].
Qed.

Lemma indexOfMember_last (m : Member) : forall (l : list Member) (i : nat),
  NoDup (map m_ref (l ++ [m])) ->
  indexOfMember m (l ++ [m]) i = Some (i + length l)%nat.
Proof.
  induction l as [|x l IH]; intros i Hnd.
  - simpl. rewrite Nat.eqb_refl. f_equal. lia.
  - simpl in Hnd. apply NoDup_cons in Hnd. destruct Hnd as [Hx Hnd].
    simpl. destruct (Nat.eqb_spec (m_ref x) (m_ref m)) as [Heq|_].
    + exfalso. apply Hx. apply list_elem_of_In.
      rewrite List.map_app. apply List.in_app_iff. right.
      simpl. left. symmetry. exact Heq.
    + rewrite IH by assumption. f_equal. lia.
Qed.

Lemma removeAt_last (m : Member) (l : list Member) :
  removeAt (length l) (l ++ [m]) = l.
Proof. induction l as [|x l IH]; simpl; [reflexivity|]. now rewrite IH. Qed.

Lemma disposeGroupMember_last (g : Group) (l : list Member) (m : Member) :
  array g = l ++ [m] ->
  NoDup (map m_ref (l ++ [m])) ->
  disposeGroupMember env m g
  = Ok (mkGroup Args (prefix g) l (groupElementIndex g) (nextRef g)
                (created g) (disposed g ++ [m])).
Proof.
  intros Harr Hnd. unfold disposeGroupMember, arrayRemove.
  rewrite Harr, indexOfMember_last by assumption. simpl.
  now rewrite removeAt_last.
Qed.

Lemma clearLoop_disposes_in_reverse : forall (l : list Member) (bound : nat) (g : Group),
  array g = l ->
  NoDup (map m_ref l) ->
  (length l <= bound)%nat ->
  exists g',
    clearLoop bound env g = Ok g'
    /\ array g' = []
    /\ disposed g' = disposed g ++ rev l
    /\ prefix g' = prefix g
    /\ groupElementIndex g' = groupElementIndex g
    /\ nextRef g' = nextRef g
    /\ created g' = created g.
Proof.
  induction l as [|m l IH] using rev_ind; intros bound g Harr Hnd Hb.
  - exists g. destruct bound; simpl; rewrite Harr; simpl;
      rewrite app_nil_r; repeat split.
  - rewrite List.length_app in Hb. simpl in Hb.
    destruct bound as [|bound]; [lia|].
    cbn [clearLoop]. rewrite Harr, last_snoc.
    rewrite (disposeGroupMember_last g l m Harr Hnd). cbn [bind].
    assert (Hnd' : NoDup (map m_ref l)).
    { rewrite List.map_app in Hnd. apply NoDup_app in Hnd. tauto. }
    destruct (IH bound
                (mkGroup Args (prefix g) l (groupElementIndex g) (nextRef g)
                         (created g) (disposed g ++ [m]))
                eq_refl Hnd' ltac:(lia))
      as (g' & Hloop & Harr' & Hdisp & Hpre & Hidx & Hnext & Hcr).
    exists g'. simpl in *. repeat split; try assumption.
    rewrite Hdisp, List.rev_app_distr, <- app_assoc. reflexivity.
Qed.

Lemma clear_disposes_in_reverse (g : Group) :
  NoDup (map m_ref (array g)) ->
  exists g',
    clear env g = Ok g'
    /\ array g' = []
    /\ disposed g' = disposed g ++ rev (array g)
    /\ groupElementIndex g' = 0
    /\ prefix g' = prefix g
    /\ nextRef g' = nextRef g.
Proof.
  intros Hnd.
  destruct (clearLoop_disposes_in_reverse (array g) (length (array g)) g
              eq_refl Hnd (Nat.le_refl _))
    as (g1 & Hloop & Harr & Hdisp & Hpre & _ & Hnext & _).
  exists (setIndex 0 g1). unfold clear. rewrite Hloop. cbn [bind].
  repeat split; assumption.
Qed.

Lemma createNextMember_Ok (args : Args) (g g' : Group) (m : Member) :
  createNextMember validator isDynamicPhetioObject env args g = Ok (m, g') ->
  m = candidate g (Some (groupElementIndex g)) args
  /\ prefix g' = prefix g
  /\ array g' = array g ++ [m]
  /\ groupElementIndex g' = groupElementIndex g + 1
  /\ nextRef g' = S (nextRef g)
  /\ disposed g' = disposed g.
Proof.
  unfold createNextMember. intros Hok.
  apply createGroupMember_Ok in Hok.
  destruct Hok as (Hm & Hpre & Harr & Hidx & Hnext & _ & Hdisp).
  repeat split; assumption.
Qed.

Lemma namesFrom_S (prefix : string) (i : Z) (n : nat) :
  namesFrom prefix i (S n)
  = componentNameOf prefix (Some i) :: namesFrom prefix (i + 1) n.
Proof.
  unfold namesFrom. cbn [seq map]. rewrite Z.add_0_r. f_equal.
  rewrite <- List.seq_shift, List.map_map.
  apply List.map_ext. intros k. do 2 f_equal. lia.
Qed.

Lemma createNextMembers_Ok : forall (argss : list Args) (g g' : Group)
                                    (ms : list Member),
  wellFormed g ->
  createNextMembers validator isDynamicPhetioObject env argss g = Ok (ms, g') ->
  wellFormed g'
  /\ prefix g' = prefix g
  /\ array g' = array g ++ ms
  /\ groupElementIndex g' = groupElementIndex g + Z.of_nat (length argss)
  /\ disposed g' = disposed g
  /\ map m_name ms = namesFrom (prefix g) (groupElementIndex g) (length argss)
  /\ map m_args ms = argss.
Proof.
  induction argss as [|args argss IH]; intros g g' ms Hwf Hok.
  - simpl in Hok. injection Hok as <- <-. rewrite app_nil_r, Z.add_0_r.
    split; [exact Hwf|]. repeat split.
  - cbn [createNextMembers] in Hok.
    destruct (createNextMember validator isDynamicPhetioObject env args g)
      as [[m g1]|] eqn:Hone; [|discriminate].
    cbn [bind fst snd] in Hok.
    destruct (createNextMembers validator isDynamicPhetioObject env argss g1)
      as [[ms1 g2]|] eqn:Hrest; [|discriminate].
    cbn [bind fst snd] in Hok. injection Hok as <- <-.
    assert (Hwf1 : wellFormed g1).
    { unfold createNextMember in Hone.
      eapply createGroupMember_wellFormed; [|exact Hone]. exact Hwf. }
    apply createNextMember_Ok in Hone.
    destruct Hone as (Hm & Hpre1 & Harr1 & Hidx1 & _ & Hdisp1).
    destruct (IH _ _ _ Hwf1 Hrest)
      as (Hwf2 & Hpre2 & Harr2 & Hidx2 & Hdisp2 & Hnames & Hargs).
    split; [exact Hwf2|]. repeat split.
    + congruence.
    + rewrite Harr2, Harr1, <- app_assoc. reflexivity.
    + rewrite Hidx2, Hidx1. cbn [length]. lia.
    + congruence.
    + cbn [length map]. rewrite namesFrom_S, Hnames, Hpre1, Hidx1.
      f_equal. rewrite Hm. reflexivity.
    + cbn [map]. rewrite Hargs, Hm. reflexivity.
Qed.

Lemma new_wellFormed (prefix : string) : wellFormed (new (Args := Args) prefix).
Proof. split; constructor. Qed.

(** C4. [createNextMember] creates the member named prefix, group separator,
    current counter, and leaves the counter one higher; [clear] disposes the
    live members last-created first and resets the counter to zero; so after
    members are created in a new group, [clear] disposes them in reverse
    order of creation and the next member is again the one of index 0. *)
Theorem createNextMember_and_clear :
  (forall (g : Group) (args : Args),
      accepts validator isDynamicPhetioObject env
              (candidate g (Some (groupElementIndex g)) args) = true ->
      exists m g',
        createNextMember validator isDynamicPhetioObject env args g = Ok (m, g')
        /\ m_name m = prefix g +:+ "_" +:+ JsString.numberToString (groupElementIndex g)
        /\ m_args m = args
        /\ array g' = array g ++ [m]
        /\ groupElementIndex g' = groupElementIndex g + 1)
  /\ (forall g : Group,
         wellFormed g ->
         exists g',
           clear env g = Ok g'
           /\ array g' = []
           /\ disposed g' = disposed g ++ rev (array g)
           /\ groupElementIndex g' = 0)
  /\ (forall (prefix : string) (argss : list Args) (ms : list Member) (g : Group),
         createNextMembers validator isDynamicPhetioObject env argss (new prefix)
         = Ok (ms, g) ->
         array g = ms
         /\ map m_name ms = namesFrom prefix 0 (length argss)
         /\ exists g',
             clear env g = Ok g'
             /\ array g' = []
             /\ disposed g' = rev ms
             /\ groupElementIndex g' = 0
             /\ forall args m g'',
                 createNextMember validator isDynamicPhetioObject env args g'
                 = Ok (m, g'') ->
                 m_name m = prefix +:+ "_0").
Proof.
  split; [|split].
  - intros g args Hacc.
    exists (candidate g (Some (groupElementIndex g)) args). eexists.
    unfold createNextMember.
    change (candidate g (Some (groupElementIndex g)) args)
      with (candidate (setIndex (groupElementIndex g + 1) g)
                      (Some (groupElementIndex g)) args) in Hacc |- *.
    rewrite (createGroupMember_accepted _ _ _ Hacc).
    split; [reflexivity|]. repeat split.
  - intros g [Hnd _].
    destruct (clear_disposes_in_reverse g Hnd)
      as (g' & Hclear & Harr & Hdisp & Hidx & _).
    exists g'. repeat split; assumption.
  - intros pre argss ms g Hok.
    destruct (createNextMembers_Ok argss _ _ _ (new_wellFormed pre) Hok)
      as ([Hnd Hlt] & Hpre & Harr & _ & Hdisp & Hnames & _).
    simpl in Harr, Hdisp, Hnames, Hpre.
    split; [assumption|]. split; [assumption|].
    destruct (clear_disposes_in_reverse g Hnd)
      as (g' & Hclear & Harr' & Hdisp' & Hidx' & Hpre' & _).
    exists g'. repeat split; try assumption.
    + rewrite Hdisp', Hdisp, Harr. reflexivity.
    + intros args m g'' Hnext. apply createNextMember_Ok in Hnext.
      destruct Hnext as (-> & _). unfold candidate, componentNameOf.
      simpl. rewrite Hpre', Hpre, Hidx'. reflexivity.
Qed.

(** What [createCorrespondingGroupMember] does to the counter: it moves only
    when it equals the peer's index. *)
Lemma createCorrespondingGroupMember_Ok (name : string) (i : Z) (args : Args)
      (g g' : Group) (m : Member) :
  indexOfName name = Some i ->
  createCorrespondingGroupMember validator isDynamicPhetioObject env name args g
  = Ok (m, g') ->
  m_name m = componentNameOf (prefix g) (Some i)
  /\ array g' = array g ++ [m]
  /\ groupElementIndex g'
     = if groupElementIndex g =? i then i + 1 else groupElementIndex g.
Proof.
  unfold createCorrespondingGroupMember. intros -> Hok.
  apply createGroupMember_Ok in Hok.
  destruct Hok as (Hm & _ & Harr & Hidx & _).
  destruct (Z.eqb_spec (groupElementIndex g) i) as [Heq|Hne];
    simpl in *; subst; repeat split; try assumption; lia.
Qed.

End GroupFacts.

Lemma createNextMember_and_clear_witness :
  let env := {| Group.assertions := true; Group.PHET_IO_ENABLED := true |} in
  let yes := fun _ : Group.Member Z => true in
  exists m0 m1 g g',
    Group.createNextMembers yes yes env [5; 7] (Group.new "particle")
    = Ok ([m0; m1], g)
    /\ Group.m_name m0 = "particle_0" /\ Group.m_name m1 = "particle_1"
    /\ Group.clear env g = Ok g'
    /\ Group.disposed g' = [m1; m0]
    /\ Group.groupElementIndex g' = 0
    /\ exists m g'',
        Group.createNextMember yes yes env 9 g' = Ok (m, g'')
        /\ Group.m_name m = "particle_0".
Proof.
  intros env yes.
  destruct (createNextMember_and_clear Z yes yes env) as (Hnext & Hclear & Hscenario).
  set (m0 := Group.mkMember 0%nat "particle_0" 5).
  set (m1 := Group.mkMember 1%nat "particle_1" 7).
  set (g := Group.mkGroup Z "particle" [m0; m1] 2 2%nat [m0; m1] []).
  assert (Hcreate : Group.createNextMembers yes yes env [5; 7] (Group.new "particle")
                    = Ok ([m0; m1], g)) by reflexivity.
  destruct (Hscenario "particle" [5; 7] [m0; m1] g Hcreate)
    as (_ & _ & g' & Hcl & _ & Hdisp & Hidx & Hagain).
  destruct (Hclear g) as (g1 & Hcl1 & _ & Hdisp1 & _).
  { split.
    - apply (bool_decide_unpack _). vm_compute. exact I.
    - repeat constructor. }
  assert (g1 = g') by congruence. subst g1.
  destruct (Hnext g' 9 eq_refl) as (m & g'' & Hm & _).
  exists m0, m1, g, g'. repeat split; try assumption.
  exists m, g''. split; [assumption|]. eapply Hagain, Hm.
Defined.

(** C6 at a peer whose index is ahead of the counter. In a new group the
    member created for the peer "electron_5" is "electronNode_5" and the
    counter stays at 0; six calls of [createNextMember] later the group holds
    a second live member named "electronNode_5". *)
Theorem createCorrespondingGroupMember_index_collision :
  let env := {| Group.assertions := true; Group.PHET_IO_ENABLED := true |} in
  let yes := fun _ : Group.Member unit => true in
  exists m g1 ms g2,
    Group.createCorrespondingGroupMember yes yes env "electron_5" tt
      (Group.new "electronNode") = Ok (m, g1)
    /\ Group.m_name m = "electronNode_5"
    /\ Group.groupElementIndex g1 = 0
    /\ Group.createNextMembers yes yes env (repeat tt 6) g1 = Ok (ms, g2)
    /\ map (fun m => (Group.m_ref m, Group.m_name m)) (Group.array g2)
       = [(0%nat, "electronNode_5"); (1%nat, "electronNode_0");
          (2%nat, "electronNode_1"); (3%nat, "electronNode_2");
          (4%nat, "electronNode_3"); (5%nat, "electronNode_4");
          (6%nat, "electronNode_5")].
Proof.
  intros env yes. do 4 eexists.
  split; [vm_compute; reflexivity|].
  split; [reflexivity|]. split; [reflexivity|].
  split; [vm_compute; reflexivity|]. vm_compute. reflexivity.
Qed.

(** ** The event stack of a PhetioObject *)

Section PhetioObjectFacts.
Import PhetioObject.

Variable Sink : Type.
Variable Event : Type.
Variable dataStream_start : Event -> Sink -> result (Z * Sink).
Variable dataStream_end : option Z -> Sink -> result Sink.

Lemma phetioEndEvent_pops (env : Env) (o : PhetioObject) (s : Sink) :
  fst (phetioEndEvent dataStream_end env o s)
  = setStack (removelast (phetioMessageStack o)) o.
Proof.
  unfold phetioEndEvent. destruct (decide _); [reflexivity|].
  destruct (isPhetioInstrumented env o); reflexivity.
Qed.

(** An object that is not instrumented never reaches the data stream: its
    [phetioEndEvent] returns normally, also on an empty stack. *)
Lemma phetioEndEvent_uninstrumented (env : Env) (o : PhetioObject) (s : Sink) :
  isPhetioInstrumented env o = false ->
  snd (phetioEndEvent dataStream_end env o s) = Ok s.
Proof.
  intros Hno. unfold phetioEndEvent. destruct (decide _); [reflexivity|].
  rewrite Hno. reflexivity.
Qed.

(** A start that pushed a frame followed by an end leaves the stack as it
    was. *)
Lemma phetioStartEvent_then_phetioEndEvent (env : Env) (o o1 : PhetioObject)
      (event : Event) (s s1 : Sink) :
  phetioStartEvent dataStream_start env o event s = Ok (o1, s1) ->
  skipsHighFrequency env o = true \/ isPhetioInstrumented env o = true ->
  phetioMessageStack (fst (phetioEndEvent dataStream_end env o1 s1))
  = phetioMessageStack o.
Proof.
  intros Hstart Hpush. rewrite phetioEndEvent_pops. cbn [setStack phetioMessageStack].
  unfold phetioStartEvent in Hstart.
  destruct (assert_ _ _ _) as [[]|]; [|discriminate]. cbn [bind] in Hstart.
  destruct (skipsHighFrequency env o).
  - injection Hstart as <- <-. simpl. apply removelast_last.
  - destruct Hpush as [Hskip|Hinst]; [discriminate|]. rewrite Hinst in Hstart.
    destruct (dataStream_start event s) as [[i s']|]; [|discriminate].
    cbn [bind fst snd] in Hstart. injection Hstart as <- <-.
    simpl. apply removelast_last.
Qed.



End PhetioObjectFacts.


(** ** More on identifiers *)

Section MoreIdentifierFacts.
Import JsString PhetioIDUtils.

Abbreviation dot := ("."%char) (only parsing).
Abbreviation underscore := ("_"%char) (only parsing).

Lemma append_Ok_joinPath (a : bool) : forall (cs : list string) (p : string),
  Forall noDot cs -> append a p cs = Ok (joinPath p cs).
Proof.
  induction cs as [|c cs IH]; intros p Hall; [reflexivity|].
  apply Forall_cons_iff in Hall. destruct Hall as [Hc Hall].
  cbn [append]. change SEPARATOR with (char dot) at 1.
  rewrite (proj2 (indexOf_absent_iff dot c) Hc), Z.eqb_refl, assert_true.
  cbn [bind]. apply IH, Hall.
Qed.

(** X1. Appending a list of component names in one call is appending its
    first part and then the rest to what that gave; and when no name contains
    the separator the call succeeds with the names joined by separators. *)
Theorem append_composes :
  (forall (a : bool) (p : string) (cs1 cs2 : list string),
      append a p (cs1 ++ cs2)
      = do id <- append a p cs1; append a id cs2)
  /\ (forall (a : bool) (p : string) (cs : list string),
         Forall noDot cs -> append a p cs = Ok (joinPath p cs)).
Proof.
  split.
  - intros a p cs1. revert p. induction cs1 as [|c cs1 IH]; intros p cs2.
    + reflexivity.
    + cbn [app append].
      destruct (assert_ a _ _) as [[]|e]; [|reflexivity].
      cbn [bind]. apply IH.
  - intros a p cs. apply append_Ok_joinPath.
Qed.

Lemma append_composes_witness :
  append true "sim" (["screen"] ++ ["model"; "electron"])
  = (do id <- append true "sim" ["screen"]; append true id ["model"; "electron"])
  /\ append true "sim" ["screen"; "model"] = Ok "sim.screen.model".
Proof.
  split.
  - exact (proj1 append_composes true "sim" ["screen"] ["model"; "electron"]).
  - apply (proj2 append_composes true "sim" ["screen"; "model"]).
    repeat constructor; unfold noDot, hasChar; vm_compute; intuition discriminate.
Defined.

(** An identifier with a separator splits at its last separator. *)
Lemma split_at_last (ch : ascii) (s : string) :
  hasChar ch s ->
  exists p c, s = p +:+ String ch c /\ ~ hasChar ch c.
Proof.
  induction s as [|x s IH]; intros Hin; [destruct Hin|].
  destruct (in_dec Ascii.ascii_dec ch (list_ascii_of_string s)) as [Hs|Hs].
  - destruct (IH Hs) as (p & c & -> & Hc).
    exists (String x p), c. split; [reflexivity|assumption].
  - apply hasChar_String in Hin. destruct Hin as [->|Hin]; [|contradiction].
    exists EmptyString, s. split; [reflexivity|exact Hs].
Qed.

(** X2. An identifier that contains a separator is put together again from
    its two parts: [getParentID] and [getComponentName] succeed, the
    component name has no separator, and appending it to the parent gives
    the identifier back. *)
Theorem getParentID_getComponentName_recompose :
  forall (a : bool) (id : string),
    hasChar dot id ->
    exists p c,
      getParentID a id = Ok p
      /\ getComponentName a id = Ok c
      /\ ~ hasChar dot c
      /\ append a p [c] = Ok id.
Proof.
  intros a id Hin.
  destruct (split_at_last dot id Hin) as (p & c & -> & Hc).
  exists p, c.
  change (p +:+ String dot c) with (p +:+ SEPARATOR +:+ c).
  split; [now apply getParentID_appended|].
  split; [now apply getComponentName_appended|].
  split; [assumption|]. now apply append_one.
Qed.

Lemma getParentID_getComponentName_recompose_witness :
  exists p c,
    getParentID true "sim.screen.electron_3" = Ok p
    /\ getComponentName true "sim.screen.electron_3" = Ok c
    /\ append true p [c] = Ok "sim.screen.electron_3".
Proof.
  destruct (getParentID_getComponentName_recompose true "sim.screen.electron_3")
    as (p & c & Hp & Hc & _ & Happ).
  - unfold hasChar. vm_compute. tauto.
  - exists p, c. repeat split; assumption.
Defined.

(** X3. Whatever identifier it is given, the component name that
    [getComponentName] answers contains no separator. *)
Theorem getComponentName_has_no_separator :
  forall (a : bool) (id c : string),
    getComponentName a id = Ok c -> ~ hasChar dot c.
Proof.
  intros a id c Hok.
  destruct (in_dec Ascii.ascii_dec dot (list_ascii_of_string id)) as [Hin|Hno].
  - destruct (split_at_last dot id Hin) as (p & c' & -> & Hc).
    change (p +:+ String dot c') with (p +:+ SEPARATOR +:+ c') in Hok.
    rewrite getComponentName_appended in Hok by assumption.
    injection Hok as <-. exact Hc.
  - unfold getComponentName in Hok.
    destruct (assert_ a _ _) as [[]|]; [|discriminate]. cbn [bind] in Hok.
    change SEPARATOR with (char dot) in Hok.
    rewrite (proj2 (lastIndexOf_absent_iff dot id) Hno) in Hok.
    rewrite Z.eqb_refl in Hok. injection Hok as <-. exact Hno.
Qed.

Lemma getComponentName_has_no_separator_witness :
  ~ hasChar dot "myComboBox".
Proof.
  apply (getComponentName_has_no_separator true
           "myScreen.myControlPanel.myComboBox" "myComboBox").
  reflexivity.
Defined.

Lemma isDynamicElement_hasChar (id : string) :
  isDynamicElement id = true <-> hasChar underscore id.
Proof.
  unfold isDynamicElement, indexOf.
  change GROUP_SEPARATOR with (char underscore).
  split.
  - intros H. apply Z.geb_le in H.
    destruct (in_dec Ascii.ascii_dec underscore (list_ascii_of_string id))
      as [Hin|Hno]; [exact Hin|].
    rewrite (indexOfFrom_absent underscore id 0 Hno) in H. lia.
  - intros Hin. apply Z.geb_le.
    apply (indexOfFrom_present underscore id 0 Hin).
Qed.

(** X4. An appended identifier is dynamic exactly when the parent or one of
    the appended component names is: every identifier below a dynamic
    element is itself reported as dynamic. *)
Theorem isDynamicElement_append :
  forall (a : bool) (p : string) (cs : list string) (id : string),
    append a p cs = Ok id ->
    isDynamicElement id = isDynamicElement p || existsb isDynamicElement cs.
Proof.
  intros a p cs. revert p. induction cs as [|c cs IH]; intros p id Hok.
  - simpl in Hok. injection Hok as <-. simpl. now rewrite orb_false_r.
  - cbn [append] in Hok.
    destruct (assert_ a _ _) as [[]|]; [|discriminate]. cbn [bind] in Hok.
    rewrite (IH _ _ Hok). cbn [existsb]. rewrite orb_assoc. f_equal.
    apply eq_true_iff_eq. rewrite orb_true_iff, !isDynamicElement_hasChar.
    change (p +:+ SEPARATOR +:+ c) with (p +:+ String dot c).
    rewrite hasChar_append, hasChar_String.
    split; [intros [H|[H|H]]|intros [H|H]]; auto; discriminate.
Qed.

Lemma isDynamicElement_append_witness :
  isDynamicElement "sim.screen.electron_3.chargeProperty"
  = isDynamicElement "sim.screen.electron_3"
    || existsb isDynamicElement ["chargeProperty"].
Proof.
  exact (isDynamicElement_append true "sim.screen.electron_3"
           ["chargeProperty"] _ eq_refl).
Defined.

Lemma joinPath_snoc (p : string) (cs : list string) (c : string) :
  joinPath p (cs ++ [c]) = joinPath p cs +:+ SEPARATOR +:+ c.
Proof. unfold joinPath. now rewrite fold_left_app. Qed.

Lemma ancestor_joinPath (a : bool) : forall (cs : list string) (p : string),
  Forall noDot cs -> ancestor a (length cs) (joinPath p cs) = Ok p.
Proof.
  induction cs as [|c cs IH] using rev_ind; intros p Hall; [reflexivity|].
  apply List.Forall_app in Hall. destruct Hall as [Hall Hc].
  apply Forall_cons_iff in Hc. destruct Hc as [Hc _].
  rewrite List.length_app, Nat.add_comm. cbn [length Nat.add ancestor].
  rewrite joinPath_snoc, getParentID_appended by assumption.
  cbn [bind]. apply IH, Hall.
Qed.

(** X5. Every identifier [getGeneralID] answers for component names without
    separator lies under the "general" child of the simulation: going up one
    parent per component name arrives at the simulation name followed by
    ".general", and one step more at the simulation name. *)
Theorem getGeneralID_under_general :
  forall (a : bool) (simulationName : string) (cs : list string),
    Forall noDot cs ->
    exists id,
      getGeneralID a simulationName cs = Ok id
      /\ ancestor a (length cs) id = Ok (simulationName +:+ ".general")
      /\ ancestor a (S (length cs)) id = Ok simulationName.
Proof.
  intros a sim cs Hall.
  assert (Hgeneral : noDot "general").
  { unfold noDot, hasChar. vm_compute. intuition discriminate. }
  exists (joinPath sim ("general" :: cs)).
  split; [apply append_Ok_joinPath; constructor; assumption|].
  split.
  - change (joinPath sim ("general" :: cs))
      with (joinPath (sim +:+ SEPARATOR +:+ "general") cs).
    now apply ancestor_joinPath.
  - apply (ancestor_joinPath a ("general" :: cs) sim). constructor; assumption.
Qed.

Lemma getGeneralID_under_general_witness :
  exists id,
    getGeneralID true "faradaysLaw" ["view"; "navigationBar"] = Ok id
    /\ ancestor true 2 id = Ok "faradaysLaw.general".
Proof.
  destruct (getGeneralID_under_general true "faradaysLaw" ["view"; "navigationBar"])
    as (id & Hid & Hup & _).
  - repeat constructor; unfold noDot, hasChar; vm_compute; intuition discriminate.
  - exists id. split; assumption.
Defined.

End MoreIdentifierFacts.

(** ** More on the registry *)

Lemma numberToString_inj (n m : Z) :
  JsString.numberToString n = JsString.numberToString m -> n = m.
Proof.
  unfold JsString.numberToString. intros H.
  assert (Hnil : forall z, Z.to_int z <> Decimal.Pos Decimal.Nil
                           /\ Z.to_int z <> Decimal.Neg Decimal.Nil).
  { intros z. split; intros Hz;
      pose proof (DecimalZ.of_to z) as Hof; rewrite Hz in Hof;
      simpl in Hof; subst z; discriminate. }
  destruct (Hnil n) as [Hn1 Hn2]. destruct (Hnil m) as [Hm1 Hm2].
  pose proof (NilZero.isi _ Hn1 Hn2) as Hin.
  pose proof (NilZero.isi _ Hm1 Hm2) as Him.
  rewrite H in Hin. rewrite Hin in Him. injection Him as Heq.
  now apply DecimalZ.to_int_inj.
Qed.

Lemma append_inj_r (p s1 s2 : string) : p +:+ s1 = p +:+ s2 -> s1 = s2.
Proof.
  induction p as [|c p IH]; [tauto|].
  rewrite !append_String. intros [= H]. auto.
Qed.

Section MoreTandemFacts.
Import Tandem.

Abbreviation dot := ("."%char) (only parsing).

Lemma has_dot_indexOf (p c : string) :
  (JsString.indexOf (p +:+ "." +:+ c) "." >=? 0) = true.
Proof.
  apply Z.geb_le. unfold JsString.indexOf.
  apply (indexOfFrom_present dot (p +:+ "." +:+ c) 0).
  apply hasChar_append. right. apply hasChar_String. now left.
Qed.

Lemma nonempty_len (s : string) : s <> EmptyString -> (JsString.len s >? 0) = true.
Proof.
  destruct s; [congruence|]. intros _. apply Z.gtb_lt.
  unfold JsString.len. simpl. lia.
Qed.

Lemma createTandem_id (env : Env) (t : Tandem) (name : string) (options : Options)
      (child : Tandem) :
  createTandem env t name options = Ok child ->
  id child = (if JsString.len (id t) >? 0 then id t +:+ "." +:+ name else name)
  /\ static child = default (static t) (o_static options)
  /\ enabled child = default (enabled t) (o_enabled options)
  /\ tandemRequiredButNotSupplied child
     = default false (o_tandemRequiredButNotSupplied options)
  /\ class child = PlainTandem.
Proof.
  unfold createTandem.
  destruct (assert_ _ _ _) as [[]|]; [|discriminate]. cbn [bind].
  intros [= <-]. unfold new, extend. simpl.
  destruct (o_static options), (o_enabled options),
    (o_tandemRequiredButNotSupplied options); repeat split.
Qed.

Lemma createTandem_succeeds (env : Env) (t : Tandem) (name : string)
      (options : Options) :
  name <> EmptyString -> exists child, createTandem env t name options = Ok child.
Proof.
  intros Hne. unfold createTandem.
  rewrite (nonempty_len name Hne), assert_true. cbn [bind]. eexists. reflexivity.
Qed.

(** X6. A child made by [createTandem] under a parent with a non-empty
    identifier, from a non-empty name without separator, has that name as its
    [tail], and its [parentTandem] carries the parent's identifier with the
    flags of the child (not those of the parent); under the root tandem with
    the empty identifier the child has no separator, and [tail] and
    [parentTandem] fail by an assertion. *)
Theorem createTandem_tail_parentTandem :
  forall (env : Env) (t : Tandem) (name : string) (options : Options),
    name <> EmptyString ->
    PhetioIDUtils.noDot name ->
    exists child,
      createTandem env t name options = Ok child
      /\ (id t <> EmptyString ->
          tail env child = Ok name
          /\ exists p,
              parentTandem env child = Ok p
              /\ id p = id t
              /\ static p = static child
              /\ enabled p = enabled child
              /\ tandemRequiredButNotSupplied p = tandemRequiredButNotSupplied child)
      /\ (id t = EmptyString -> assertions env = true ->
          isAssertion (tail env child) /\ isAssertion (parentTandem env child)).
Proof.
  intros env t name options Hne Hnodot.
  destruct (createTandem_succeeds env t name options Hne) as (child & Hchild).
  exists child. split; [assumption|].
  destruct (createTandem_id _ _ _ _ _ Hchild) as (Hid & _).
  destruct child as [cid cstatic crequired cenabled cclass].
  cbn [id] in Hid. subst cid.
  split.
  - intros Hpid. rewrite (nonempty_len _ Hpid).
    pose proof (lastIndexOf_appended (id t) name Hnodot) as Hlast.
    change PhetioIDUtils.SEPARATOR with "." in Hlast.
    split.
    + unfold tail. cbn [id assertions].
      rewrite Hlast, has_dot_indexOf, assert_true. cbn [bind].
      assert (Htail : JsString.substring (id t +:+ "." +:+ name)
                        (JsString.len (id t) + 1)
                        (JsString.len (id t +:+ "." +:+ name)) = name).
      { rewrite <- (append_assoc (id t) "." name).
        replace (JsString.len (id t) + 1) with (JsString.len (id t +:+ "."))
          by (rewrite len_append; reflexivity).
        apply js_substring_tail. }
      rewrite Htail, (nonempty_len name Hne), assert_true. reflexivity.
    + unfold parentTandem. cbn [id assertions].
      rewrite Hlast, has_dot_indexOf, assert_true. cbn [bind].
      eexists. split; [reflexivity|].
      unfold new, extend. simpl. repeat split.
      apply js_substring_head.
  - intros Hpid Ha. rewrite Hpid. simpl.
    assert (Hidx : (JsString.indexOf name "." >=? 0) = false).
    { unfold JsString.indexOf.
      pose proof (indexOfFrom_absent dot name 0 Hnodot) as Habsent.
      unfold JsString.char in Habsent. rewrite Habsent. reflexivity. }
    unfold tail, parentTandem. cbn [id]. rewrite Hidx, Ha.
    split; eexists; reflexivity.
Qed.

Lemma createTandem_tail_parentTandem_witness :
  let env := {| assertions := true; phet := None |} in
  let screen := new (Some "sim.screen") (mkOptions (Some true) None None) in
  exists child p,
    createTandem env screen "model" (mkOptions (Some false) None None) = Ok child
    /\ tail env child = Ok "model"
    /\ parentTandem env child = Ok p
    /\ id p = "sim.screen" /\ static p = false.
Proof.
  intros env screen.
  destruct (createTandem_tail_parentTandem env screen "model"
              (mkOptions (Some false) None None))
    as (child & Hchild & Hsub & _).
  - discriminate.
  - unfold PhetioIDUtils.noDot, JsString.hasChar. vm_compute. intuition discriminate.
  - destruct Hsub as (Htail & p & Hp & Hid & Hs & _); [discriminate|].
    exists child, p. repeat split; try assumption.
    rewrite Hs. destruct (createTandem_id _ _ _ _ _ Hchild) as (_ & -> & _).
    reflexivity.
Defined.

Lemma createNextTandems_spec : forall (n : nat) (g : GroupTandemObject),
  let (ts, g') := createNextTandems n g in
  map id ts
  = map (fun k => id (gt_tandem g) +:+ "_"
                  +:+ JsString.numberToString (groupElementIndex g + Z.of_nat k))
        (seq 0 n)
  /\ Forall (fun t => static t = false /\ enabled t = true
                       /\ tandemRequiredButNotSupplied t = false
                       /\ class t = PlainTandem) ts
  /\ gt_tandem g' = gt_tandem g
  /\ groupElementIndex g' = groupElementIndex g + Z.of_nat n.
Proof.
  induction n as [|n IH]; intros g.
  - simpl. rewrite Z.add_0_r. repeat split. constructor.
  - cbn [createNextTandems]. unfold createNextTandem at 1.
    specialize (IH (mkGroupTandem (gt_tandem g) (groupElementIndex g + 1))).
    destruct (createNextTandems n _) as [ts g'].
    destruct IH as (Hids & Hflags & Htandem & Hidx).
    cbn [gt_tandem groupElementIndex] in *.
    repeat split.
    + cbn [seq map]. rewrite Z.add_0_r. f_equal.
      rewrite Hids, <- List.seq_shift, List.map_map.
      apply List.map_ext. intros k. do 3 f_equal. lia.
    + constructor; [repeat split|assumption].
    + assumption.
    + rewrite Hidx. lia.
Qed.

(** X7. The tandems answered by successive calls of [createNextTandem] on a
    new group tandem are named with the group identifier, the group
    separator and 0, 1, 2, ...; their identifiers are pairwise different; and
    each is a plain tandem with the default flags, whatever the flags of the
    tandem that created the group. *)
Theorem createNextTandem_identifiers :
  forall (t : Tandem) (groupId : string) (n : nat),
    let (ts, g') := createNextTandems n (createGroupTandem t groupId) in
    map id ts
    = map (fun k => id t +:+ "." +:+ groupId +:+ "_"
                    +:+ JsString.numberToString (Z.of_nat k)) (seq 0 n)
    /\ NoDup (map id ts)
    /\ Forall (fun c => static c = false /\ enabled c = true
                         /\ tandemRequiredButNotSupplied c = false
                         /\ class c = PlainTandem) ts
    /\ groupElementIndex g' = Z.of_nat n.
Proof.
  intros t groupId n.
  pose proof (createNextTandems_spec n (createGroupTandem t groupId)) as H.
  destruct (createNextTandems n (createGroupTandem t groupId)) as [ts g'].
  destruct H as (Hids & Hflags & _ & Hidx).
  cbn [createGroupTandem gt_tandem groupElementIndex new id] in Hids, Hidx.
  assert (Hnames : map id ts
            = map (fun k => id t +:+ "." +:+ groupId +:+ "_"
                            +:+ JsString.numberToString (Z.of_nat k)) (seq 0 n)).
  { rewrite Hids. apply List.map_ext. intros k.
    rewrite append_assoc, append_assoc. reflexivity. }
  split; [exact Hnames|]. split; [|split; [exact Hflags|exact Hidx]].
  rewrite Hnames.
  apply (NoDup_fmap_2_strong _ (seq 0 n)); [|apply NoDup_seq].
  intros x y _ _ Heq.
  do 4 apply append_inj_r in Heq.
  apply numberToString_inj in Heq. lia.
Qed.

(** X8. The tandem of [Tandem.tandemRequired()] cannot be used in a phet-io
    build with assertions: [addInstance] and [validateOptions] both fail on
    it by an assertion, whatever the registry holds; in any other brand
    [addInstance] on it leaves the registry alone. *)
Theorem tandemRequired_is_rejected :
  forall (env : Env) (simName : string),
    exists t,
      tandemRequired env simName = Ok t
      /\ id t = (if JsString.len simName >? 0
                 then simName +:+ ".requiredTandem" else "requiredTandem")
      /\ (phetioBrand env = true -> assertions env = true ->
          (forall instance type r, isAssertion (addInstance env t instance type r))
          /\ isAssertion (validateOptions env true (Some t)))
      /\ (phetioBrand env = false ->
          forall instance type r, addInstance env t instance type r = Ok r).
Proof.
  intros env simName. unfold tandemRequired, createTandem.
  rewrite assert_true. cbn [bind]. eexists. split; [reflexivity|].
  split; [reflexivity|]. split.
  - intros Hbrand Ha. split.
    + intros instance type r. unfold addInstance. simpl.
      rewrite Hbrand, Ha. simpl. eexists. reflexivity.
    + unfold validateOptions. rewrite Hbrand, Ha. simpl. eexists. reflexivity.
  - intros Hbrand instance type r. unfold addInstance. simpl.
    rewrite Hbrand. reflexivity.
Qed.

Lemma tandemRequired_is_rejected_witness :
  let env := {| assertions := true;
                phet := Some {| chipper := Some {| brand := "phet-io" |} |} |} in
  exists t,
    tandemRequired env "faradaysLaw" = Ok t
    /\ isAssertion (addInstance env t 1%nat (Some {| typeName := "TNode" |}) initial)
    /\ isAssertion (validateOptions env true (Some t)).
Proof.
  intros env.
  destruct (tandemRequired_is_rejected env "faradaysLaw") as (t & Ht & _ & Hio & _).
  destruct (Hio eq_refl eq_refl) as (Hadd & Hval).
  exists t. split; [assumption|]. split; [apply Hadd|assumption].
Defined.

(** X9. Where [window.phet] (or [phet.chipper]) is not defined, [addInstance]
    returns without touching the registry, but [removeInstance], which reads
    [phet.chipper.brand] unguarded, throws (a ReferenceError, or a TypeError
    when only [chipper] is missing) unless the tandem is a supertype tandem. *)
Theorem removeInstance_throws_without_phet :
  forall (env : Env) (t : Tandem) (instance : nat) (type : option IOType)
         (r : Registry),
    (phet env = None ->
     addInstance env t instance type r = Ok r
     /\ removeInstance env t instance r
        = if isSupertype t then Ok r else Throw ReferenceError)
    /\ (forall p, phet env = Some p -> chipper p = None ->
        addInstance env t instance type r = Ok r
        /\ removeInstance env t instance r
           = if isSupertype t then Ok r else Throw TypeError).
Proof.
  intros env t instance type r. split.
  - intros Hphet. split.
    + apply addInstance_inactive. unfold active, phetioBrand. rewrite Hphet.
      now rewrite andb_false_r.
    + unfold removeInstance, isSupertype. rewrite Hphet.
      destruct (class t); reflexivity.
  - intros p Hphet Hchipper. split.
    + apply addInstance_inactive. unfold active, phetioBrand.
      rewrite Hphet, Hchipper. now rewrite andb_false_r.
    + unfold removeInstance, isSupertype. rewrite Hphet, Hchipper.
      destruct (class t); reflexivity.
Qed.

Lemma removeInstance_throws_without_phet_witness :
  let env := {| assertions := true; phet := None |} in
  let t := new (Some "sim.screen.model") noOptions in
  addInstance env t 7%nat (Some {| typeName := "TNode" |}) initial = Ok initial
  /\ removeInstance env t 7%nat initial = Throw ReferenceError.
Proof.
  intros env t.
  exact (proj1 (removeInstance_throws_without_phet env t 7%nat
                  (Some {| typeName := "TNode" |}) initial) eq_refl).
Defined.

Lemma pending_ready (env : Env) (entries : list StaticInstance) :
  Forall (pendingEntry env) entries ->
  Forall (fun e => passes env (si_tandem e) (si_type e) = true) entries ->
  Forall (fun e => active env (si_tandem e) = true
                   /\ passes env (si_tandem e) (si_type e) = true) entries.
Proof.
  rewrite !List.Forall_forall. intros Hall Hps e He.
  split; [apply Hall, He | apply Hps, He].
Qed.

(** X10. A listener registered after static entries were queued, but before
    launch, is told about every queued entry at launch: the entries go out in
    the order in which they were queued, and each entry goes to the listeners
    registered earlier, in their order of registration, and then to the new
    listener. *)
Theorem launch_reaches_listener_added_before_launch :
  forall (env : Env) (entries : list StaticInstance) (r0 r1 : Registry)
         (listener : nat),
    launched r0 = false ->
    staticInstances r0 = [] ->
    Forall (pendingEntry env) entries ->
    addInstances env entries r0 = Ok r1 ->
    exists r2,
      launch env (addInstanceListener listener r1) = Ok r2
      /\ notified r2
         = notified r0
           ++ flat_map (fun e =>
                          map (fun l => AddInstance l (id (si_tandem e))
                                                    (si_instance e) (si_type e))
                              (instanceListeners r0 ++ [listener]))
                       entries
      /\ staticInstances r2 = [].
Proof.
  intros env entries r0 r1 listener Hl Hq Hall Hadd.
  destruct (addInstances_pending env entries r0 r1 Hl Hall Hadd)
    as (Hl1 & Hq1 & Hls1 & Hn1 & Hps).
  rewrite Hq in Hq1. simpl in Hq1.
  destruct (drainStaticInstances_launched env entries (length entries)
              (setLaunched true (addInstanceListener listener r1))
              eq_refl Hq1 (pending_ready env entries Hall Hps) (Nat.le_refl _))
    as (r2 & Hdrain & _ & Hq2 & _ & Hn2).
  exists r2. split.
  - unfold launch. cbn [launched addInstanceListener]. rewrite Hl1.
    simpl negb. rewrite assert_true. cbn [bind].
    change (staticInstances (setLaunched true (addInstanceListener listener r1)))
      with (staticInstances r1).
    rewrite Hq1. exact Hdrain.
  - split; [|assumption]. simpl in Hn2. rewrite Hn2, Hn1, Hls1. reflexivity.
Qed.

Lemma launch_reaches_listener_added_before_launch_witness :
  let env := {| assertions := true;
                phet := Some {| chipper := Some {| brand := "phet-io" |} |} |} in
  let type := Some {| typeName := "TSolute" |} in
  let entry name instance :=
    {| si_tandem := mkTandem name true false true PlainTandem;
       si_instance := instance;
       si_type := type |} in
  let entries := [entry "sim.solute" 1%nat; entry "sim.solvent" 2%nat] in
  let r0 := addInstanceListener 7%nat (addInstanceListener 9%nat initial) in
  exists r1 r2,
    addInstances env entries r0 = Ok r1
    /\ launch env (addInstanceListener 5%nat r1) = Ok r2
    /\ notified r2
       = [AddInstance 9%nat "sim.solute" 1%nat type;
          AddInstance 7%nat "sim.solute" 1%nat type;
          AddInstance 5%nat "sim.solute" 1%nat type;
          AddInstance 9%nat "sim.solvent" 2%nat type;
          AddInstance 7%nat "sim.solvent" 2%nat type;
          AddInstance 5%nat "sim.solvent" 2%nat type].
Proof.
  intros env type entry entries r0.
  destruct (addInstances env entries r0) as [r1|] eqn:Hadd; [|discriminate].
  destruct (launch_reaches_listener_added_before_launch env entries r0 r1 5%nat)
    as (r2 & Hlaunch & Hn & _).
  - reflexivity.
  - reflexivity.
  - repeat constructor.
  - exact Hadd.
  - exists r1, r2. split; [reflexivity|]. split; [exact Hlaunch|exact Hn].
Defined.

Lemma launch_nothing_pending (env : Env) (r : Registry) :
  launched r = false -> staticInstances r = [] ->
  launch env r = Ok (setLaunched true r).
Proof.
  destruct r as [l q ls n c]. simpl. intros -> ->.
  unfold launch. simpl. now rewrite assert_true.
Qed.

(** X11. An entry that is not static goes to the listeners registered at the
    time of [addInstance], also before launch; a listener registered later
    hears nothing of it, not even at launch. *)
Theorem no_retroactive_notification :
  forall (env : Env) (t : Tandem) (instance : nat) (type : option IOType)
         (r0 : Registry) (listener : nat),
    launched r0 = false ->
    staticInstances r0 = [] ->
    static t = false ->
    active env t = true ->
    passes env t type = true ->
    exists r1 r2,
      addInstance env t instance type r0 = Ok r1
      /\ notified r1 = notified r0 ++ announce (instanceListeners r0) t instance type
      /\ launch env (addInstanceListener listener r1) = Ok r2
      /\ notified r2 = notified r1.
Proof.
  intros env t instance type r0 listener Hl Hq Hs Hact Hp.
  assert (Hreg : launched (register t instance type r0) = false
                 /\ staticInstances (register t instance type r0) = []
                 /\ notified (register t instance type r0)
                    = notified r0 ++ announce (instanceListeners r0) t instance type).
  { unfold register, logMissingType. destruct type; simpl; rewrite Hs; simpl; auto. }
  destruct Hreg as (Hl1 & Hq1 & Hn1).
  exists (register t instance type r0).
  exists (setLaunched true (addInstanceListener listener (register t instance type r0))).
  split; [now apply addInstance_active|]. split; [assumption|].
  split; [|reflexivity].
  now apply launch_nothing_pending.
Qed.

Lemma no_retroactive_notification_witness :
  let env := {| assertions := true;
                phet := Some {| chipper := Some {| brand := "phet-io" |} |} |} in
  let t := new (Some "sim.screen.model") noOptions in
  exists r1 r2,
    addInstance env t 1%nat (Some {| typeName := "TNode" |})
                (addInstanceListener 0%nat initial) = Ok r1
    /\ launch env (addInstanceListener 5%nat r1) = Ok r2
    /\ notified r2 = [AddInstance 0%nat "sim.screen.model" 1%nat
                                  (Some {| typeName := "TNode" |})].
Proof.
  intros env t.
  destruct (no_retroactive_notification env t 1%nat (Some {| typeName := "TNode" |})
              (addInstanceListener 0%nat initial) 5%nat)
    as (r1 & r2 & Hadd & Hn1 & Hlaunch & Hn2); try reflexivity.
  exists r1, r2. repeat split; try assumption.
  rewrite Hn2, Hn1. reflexivity.
Defined.

Lemma createTandems_flags (env : Env) : forall (names : list string) (t d : Tandem),
  createTandems env t names = Ok d ->
  static d = static t /\ enabled d = enabled t.
Proof.
  induction names as [|name names IH]; intros t d Hok.
  - simpl in Hok. injection Hok as <-. split; reflexivity.
  - cbn [createTandems] in Hok.
    destruct (createTandem env t name noOptions) as [child|] eqn:Hchild;
      [|discriminate].
    cbn [bind] in Hok.
    destruct (createTandem_id _ _ _ _ _ Hchild) as (_ & Hs & He & _).
    destruct (IH _ _ Hok) as (Hs' & He').
    simpl in Hs, He. split; congruence.
Qed.

(** X12. Without options, [createTandem] hands the static and the enabled
    flag down a whole path of children; below a disabled tandem every
    descendant is disabled, so [addInstance] on it never reaches a listener
    or the pending queue, and neither does [removeInstance]. *)
Theorem disabled_tandem_silences_descendants :
  forall (env : Env) (t d : Tandem) (names : list string),
    createTandems env t names = Ok d ->
    static d = static t
    /\ enabled d = enabled t
    /\ (enabled t = false ->
        forall instance type r,
          addInstance env d instance type r = Ok r
          /\ (forall p c, phet env = Some p -> chipper p = Some c ->
                          removeInstance env d instance r = Ok r)).
Proof.
  intros env t d names Hok.
  destruct (createTandems_flags env names t d Hok) as (Hs & He).
  split; [assumption|]. split; [assumption|].
  intros Hoff instance type r. rewrite Hoff in He. split.
  - apply addInstance_inactive. unfold active. rewrite He. apply andb_false_r.
  - intros p c Hp Hc. unfold removeInstance. rewrite Hp, Hc, He, andb_false_r.
    destruct (class d); reflexivity.
Qed.

Lemma disabled_tandem_silences_descendants_witness :
  let env := {| assertions := true;
                phet := Some {| chipper := Some {| brand := "phet-io" |} |} |} in
  let t := new (Some "sim") (mkOptions None None (Some false)) in
  exists d,
    createTandems env t ["screen"; "model"] = Ok d
    /\ enabled d = false
    /\ addInstance env d 1%nat (Some {| typeName := "TNode" |})
                   (addInstanceListener 0%nat initial)
       = Ok (addInstanceListener 0%nat initial).
Proof.
  intros env t.
  destruct (createTandems env t ["screen"; "model"]) as [d|] eqn:Hd; [|discriminate].
  destruct (disabled_tandem_silences_descendants env t d _ Hd) as (_ & He & Hsilent).
  exists d. split; [reflexivity|]. split; [exact He|].
  apply (Hsilent eq_refl).
Defined.

(** X13. [createTandem] checks only that the child name is not empty: along
    a path of non-empty names under a tandem with a non-empty identifier it
    always succeeds, also for names that contain the separator, and the
    identifier is the path joined by separators. *)
Theorem createTandems_identifier :
  forall (env : Env) (names : list string) (t : Tandem),
    id t <> EmptyString ->
    Forall (fun name => name <> EmptyString) names ->
    exists d,
      createTandems env t names = Ok d
      /\ id d = PhetioIDUtils.joinPath (id t) names.
Proof.
  intros env names. induction names as [|name names IH]; intros t Hid Hall.
  - exists t. split; reflexivity.
  - apply Forall_cons_iff in Hall. destruct Hall as [Hname Hall].
    destruct (createTandem_succeeds env t name noOptions Hname) as (child & Hchild).
    destruct (createTandem_id _ _ _ _ _ Hchild) as (Hcid & _).
    rewrite (nonempty_len _ Hid) in Hcid.
    destruct (IH child) as (d & Hd & Hdid).
    + rewrite Hcid. destruct (id t); [congruence|discriminate].
    + assumption.
    + exists d. cbn [createTandems]. rewrite Hchild. cbn [bind].
      split; [assumption|]. rewrite Hdid, Hcid. reflexivity.
Qed.

Lemma createTandems_identifier_witness :
  let env := {| assertions := true; phet := None |} in
  exists d,
    createTandems env (new (Some "sim") noOptions) ["screen.model"; "electron"] = Ok d
    /\ id d = "sim.screen.model.electron".
Proof.
  intros env.
  destruct (createTandems_identifier env ["screen.model"; "electron"]
              (new (Some "sim") noOptions)) as (d & Hd & Hid).
  - discriminate.
  - repeat constructor; discriminate.
  - exists d. split; assumption.
Defined.

End MoreTandemFacts.

(** ** More on the parametric IO types *)

Section MoreParametricTypesFacts.
Import ParametricTypes.

Variable validateSubtype : IOType -> bool.
Variable objectIOReadOnly : string -> bool.

Lemma allDefined_Some (ts : list IOType) : allDefined (map Some ts) = Some ts.
Proof. induction ts as [|t ts IH]; simpl; [reflexivity|]. now rewrite IH. Qed.

Lemma forallb_isDefined_Some (ts : list IOType) :
  forallb isDefined (map Some ts) = true.
Proof. induction ts as [|t ts IH]; simpl; auto. Qed.

(** X14. The caches are keyed by type names, not by type objects: after a
    call of [FunctionIO], or of [PhetioGroupIO] for a type named neither
    "__proto__" nor "hasOwnProperty", a call with other parameter types that
    carry the same names answers the type made for the first ones, and the
    caches stay as they are. The two names are special to the plain object
    that is the cache of [PhetioGroupIO]: a type named "__proto__" is never
    found in it, so that every call for such a type makes a new type object,
    and once a type named "hasOwnProperty" has been answered, every later
    call throws a TypeError. *)
Theorem caches_conflate_types_of_equal_name :
  (forall (a : bool) (p1 p2 : IOType) (st st1 : Store) (t : IOType),
      typeName p1 = typeName p2 ->
      typeName p1 <> "__proto__" ->
      typeName p1 <> "hasOwnProperty" ->
      PhetioGroupIO validateSubtype objectIOReadOnly a (Some p1) st = Ok (t, st1) ->
      PhetioGroupIO validateSubtype objectIOReadOnly a (Some p2) st1 = Ok (t, st1))
  /\ (forall (a : bool) (rt1 rt2 : IOType) (ps1 ps2 : list IOType)
             (st st1 : Store) (t : IOType),
         typeName rt1 = typeName rt2 ->
         map typeName ps1 = map typeName ps2 ->
         FunctionIO validateSubtype a (Some rt1) (map Some ps1) st = Ok (t, st1) ->
         FunctionIO validateSubtype a (Some rt2) (map Some ps2) st1 = Ok (t, st1))
  /\ (forall (a : bool) (p : IOType) (st st1 : Store) (t1 : IOType),
         typeName p = "__proto__" ->
         a = false \/ (forall t, validateSubtype t = true) ->
         PhetioGroupIO validateSubtype objectIOReadOnly a (Some p) st = Ok (t1, st1) ->
         exists t2 st2,
           PhetioGroupIO validateSubtype objectIOReadOnly a (Some p) st1
           = Ok (t2, st2)
           /\ ref t2 <> ref t1)
  /\ (forall (a : bool) (p q : IOType) (st st1 : Store) (t : IOType),
         typeName p = "hasOwnProperty" ->
         PhetioGroupIO validateSubtype objectIOReadOnly a (Some p) st = Ok (t, st1) ->
         PhetioGroupIO validateSubtype objectIOReadOnly a (Some q) st1
         = Throw TypeError).
Proof.
  split; [|split; [|split]].
  - intros a p1 p2 st st1 t Hname Hproto Hmethod Hfirst.
    pose proof (PhetioGroupIO_cached validateSubtype objectIOReadOnly
                  a p1 st st1 t Hproto Hmethod Hfirst) as Hcached.
    unfold PhetioGroupIO. cbn [isDefined]. rewrite assert_true. cbn [bind].
    rewrite <- Hname, Hcached. reflexivity.
  - intros a rt1 rt2 ps1 ps2 st st1 t Hrt Hps. unfold FunctionIO. simpl.
    rewrite !forallb_isDefined_Some, !assert_true, !allDefined_Some. cbn [bind].
    rewrite <- Hrt, <- Hps.
    destruct (functionCache st !! _) as [cached|] eqn:Hlook.
    + intros [= <- <-]. now rewrite Hlook.
    + destruct (createFunctionIO validateSubtype a rt1 ps1 st) as [t'|];
        [|discriminate].
      cbn [bind]. intros [= <- <-]. cbn [functionCache].
      now rewrite lookup_insert_eq.
  - intros a p st st1 t1 Hname Haccepts. unfold PhetioGroupIO. cbn [isDefined].
    rewrite !assert_true. cbn [bind]. rewrite Hname.
    destruct (ownProperty (groupCache st) "__proto__") as [own|] eqn:Hown;
      [|discriminate].
    pose proof (ownProperty_Ok _ _ _ Hown) as Hnone.
    unfold ownProperty in Hown. rewrite Hnone in Hown. cbn in Hown.
    injection Hown as <-. cbn [bind].
    destruct (createPhetioGroupIO validateSubtype a p st) as [t'|] eqn:Hcreate;
      [|discriminate].
    cbn [bind]. unfold assign. cbn [String.eqb Ascii.eqb Bool.eqb andb].
    cbn [bind]. intros [= <- <-]. cbn [groupCache nextRef functionCache].
    apply PhetioGroupIO_fresh_name in Hcreate. destruct Hcreate as (_ & Href).
    unfold ownProperty. rewrite lookup_insert_ne by discriminate. rewrite Hnone.
    cbn [String.eqb Ascii.eqb Bool.eqb andb bind].
    unfold createPhetioGroupIO, checkSubtype.
    assert (Hcheck : forall t, assert_ a (validateSubtype t) "validateSubtype" = Ok tt).
    { intros t. apply assert_Ok. destruct Haccepts as [->|Hall]; [now left|].
      right. apply Hall. }
    rewrite Hcheck. cbn [bind].
    eexists. eexists. split; [reflexivity|]. cbn [ref nextRef]. lia.
  - intros a p q st st1 t Hname. unfold PhetioGroupIO. cbn [isDefined].
    rewrite !assert_true. cbn [bind]. rewrite Hname.
    destruct (ownProperty (groupCache st) "hasOwnProperty") as [own|] eqn:Hown;
      [|discriminate].
    pose proof (ownProperty_Ok _ _ _ Hown) as Hnone.
    rewrite (ownProperty_plain _ _ Hnone) in Hown by discriminate.
    rewrite Hnone in Hown. injection Hown as <-. cbn [bind].
    destruct (createPhetioGroupIO validateSubtype a p st) as [t'|];
      [|discriminate].
    cbn [bind].
    destruct (assign objectIOReadOnly (groupCache st) "hasOwnProperty" t')
      as [cache'|] eqn:Hassign; [|discriminate].
    apply assign_Ok in Hassign. subst cache'.
    cbn [bind]. intros [= <- <-]. cbn [groupCache].
    unfold ownProperty. rewrite lookup_insert_eq. reflexivity.
Qed.

End MoreParametricTypesFacts.

Lemma caches_conflate_types_of_equal_name_witness :
  let yes := fun _ : ParametricTypes.IOType => true in
  let plain := fun _ : string => false in
  let numberIO := ParametricTypes.mkIOType 100 "NumberIO" [] in
  let stringIO := ParametricTypes.mkIOType 101 "StringIO" [] in
  let methodIO := ParametricTypes.mkIOType 102 "hasOwnProperty" [] in
  let arrayOfNumber := ParametricTypes.ArrayIO (Some numberIO) ParametricTypes.empty in
  let arrayOfString := ParametricTypes.ArrayIO (Some stringIO) (snd arrayOfNumber) in
  exists group st shadow st',
    ParametricTypes.PhetioGroupIO yes plain true (Some (fst arrayOfNumber))
                                  (snd arrayOfString)
    = Ok (group, st)
    /\ ParametricTypes.PhetioGroupIO yes plain true (Some (fst arrayOfString)) st
       = Ok (group, st)
    /\ ParametricTypes.parameterTypes group
       = [ParametricTypes.ref (fst arrayOfNumber)]
    /\ ParametricTypes.ref (fst arrayOfNumber)
       <> ParametricTypes.ref (fst arrayOfString)
    /\ ParametricTypes.PhetioGroupIO yes plain true (Some methodIO) st
       = Ok (shadow, st')
    /\ ParametricTypes.PhetioGroupIO yes plain true (Some (fst arrayOfNumber)) st'
       = Throw TypeError.
Proof.
  intros yes plain numberIO stringIO methodIO arrayOfNumber arrayOfString.
  destruct (ParametricTypes.PhetioGroupIO yes plain true (Some (fst arrayOfNumber))
              (snd arrayOfString)) as [[group st]|] eqn:Hfirst; [|discriminate].
  destruct (ParametricTypes.PhetioGroupIO yes plain true (Some methodIO) st)
    as [[shadow st']|] eqn:Hshadow; [|injection Hfirst as <- <-; discriminate].
  exists group, st, shadow, st'. split; [reflexivity|]. split.
  { apply (proj1 (caches_conflate_types_of_equal_name yes plain) true
             (fst arrayOfNumber) (fst arrayOfString) (snd arrayOfString) st group
             eq_refl);
      [discriminate|discriminate|exact Hfirst]. }
  split; [injection Hfirst as <- <-; reflexivity|].
  split; [simpl; lia|]. split; [exact Hshadow|].
  exact (proj2 (proj2 (proj2 (caches_conflate_types_of_equal_name yes plain)))
           true methodIO (fst arrayOfNumber) st st' shadow eq_refl Hshadow).
Defined.

Section GroupCacheFacts.
Import ParametricTypes.

Variable validateSubtype : IOType -> bool.
Variable objectIOReadOnly : string -> bool.

Lemma groupName_inj (k1 k2 : string) :
  "PhetioGroupIO<" +:+ k1 +:+ ">" = "PhetioGroupIO<" +:+ k2 +:+ ">" -> k1 = k2.
Proof.
  intros H. apply append_inj_r in H.
  revert k2 H. induction k1 as [|c k1 IH]; intros [|d k2] H.
  - reflexivity.
  - rewrite append_Empty, append_String in H. injection H as <- H.
    destruct k2; discriminate.
  - rewrite append_Empty, append_String in H. injection H as -> H.
    destruct k1; discriminate.
  - rewrite !append_String in H. injection H as -> H. f_equal. now apply IH.
Qed.

Lemma PhetioGroupIO_step (a : bool) (p : IOType) (st st' : Store) (t : IOType) :
  groupCacheOK st ->
  PhetioGroupIO validateSubtype objectIOReadOnly a (Some p) st = Ok (t, st') ->
  groupCacheOK st'
  /\ groupCache st' !! typeName p = Some t
  /\ (nextRef st <= nextRef st')%nat
  /\ (forall key u, key <> typeName p ->
                    groupCache st !! key = Some u -> groupCache st' !! key = Some u).
Proof.
  intros [Hnamed Hinj]. unfold PhetioGroupIO. cbn [isDefined].
  rewrite assert_true. cbn [bind].
  destruct (ownProperty (groupCache st) (typeName p)) as [own|] eqn:Hown;
    [|discriminate].
  cbn [bind]. destruct own as [cached|].
  - intros [= <- <-]. split; [split; assumption|].
    split; [|split; [lia|auto]].
    unfold ownProperty in Hown.
    destruct (groupCache st !! "hasOwnProperty"); [discriminate|].
    destruct (String.eqb (typeName p) "__proto__"); congruence.
  - destruct (createPhetioGroupIO validateSubtype a p st) as [t'|] eqn:Hcreate;
      [|discriminate].
    cbn [bind].
    destruct (assign objectIOReadOnly (groupCache st) (typeName p) t')
      as [cache'|] eqn:Hassign; [|discriminate].
    apply assign_Ok in Hassign. subst cache'.
    cbn [bind]. intros [= <- <-].
    apply PhetioGroupIO_fresh_name in Hcreate. destruct Hcreate as (Hname & Href).
    unfold groupCacheOK. cbn [groupCache nextRef].
    split; [split|].
    + intros key u Hu. rewrite lookup_insert in Hu.
      destruct (decide (typeName p = key)) as [<-|Hne].
      * injection Hu as <-. split; [assumption|lia].
      * destruct (Hnamed key u Hu) as (Hn & Hr). split; [assumption|lia].
    + intros k1 k2 t1 t2 H1 H2 Heq. rewrite lookup_insert in H1, H2.
      destruct (decide (typeName p = k1)) as [<-|Hne1],
               (decide (typeName p = k2)) as [<-|Hne2]; try reflexivity.
      * injection H1 as <-. destruct (Hnamed k2 t2 H2) as (_ & Hr). lia.
      * injection H2 as <-. destruct (Hnamed k1 t1 H1) as (_ & Hr). lia.
      * eapply Hinj; eassumption.
    + split; [apply lookup_insert_eq|]. split; [lia|].
      intros key u Hne Hu. rewrite lookup_insert_ne; [assumption|]. congruence.
Qed.

(** X15. Along any sequence of calls starting with empty caches, the type
    [PhetioGroupIO] answers is named "PhetioGroupIO<", the name of the
    parameter type, ">", also when it comes from the cache; and two
    calls for parameter types of different names answer different type
    objects. [FunctionIO] and [ArrayIO] leave this as it is. *)
Theorem PhetioGroupIO_names_follow_parameter :
  groupCacheOK empty
  /\ (forall (a : bool) (p : IOType) (st st' : Store) (t : IOType),
         groupCacheOK st ->
         PhetioGroupIO validateSubtype objectIOReadOnly a (Some p) st = Ok (t, st') ->
         groupCacheOK st'
         /\ typeName t = "PhetioGroupIO<" +:+ typeName p +:+ ">")
  /\ (forall (a : bool) (p1 p2 : IOType) (st st1 st2 : Store) (t1 t2 : IOType),
         groupCacheOK st ->
         PhetioGroupIO validateSubtype objectIOReadOnly a (Some p1) st = Ok (t1, st1) ->
         PhetioGroupIO validateSubtype objectIOReadOnly a (Some p2) st1 = Ok (t2, st2) ->
         typeName p1 <> typeName p2 ->
         ref t1 <> ref t2)
  /\ (forall (a : bool) rt ps (st st' : Store) (t : IOType),
         groupCacheOK st ->
         FunctionIO validateSubtype a rt ps st = Ok (t, st') ->
         groupCacheOK st')
  /\ (forall elementType (st : Store),
         groupCacheOK st -> groupCacheOK (snd (ArrayIO elementType st))).
Proof.
  split; [|split; [|split; [|split]]].
  - split.
    + intros key t H. cbn [empty groupCache] in H.
      rewrite lookup_empty in H. discriminate.
    + intros k1 k2 t1 t2 H. cbn [empty groupCache] in H.
      rewrite lookup_empty in H. discriminate.
  - intros a p st st' t Hok Hcall.
    destruct (PhetioGroupIO_step a p st st' t Hok Hcall) as (Hok' & Hlook & _).
    split; [assumption|]. apply (proj1 Hok' _ _ Hlook).
  - intros a p1 p2 st st1 st2 t1 t2 Hok H1 H2 Hne Href.
    destruct (PhetioGroupIO_step a p1 st st1 t1 Hok H1) as (Hok1 & Hlook1 & _).
    destruct (PhetioGroupIO_step a p2 st1 st2 t2 Hok1 H2)
      as (Hok2 & Hlook2 & _ & Hkeep).
    apply Hne. eapply (proj2 Hok2); [apply Hkeep; [exact Hne|exact Hlook1]|exact Hlook2|exact Href].
  - intros a rt ps st st' t [Hnamed Hinj]. unfold FunctionIO.
    destruct (assert_ a (forallb isDefined ps) _) as [[]|]; [|discriminate].
    destruct (assert_ a (isDefined rt) _) as [[]|]; [|discriminate].
    cbn [bind].
    destruct rt as [rt|]; [|discriminate].
    destruct (allDefined ps) as [ps'|]; [|discriminate].
    destruct (functionCache st !! _) as [cached|].
    + intros [= <- <-]. split; assumption.
    + destruct (createFunctionIO validateSubtype a rt ps' st) as [t'|];
        [|discriminate].
      cbn [bind]. intros [= <- <-]. unfold groupCacheOK.
      split; cbn [groupCache nextRef].
      * intros key u Hu. destruct (Hnamed key u Hu). split; [assumption|lia].
      * exact Hinj.
  - intros elementType st [Hnamed Hinj]. unfold groupCacheOK.
    split; cbn [ArrayIO snd groupCache nextRef].
    + intros key u Hu. destruct (Hnamed key u Hu). split; [assumption|lia].
    + exact Hinj.
Qed.

End GroupCacheFacts.

Lemma PhetioGroupIO_names_follow_parameter_witness :
  let yes := fun _ : ParametricTypes.IOType => true in
  let plain := fun _ : string => false in
  let particleIO := ParametricTypes.mkIOType 100 "ParticleIO" [] in
  let trackIO := ParametricTypes.mkIOType 101 "TrackIO" [] in
  exists t1 st1 t2 st2,
    ParametricTypes.PhetioGroupIO yes plain true (Some particleIO) ParametricTypes.empty
    = Ok (t1, st1)
    /\ ParametricTypes.PhetioGroupIO yes plain true (Some trackIO) st1 = Ok (t2, st2)
    /\ ParametricTypes.typeName t2 = "PhetioGroupIO<TrackIO>"
    /\ ParametricTypes.ref t1 <> ParametricTypes.ref t2.
Proof.
  intros yes plain particleIO trackIO.
  destruct (PhetioGroupIO_names_follow_parameter yes plain)
    as (Hempty & Hstep & Hdistinct & _).
  destruct (ParametricTypes.PhetioGroupIO yes plain true (Some particleIO)
              ParametricTypes.empty) as [[t1 st1]|] eqn:H1; [|discriminate].
  destruct (ParametricTypes.PhetioGroupIO yes plain true (Some trackIO) st1)
    as [[t2 st2]|] eqn:H2; [|injection H1 as <- <-; discriminate].
  destruct (Hstep true particleIO _ _ _ Hempty H1) as (Hok1 & _).
  destruct (Hstep true trackIO _ _ _ Hok1 H2) as (_ & Hname).
  exists t1, st1, t2, st2. repeat split; try assumption.
  apply (Hdistinct true particleIO trackIO _ _ _ _ _ Hempty H1 H2). discriminate.
Defined.

(** ** More on state objects *)

Section MoreStateObjectsFacts.
Import StateObjects.

(** X16. Nesting [NullableIO] adds nothing: [NullableIO (NullableIO T)]
    validates, serializes and deserializes every value as [NullableIO T]
    does. *)
Theorem NullableIO_idempotent :
  forall (T : IOType) (v : Value),
    isValidValue (NullableIO (NullableIO T)) v = isValidValue (NullableIO T) v
    /\ toStateObject (NullableIO (NullableIO T)) v = toStateObject (NullableIO T) v
    /\ fromStateObject (NullableIO (NullableIO T)) v
       = fromStateObject (NullableIO T) v.
Proof.
  intros T v. destruct v; repeat split.
Qed.

Lemma NullableIO_roundTrips (T : IOType) :
  roundTrips T -> neverNull T -> roundTrips (NullableIO T).
Proof.
  intros Hrt Hnn x Hx.
  destruct (isNull x) eqn:Hnull.
  - destruct x; try discriminate. exists VNull. split; reflexivity.
  - assert (Hvalid : isValidValue T x = true).
    { cbn [NullableIO isValidValue] in Hx. rewrite Hnull in Hx. exact Hx. }
    destruct (Hrt x Hvalid) as (s & Hto & Hfrom).
    exists s. cbn [NullableIO toStateObject fromStateObject]. rewrite Hnull.
    split; [assumption|].
    destruct (isNull s) eqn:Hs; [|assumption].
    destruct s; try discriminate.
    exfalso. apply (Hnn x Hvalid); [|assumption].
    intros ->. discriminate.
Qed.

Lemma ArrayIO_roundTrips (a : bool) (T : IOType) :
  roundTrips T -> roundTrips (ArrayIO a T).
Proof.
  intros Hrt x Hx. destruct x as [| |b|n|s|elements|r]; try discriminate.
  cbn [ArrayIO isValidValue] in Hx.
  assert (Hall : Forall (fun x => exists s, toStateObject T x = Ok s
                                 /\ fromStateObject T s = Ok x) elements).
  { apply List.Forall_forall. intros x Hin. apply Hrt.
    rewrite forallb_forall in Hx. apply Hx, Hin. }
  destruct (pushEach_round_trip (toStateObject T) (fromStateObject T)
              elements [] [] Hall) as (json & Hto & _ & Hfrom).
  exists (VArray json). simpl in Hto, Hfrom.
  cbn [ArrayIO toStateObject fromStateObject isArray indexed].
  rewrite assert_true. cbn [bind]. rewrite Hto, Hfrom. split; reflexivity.
Qed.

Lemma ArrayIO_neverNull (a : bool) (T : IOType) : neverNull (ArrayIO a T).
Proof.
  intros x _ _. cbn [ArrayIO toStateObject].
  destruct (assert_ a (isArray x) _) as [[]|]; [|discriminate]. cbn [bind].
  destruct (indexed x) as [elements|]; [|discriminate]. cbn [bind].
  destruct (pushEach _ elements []) as [json|]; discriminate.
Qed.

(** X17. The composite types nest: for a parameter type that round-trips and
    never writes a non-null instance as [null], an array of nullables, a
    nullable array and an array of arrays all round-trip. *)
Theorem composite_types_nest :
  forall (a : bool) (T : IOType),
    roundTrips T ->
    neverNull T ->
    roundTrips (ArrayIO a (NullableIO T))
    /\ roundTrips (NullableIO (ArrayIO a T))
    /\ roundTrips (ArrayIO a (ArrayIO a T)).
Proof.
  intros a T Hrt Hnn. split; [|split].
  - apply ArrayIO_roundTrips, NullableIO_roundTrips; assumption.
  - apply NullableIO_roundTrips; [now apply ArrayIO_roundTrips|].
    apply ArrayIO_neverNull.
  - now apply ArrayIO_roundTrips, ArrayIO_roundTrips.
Qed.

Lemma composite_types_nest_witness :
  exists s,
    toStateObject (ArrayIO true (NullableIO TString))
                  (VArray [VString "a"; VNull]) = Ok s
    /\ fromStateObject (ArrayIO true (NullableIO TString)) s
       = Ok (VArray [VString "a"; VNull]).
Proof.
  assert (Hrt : roundTrips TString).
  { intros x _. exists x. split; reflexivity. }
  assert (Hnn : neverNull TString).
  { intros x _ Hx Hto. simpl in Hto. congruence. }
  destruct (composite_types_nest true TString Hrt Hnn) as (Harray & _).
  exact (Harray (VArray [VString "a"; VNull]) eq_refl).
Defined.

Lemma pushEach_fails (f : Value -> result Value) (e : error) (x : Value) :
  forall (l1 l2 out : list Value),
    Forall (fun y => exists s, f y = Ok s) l1 ->
    f x = Throw e ->
    pushEach f (l1 ++ x :: l2) out = Throw e.
Proof.
  induction l1 as [|y l1 IH]; intros l2 out Hall Hx.
  - cbn [app pushEach]. now rewrite Hx.
  - apply Forall_cons_iff in Hall. destruct Hall as [(s & Hs) Hall].
    cbn [app pushEach]. rewrite Hs. cbn [bind]. now apply IH.
Qed.

(** X18. How [ArrayIO] fails: serializing stops at the first element the
    element type cannot serialize, with that element's error, and so does
    deserializing; with assertions enabled [toStateObject] rejects whatever
    is not an array; [fromStateObject] has no such check and throws a
    TypeError only on [null] and [undefined]. *)
Theorem ArrayIO_failures :
  forall (a : bool) (T : IOType),
    (forall l1 x l2 e,
        Forall (fun y => exists s, toStateObject T y = Ok s) l1 ->
        toStateObject T x = Throw e ->
        toStateObject (ArrayIO a T) (VArray (l1 ++ x :: l2)) = Throw e)
    /\ (forall l1 x l2 e,
          Forall (fun y => exists s, fromStateObject T y = Ok s) l1 ->
          fromStateObject T x = Throw e ->
          fromStateObject (ArrayIO a T) (VArray (l1 ++ x :: l2)) = Throw e)
    /\ (forall v, isArray v = false ->
                  isAssertion (toStateObject (ArrayIO true T) v))
    /\ fromStateObject (ArrayIO a T) VNull = Throw TypeError
    /\ fromStateObject (ArrayIO a T) VUndefined = Throw TypeError
    /\ (forall n, fromStateObject (ArrayIO a T) (VNumber n) = Ok (VArray [])).
Proof.
  intros a T. split; [|split; [|split; [|repeat split]]].
  - intros l1 x l2 e Hall Hx.
    cbn [ArrayIO toStateObject isArray indexed]. rewrite assert_true.
    cbn [bind]. now rewrite (pushEach_fails _ e x l1 l2 [] Hall Hx).
  - intros l1 x l2 e Hall Hx.
    cbn [ArrayIO fromStateObject indexed bind].
    now rewrite (pushEach_fails _ e x l1 l2 [] Hall Hx).
  - intros v Hv. cbn [ArrayIO toStateObject]. rewrite Hv.
    eexists. reflexivity.
Qed.

Lemma ArrayIO_failures_witness :
  isAssertion
    (toStateObject (ArrayIO true (ArrayIO true TString))
                   (VArray [VArray [VString "a"]; VString "b"; VArray []]))
  /\ isAssertion (toStateObject (ArrayIO true TString) (VString "ab")).
Proof.
  destruct (ArrayIO_failures true (ArrayIO true TString)) as (Hto & _).
  destruct (ArrayIO_failures true TString) as (_ & _ & Hreject & _).
  split.
  - eexists.
    apply (Hto [VArray [VString "a"]] (VString "b") [VArray []]).
    + repeat constructor. eexists. reflexivity.
    + reflexivity.
  - apply Hreject. reflexivity.
Defined.

End MoreStateObjectsFacts.

(** ** State of wrapped objects *)

Section TFocusFacts.
Import TFocus.

Lemma follow_length : forall (indices : list nat) (current : option Node)
                             (nodes out : list (option Node)),
  follow current indices nodes = Ok out ->
  length out = (length nodes + length indices)%nat
  /\ exists rest, out = nodes ++ rest.
Proof.
  induction indices as [|index indices IH]; intros current nodes out H.
  - simpl in H. injection H as <-. split; [simpl; lia|].
    exists []. now rewrite app_nil_r.
  - cbn [follow] in H. destruct current as [n|]; [|discriminate].
    destruct (IH _ _ _ H) as (Hlen & rest & ->).
    split.
    + rewrite Hlen, List.length_app. simpl. lia.
    + exists (nth_error (children n) index :: rest).
      now rewrite <- app_assoc.
Qed.

Lemma follow_path : forall (indices : list nat) (current : Node)
                           (rest : list Node) (nodes : list (option Node)),
  isPath current indices rest ->
  follow (Some current) indices nodes = Ok (nodes ++ map Some rest).
Proof.
  induction indices as [|index indices IH]; intros current rest nodes Hpath.
  - destruct rest; [|destruct Hpath]. simpl. now rewrite app_nil_r.
  - destruct rest as [|n rest]; [destruct Hpath|].
    destruct Hpath as [Hchild Hpath].
    cbn [follow]. rewrite Hchild, (IH n rest _ Hpath), <- app_assoc.
    reflexivity.
Qed.

(** X19. TFocus: no focus is written as [null] and read back as no focus;
    reading indices back answers, when it succeeds, a trail that starts at
    the root node of the display and has one node more than there are
    indices; a focus whose trail leads from the root along its indices is
    read back with the same nodes; and an index that names no child throws a
    TypeError, unless it is the last one, in which case the trail ends with
    [undefined]. *)
Theorem TFocus_round_trip :
  forall (simDisplay : nat) (rootNode : Node),
    fromStateObject simDisplay rootNode (toStateObject None) = Ok None
    /\ (forall indices d nodes,
          fromStateObject simDisplay rootNode (Some indices) = Ok (Some (d, nodes)) ->
          d = simDisplay
          /\ length nodes = S (length indices)
          /\ hd_error nodes = Some (Some rootNode))
    /\ (forall focus rest,
          trailNodes focus = rootNode :: rest ->
          isPath rootNode (trailIndices focus) rest ->
          fromStateObject simDisplay rootNode (toStateObject (Some focus))
          = Ok (Some (simDisplay, map Some (trailNodes focus))))
    /\ (forall index more,
          nth_error (children rootNode) index = None ->
          fromStateObject simDisplay rootNode (Some [index])
          = Ok (Some (simDisplay, [Some rootNode; None]))
          /\ (more <> [] ->
              fromStateObject simDisplay rootNode (Some (index :: more))
              = Throw TypeError)).
Proof.
  intros simDisplay rootNode. split; [reflexivity|]. split; [|split].
  - intros indices d nodes H. cbn [fromStateObject] in H.
    destruct (follow (Some rootNode) indices [Some rootNode]) as [out|] eqn:Hf;
      [|discriminate].
    cbn [bind] in H. injection H as <- <-.
    destruct (follow_length _ _ _ _ Hf) as (Hlen & rest & ->).
    repeat split. simpl in Hlen. exact Hlen.
  - intros focus rest Hnodes Hpath. cbn [toStateObject fromStateObject].
    rewrite (follow_path _ _ _ _ Hpath), Hnodes. reflexivity.
  - intros index more Hnone. split.
    + cbn [fromStateObject follow]. rewrite Hnone. reflexivity.
    + intros Hmore. destruct more as [|next more]; [congruence|].
      cbn [fromStateObject follow]. rewrite Hnone. reflexivity.
Qed.

Lemma TFocus_round_trip_witness :
  let leaf := mkNode 3 [] in
  let panel := mkNode 2 [mkNode 4 []; leaf] in
  let root := mkNode 1 [panel] in
  let focus := mkFocus 9 [root; panel; leaf] [0%nat; 1%nat] in
  fromStateObject 9 root (toStateObject (Some focus))
  = Ok (Some (9%nat, [Some root; Some panel; Some leaf]))
  /\ fromStateObject 9 root (Some [5%nat; 0%nat]) = Throw TypeError.
Proof.
  intros leaf panel root focus.
  destruct (TFocus_round_trip 9 root) as (_ & _ & Hround & Hmissing).
  split.
  - apply (Hround focus [panel; leaf]); [reflexivity|].
    simpl. repeat split.
  - apply (Hmissing 5%nat [0%nat]); [reflexivity|discriminate].
Defined.

End TFocusFacts.

Section TSphereBucketFacts.
Import TSphereBucket.

Variable getInstance : string -> result Particle.

Lemma setValue_is_array (instance : SphereBucket) (particleArray : list Particle) :
  setValue instance particleArray = mkBucket particleArray.
Proof.
  unfold setValue.
  assert (H : forall l acc,
             fold_left (fun bucket value => mkBucket (particles bucket ++ [value]))
                       l (mkBucket acc) = mkBucket (acc ++ l)).
  { induction l as [|x l IH]; intros acc; simpl.
    - now rewrite app_nil_r.
    - rewrite IH, <- app_assoc. reflexivity. }
  apply (H particleArray []).
Qed.

(** X20. TSphereBucket writes a bucket as the tandem identifiers of its
    particles, in order; when every particle of the bucket is the instance
    registered under its tandem identifier, reading that state back gives
    the same particles, and setting it as the value of any bucket gives a
    bucket with exactly these particles. *)
Theorem TSphereBucket_round_trip :
  forall (instance other : SphereBucket),
    Forall (fun p => getInstance (particleTandemId p) = Ok p) (particles instance) ->
    length (toStateObject instance) = length (particles instance)
    /\ fromStateObject getInstance (toStateObject instance) = Ok (particles instance)
    /\ setValue other (particles instance) = instance.
Proof.
  intros [ps] other Hall. cbn [particles] in *.
  split; [apply List.length_map|]. split.
  - unfold toStateObject. cbn [particles].
    induction ps as [|p ps IH]; [reflexivity|].
    apply Forall_cons_iff in Hall. destruct Hall as [Hp Hall].
    cbn [map fromStateObject]. unfold getParticleTandemID at 1.
    rewrite Hp. cbn [bind]. rewrite (IH Hall). reflexivity.
  - apply setValue_is_array.
Qed.

End TSphereBucketFacts.

Lemma TSphereBucket_round_trip_witness :
  let electron := TSphereBucket.mkParticle 1 "sim.electron_0" in
  let proton := TSphereBucket.mkParticle 2 "sim.proton_0" in
  let getInstance := fun tandemID : string =>
    if String.eqb tandemID "sim.electron_0" then Ok electron
    else if String.eqb tandemID "sim.proton_0" then Ok proton
    else Throw (AssertionError "no instance") in
  TSphereBucket.fromStateObject getInstance
    (TSphereBucket.toStateObject (TSphereBucket.mkBucket [proton; electron]))
  = Ok [proton; electron].
Proof.
  intros electron proton getInstance.
  apply (TSphereBucket_round_trip getInstance
           (TSphereBucket.mkBucket [proton; electron])
           (TSphereBucket.mkBucket [])).
  repeat constructor.
Defined.

(** ** More on dynamic groups *)

Lemma split_without_separator (sep : ascii) (s : string) :
  ~ JsString.hasChar sep s -> JsString.split s sep = [s].
Proof.
  induction s as [|c s IH]; intros Hno; [reflexivity|].
  rewrite hasChar_String in Hno. cbn [JsString.split].
  destruct (Ascii.eqb_spec c sep) as [->|_]; [tauto|].
  rewrite IH by tauto. reflexivity.
Qed.

Lemma split_at_separator (sep : ascii) (p s : string) :
  ~ JsString.hasChar sep p ->
  JsString.split (p +:+ String sep s) sep = p :: JsString.split s sep.
Proof.
  induction p as [|c p IH]; intros Hno.
  - rewrite append_Empty. cbn [JsString.split]. now rewrite Ascii.eqb_refl.
  - rewrite hasChar_String in Hno. rewrite append_String. cbn [JsString.split].
    destruct (Ascii.eqb_spec c sep) as [->|_]; [tauto|].
    rewrite IH by tauto. reflexivity.
Qed.

Lemma leadingDigits_acc (d : Decimal.uint) : forall acc : positive,
  JsString.leadingDigits (NilEmpty.string_of_uint d) (Some (Z.pos acc))
  = Some (Z.pos (Pos.of_uint_acc d acc)).
Proof.
  induction d as [|d IH|d IH|d IH|d IH|d IH|d IH|d IH|d IH|d IH|d IH];
    intros acc; [reflexivity|..];
    cbn [NilEmpty.string_of_uint JsString.leadingDigits Pos.of_uint_acc];
    match goal with
    | |- context [JsString.digitValue ?c] =>
        let v := eval vm_compute in (JsString.digitValue c) in
        change (JsString.digitValue c) with v
    end;
    cbn [default]; rewrite <- IH; do 2 f_equal; unfold id; lia.
Qed.

Lemma leadingDigits_zero (d : Decimal.uint) :
  JsString.leadingDigits (NilEmpty.string_of_uint d) (Some 0)
  = Some (Z.of_N (Pos.of_uint d)).
Proof.
  induction d as [|d IH|d IH|d IH|d IH|d IH|d IH|d IH|d IH|d IH|d IH];
    [reflexivity|..];
    cbn [NilEmpty.string_of_uint JsString.leadingDigits Pos.of_uint];
    match goal with
    | |- context [JsString.digitValue ?c] =>
        let v := eval vm_compute in (JsString.digitValue c) in
        change (JsString.digitValue c) with v
    end;
    cbn [default];
    first [ exact IH | apply (leadingDigits_acc d) ].
Qed.

Lemma leadingDigits_uint (d : Decimal.uint) :
  d <> Decimal.Nil ->
  JsString.leadingDigits (NilZero.string_of_uint d) None = Some (Z.of_uint d).
Proof.
  intros Hd. unfold Z.of_uint. rewrite <- leadingDigits_zero.
  destruct d; try congruence; reflexivity.
Qed.

Lemma parseInt_unsigned (c : ascii) (rest : string) :
  JsString.isWhiteSpace c = false -> c <> "-"%char -> c <> "+"%char ->
  JsString.parseInt (Some (String c rest))
  = JsString.leadingDigits (String c rest) None.
Proof.
  intros Hws Hminus Hplus. unfold JsString.parseInt.
  cbn [JsString.skipWhiteSpace]. rewrite Hws.
  destruct c as [[] [] [] [] [] [] [] []]; try reflexivity; congruence.
Qed.

Lemma string_of_uint_first (d : Decimal.uint) :
  d <> Decimal.Nil ->
  exists c rest,
    NilZero.string_of_uint d = String c rest
    /\ JsString.isWhiteSpace c = false /\ c <> "-"%char /\ c <> "+"%char.
Proof.
  intros Hd. destruct d; try congruence;
    eexists; eexists; (split; [reflexivity|]);
    (split; [reflexivity|]); split; discriminate.
Qed.

Lemma to_uint_nonnil (p : positive) : Pos.to_uint p <> Decimal.Nil.
Proof.
  intros H. pose proof (DecimalZ.of_to (Z.pos p)) as Hof.
  cbn [Z.to_int] in Hof. rewrite H in Hof. discriminate.
Qed.

Lemma parseInt_numberToString (n : Z) :
  JsString.parseInt (Some (JsString.numberToString n)) = Some n.
Proof.
  unfold JsString.numberToString.
  destruct n as [|p|p]; [reflexivity| |].
  - cbn [Z.to_int NilZero.string_of_int].
    pose proof (to_uint_nonnil p) as Hnil.
    destruct (string_of_uint_first _ Hnil) as (c & rest & Hs & Hws & Hm & Hp).
    rewrite Hs, parseInt_unsigned by assumption.
    rewrite <- Hs, leadingDigits_uint by assumption.
    f_equal. exact (DecimalZ.of_to (Z.pos p)).
  - cbn [Z.to_int NilZero.string_of_int].
    pose proof (to_uint_nonnil p) as Hnil.
    unfold JsString.parseInt. cbn [JsString.skipWhiteSpace].
    change (JsString.isWhiteSpace "-") with false. cbv iota.
    rewrite leadingDigits_uint by assumption.
    cbn [fmap option_fmap option_map]. f_equal.
    exact (DecimalZ.of_to (Z.neg p)).
Qed.

Lemma string_of_uint_no_underscore (d : Decimal.uint) :
  ~ JsString.hasChar "_" (NilEmpty.string_of_uint d).
Proof.
  induction d; cbn [NilEmpty.string_of_uint];
    [intros []|..]; rewrite hasChar_String; intros [H|H];
    try discriminate; contradiction.
Qed.

Lemma numberToString_no_underscore (n : Z) :
  ~ JsString.hasChar "_" (JsString.numberToString n).
Proof.
  unfold JsString.numberToString.
  assert (Hzero : forall d, ~ JsString.hasChar "_" (NilZero.string_of_uint d)).
  { intros d. destruct d; try apply string_of_uint_no_underscore.
    unfold JsString.hasChar. simpl. intuition discriminate. }
  destruct (Z.to_int n) as [d|d]; cbn [NilZero.string_of_int]; [apply Hzero|].
  rewrite hasChar_String. intros [H|H]; [discriminate|]. exact (Hzero d H).
Qed.

(** The index written into a component name is the index read from it. *)
Lemma indexOfName_componentNameOf (prefix : string) (n : Z) :
  ~ JsString.hasChar "_" prefix ->
  Group.indexOfName (Group.componentNameOf prefix (Some n)) = Some n.
Proof.
  intros Hprefix. unfold Group.indexOfName, Group.componentNameOf.
  change (prefix +:+ JsString.char Group.GROUP_SEPARATOR
          +:+ Group.indexToString (Some n))
    with (prefix +:+ String Group.GROUP_SEPARATOR (JsString.numberToString n)).
  rewrite split_at_separator by assumption.
  rewrite split_without_separator by apply numberToString_no_underscore.
  cbn [nth_error]. apply parseInt_numberToString.
Qed.

Lemma componentNameOf_inj (prefix : string) (i j : Z) :
  Group.componentNameOf prefix (Some i) = Group.componentNameOf prefix (Some j) ->
  i = j.
Proof.
  unfold Group.componentNameOf. intros H.
  do 2 apply append_inj_r in H. now apply numberToString_inj.
Qed.

Section MoreGroupFacts.
Import Group.

Variable Args : Type.
Variable validator : Member Args -> bool.
Variable isDynamicPhetioObject : Member Args -> bool.
Variable env : Env.

Let Member := (Member Args).
Let Group := (Group Args).

Lemma indexOfMember_middle (m : Member) (l2 : list Member) :
  forall (l1 : list Member) (i : nat),
    NoDup (map m_ref (l1 ++ m :: l2)) ->
    indexOfMember m (l1 ++ m :: l2) i = Some (i + length l1)%nat.
Proof.
  induction l1 as [|x l1 IH]; intros i Hnd.
  - simpl. rewrite Nat.eqb_refl. f_equal. lia.
  - simpl in Hnd. apply NoDup_cons in Hnd. destruct Hnd as [Hx Hnd].
    simpl. destruct (Nat.eqb_spec (m_ref x) (m_ref m)) as [Heq|_].
    + exfalso. apply Hx. apply list_elem_of_In.
      rewrite List.map_app. apply List.in_app_iff. right.
      simpl. left. symmetry. exact Heq.
    + rewrite IH by assumption. f_equal. lia.
Qed.

Lemma removeAt_middle (m : Member) (l1 l2 : list Member) :
  removeAt (length l1) (l1 ++ m :: l2) = l1 ++ l2.
Proof. induction l1 as [|x l1 IH]; simpl; [reflexivity|]. now rewrite IH. Qed.

Lemma wellFormed_remove (g : Group) (l1 l2 : list Member) (m : Member)
      (disposed' : list Member) :
  wellFormed g -> array g = l1 ++ m :: l2 ->
  wellFormed (mkGroup Args (prefix g) (l1 ++ l2) (groupElementIndex g) (nextRef g)
                      (created g) disposed').
Proof.
  intros [Hnd Hlt] Harr. rewrite Harr in Hnd, Hlt. split; cbn [array nextRef].
  - rewrite List.map_app in *. cbn [map] in Hnd.
    apply NoDup_app in Hnd. destruct Hnd as (H1 & Hdisj & H2).
    apply NoDup_cons in H2. destruct H2 as [_ H2].
    apply NoDup_app. repeat split; try assumption.
    intros r Hr1 Hr2. apply (Hdisj r Hr1). now right.
  - apply List.Forall_app in Hlt. destruct Hlt as [H1 H2].
    apply Forall_cons_iff in H2. destruct H2 as [_ H2].
    apply List.Forall_app. split; assumption.
Qed.

Lemma disposeGroupMember_live (g : Group) (l1 l2 : list Member) (m : Member) :
  wellFormed g -> array g = l1 ++ m :: l2 ->
  disposeGroupMember env m g
  = Ok (mkGroup Args (prefix g) (l1 ++ l2) (groupElementIndex g) (nextRef g)
                (created g) (disposed g ++ [m])).
Proof.
  intros [Hnd _] Harr. unfold disposeGroupMember, arrayRemove.
  rewrite Harr in Hnd |- *.
  rewrite (indexOfMember_middle m l2 l1 0 Hnd). simpl.
  now rewrite removeAt_middle.
Qed.

(** X21. Disposing a live member takes exactly that member out of the
    array, keeps the others in their order, records the disposal, and leaves
    the counter where it is: the index of a disposed member is not given out
    again. *)
Theorem disposeGroupMember_removes_that_member :
  forall (g : Group) (l1 l2 : list Member) (m : Member),
    wellFormed g ->
    array g = l1 ++ m :: l2 ->
    exists g',
      disposeGroupMember env m g = Ok g'
      /\ array g' = l1 ++ l2
      /\ disposed g' = disposed g ++ [m]
      /\ groupElementIndex g' = groupElementIndex g
      /\ wellFormed g'.
Proof.
  intros g l1 l2 m Hwf Harr.
  exists (mkGroup Args (prefix g) (l1 ++ l2) (groupElementIndex g) (nextRef g)
                  (created g) (disposed g ++ [m])).
  split; [apply disposeGroupMember_live; assumption|].
  split; [reflexivity|]. split; [reflexivity|]. split; [reflexivity|].
  apply (wellFormed_remove g l1 l2 m _ Hwf Harr).
Qed.

Lemma accounted_create (index : option Z) (args : Args) (g g' : Group) (m : Member) :
  accounted g ->
  createGroupMember validator isDynamicPhetioObject env index args g = Ok (m, g') ->
  accounted g'.
Proof.
  unfold accounted. intros Hacc Hok.
  apply createGroupMember_Ok in Hok.
  destruct Hok as (_ & _ & Harr & _ & _ & Hcr & Hdisp).
  rewrite Harr, Hcr, Hdisp, app_assoc.
  now apply Permutation_app_tail.
Qed.

(** X22. No member is lost or counted twice: in a group that starts empty,
    after any of [createNextMember], [createCorrespondingGroupMember],
    [disposeGroupMember] of a live member and [clear], the members created so
    far are exactly the live members together with the disposed ones, and
    the live members are distinct objects. *)
Theorem group_accounts_for_every_member :
  (forall prefix : string,
      wellFormed (new (Args := Args) prefix) /\ accounted (new (Args := Args) prefix))
  /\ (forall (g g' : Group) (args : Args) (m : Member),
         wellFormed g -> accounted g ->
         createNextMember validator isDynamicPhetioObject env args g = Ok (m, g') ->
         wellFormed g' /\ accounted g')
  /\ (forall (g g' : Group) (name : string) (args : Args) (m : Member),
         wellFormed g -> accounted g ->
         createCorrespondingGroupMember validator isDynamicPhetioObject env
                                        name args g = Ok (m, g') ->
         wellFormed g' /\ accounted g')
  /\ (forall (g g' : Group) (m : Member),
         wellFormed g -> accounted g -> In m (array g) ->
         disposeGroupMember env m g = Ok g' ->
         wellFormed g' /\ accounted g')
  /\ (forall (g g' : Group),
         wellFormed g -> accounted g ->
         clear env g = Ok g' ->
         wellFormed g' /\ accounted g').
Proof.
  split; [|split; [|split; [|split]]].
  - intros prefix. split; [apply new_wellFormed|]. unfold accounted. reflexivity.
  - intros g g' args m Hwf Hacc Hok. unfold createNextMember in Hok. split.
    + eapply createGroupMember_wellFormed; [|exact Hok]. exact Hwf.
    + eapply accounted_create; [|exact Hok]. exact Hacc.
  - intros g g' name args m Hwf Hacc Hok.
    unfold createCorrespondingGroupMember in Hok. split.
    + eapply createGroupMember_wellFormed; [|exact Hok].
      destruct (indexOfName name) as [i|]; [|exact Hwf].
      destruct (groupElementIndex g =? i); exact Hwf.
    + eapply accounted_create; [|exact Hok].
      destruct (indexOfName name) as [i|]; [|exact Hacc].
      destruct (groupElementIndex g =? i); exact Hacc.
  - intros g g' m Hwf Hacc Hin Hok.
    apply in_split in Hin. destruct Hin as (l1 & l2 & Harr).
    rewrite (disposeGroupMember_live g l1 l2 m Hwf Harr) in Hok.
    injection Hok as <-. split.
    + apply (wellFormed_remove g l1 l2 m _ Hwf Harr).
    + unfold accounted in *. cbn [created disposed array].
      rewrite Hacc, Harr, <- app_assoc. apply Permutation_app_head.
      simpl. symmetry. apply Permutation_middle.
  - intros g g' Hwf Hacc Hok. unfold clear in Hok.
    destruct (clearLoop_disposes_in_reverse Args validator isDynamicPhetioObject env (array g) (length (array g)) g
                eq_refl (proj1 Hwf) (Nat.le_refl _))
      as (g1 & Hloop & Harr & Hdisp & Hpre & Hidx & Hnext & Hcr).
    rewrite Hloop in Hok. cbn [bind] in Hok. injection Hok as <-. split.
    + split; cbn [setIndex array nextRef]; rewrite Harr; constructor.
    + unfold accounted in *. cbn [setIndex created disposed array].
      rewrite Hcr, Hdisp, Harr, app_nil_r, Hacc.
      apply Permutation_app_head. apply Permutation_rev.
Qed.

Lemma indexed_names_fresh (g : Group) (i : Z) :
  indexedBelowCounter g -> groupElementIndex g <= i ->
  ~ In (componentNameOf (prefix g) (Some i)) (map m_name (array g)).
Proof.
  intros [Hall _] Hle Hin. apply List.in_map_iff in Hin.
  destruct Hin as (m & Hname & Hm).
  rewrite List.Forall_forall in Hall. destruct (Hall m Hm) as (j & Hj & Hmj).
  rewrite Hmj in Hname. apply componentNameOf_inj in Hname. lia.
Qed.

(** X23. As long as members are made with [createNextMember] only, the live
    members have pairwise different names, each with an index below the
    counter: this holds in a new group, is kept by [createNextMember], by
    [disposeGroupMember] of a live member and by [clear], and the name
    [createNextMember] gives out is never one of a live member. *)
Theorem createNextMember_never_reuses_a_live_name :
  (forall prefix : string, indexedBelowCounter (new (Args := Args) prefix))
  /\ (forall (g g' : Group) (args : Args) (m : Member),
         indexedBelowCounter g ->
         createNextMember validator isDynamicPhetioObject env args g = Ok (m, g') ->
         ~ In (m_name m) (map m_name (array g))
         /\ indexedBelowCounter g')
  /\ (forall (g g' : Group) (m : Member),
         wellFormed g -> indexedBelowCounter g -> In m (array g) ->
         disposeGroupMember env m g = Ok g' ->
         indexedBelowCounter g')
  /\ (forall (g g' : Group),
         wellFormed g -> clear env g = Ok g' -> indexedBelowCounter g').
Proof.
  split; [|split; [|split]].
  - intros prefix. split; constructor.
  - intros g g' args m Hidx Hok.
    apply createNextMember_Ok in Hok.
    destruct Hok as (Hm & Hpre & Harr & Hcnt & _).
    assert (Hfresh : ~ In (m_name m) (map m_name (array g))).
    { rewrite Hm. apply (indexed_names_fresh g _ Hidx). lia. }
    split; [exact Hfresh|].
    destruct Hidx as [Hall Hnd]. split.
    + rewrite Harr, Hpre, Hcnt. apply List.Forall_app. split.
      * eapply List.Forall_impl; [|exact Hall].
        intros x (j & Hj & Hx). exists j. split; [lia|assumption].
      * constructor; [|constructor].
        exists (groupElementIndex g). split; [lia|]. rewrite Hm. reflexivity.
    + rewrite Harr, List.map_app. cbn [map].
      apply NoDup_app. repeat split; [assumption| |apply NoDup_singleton].
      intros name Hin Hname. apply list_elem_of_singleton in Hname. subst name.
      apply Hfresh. now apply list_elem_of_In.
  - intros g g' m Hwf [Hall Hnd] Hin Hok.
    apply in_split in Hin. destruct Hin as (l1 & l2 & Harr).
    rewrite (disposeGroupMember_live g l1 l2 m Hwf Harr) in Hok.
    injection Hok as <-. rewrite Harr in Hall, Hnd.
    split; cbn [array prefix groupElementIndex].
    + apply List.Forall_app in Hall. destruct Hall as [H1 H2].
      apply Forall_cons_iff in H2. destruct H2 as [_ H2].
      apply List.Forall_app. split; assumption.
    + rewrite List.map_app in *. cbn [map] in Hnd.
      apply NoDup_app in Hnd. destruct Hnd as (H1 & Hdisj & H2).
      apply NoDup_cons in H2. destruct H2 as [_ H2].
      apply NoDup_app. repeat split; try assumption.
      intros r Hr1 Hr2. apply (Hdisj r Hr1). now right.
  - intros g g' Hwf Hok. unfold clear in Hok.
    destruct (clearLoop_disposes_in_reverse Args validator isDynamicPhetioObject env (array g) (length (array g)) g
                eq_refl (proj1 Hwf) (Nat.le_refl _))
      as (g1 & Hloop & Harr & _).
    rewrite Hloop in Hok. cbn [bind] in Hok. injection Hok as <-.
    split; cbn [setIndex array]; rewrite Harr; constructor.
Qed.

(** X24. A peer whose tandem name has no group separator carries no index:
    [createCorrespondingGroupMember] then creates the member named prefix,
    separator and "NaN", and leaves the counter as it is. *)
Theorem createCorrespondingGroupMember_without_index :
  forall (g : Group) (name : string) (args : Args),
    ~ JsString.hasChar GROUP_SEPARATOR name ->
    accepts validator isDynamicPhetioObject env (candidate g None args) = true ->
    exists m g',
      createCorrespondingGroupMember validator isDynamicPhetioObject env
                                     name args g = Ok (m, g')
      /\ m_name m = prefix g +:+ "_NaN"
      /\ groupElementIndex g' = groupElementIndex g
      /\ array g' = array g ++ [m].
Proof.
  intros g name args Hno Hacc.
  unfold createCorrespondingGroupMember, indexOfName.
  rewrite (split_without_separator _ _ Hno). cbn [nth_error JsString.parseInt].
  rewrite (createGroupMember_accepted _ _ _ _ _ _ _ Hacc).
  eexists. eexists. split; [reflexivity|]. repeat split.
Qed.

(** X25. The index [createNextMember] writes into a member's name is the
    index [createCorrespondingGroupMember] reads from it: for a model group
    whose prefix has no group separator, the member created in a view group
    for a new model member gets the model member's index, and when the two
    counters were equal they are equal afterwards. *)
Theorem createCorrespondingGroupMember_follows_createNextMember :
  forall (model model' view : Group) (args args' : Args) (m : Member),
    ~ JsString.hasChar GROUP_SEPARATOR (prefix model) ->
    createNextMember validator isDynamicPhetioObject env args model
    = Ok (m, model') ->
    accepts validator isDynamicPhetioObject env
            (candidate view (Some (groupElementIndex model)) args') = true ->
    exists m' view',
      createCorrespondingGroupMember validator isDynamicPhetioObject env
                                     (m_name m) args' view = Ok (m', view')
      /\ m_name m' = componentNameOf (prefix view) (Some (groupElementIndex model))
      /\ (groupElementIndex view = groupElementIndex model ->
          groupElementIndex view' = groupElementIndex model').
Proof.
  intros model model' view args args' m Hprefix Hnext Hacc.
  apply createNextMember_Ok in Hnext.
  destruct Hnext as (Hm & _ & _ & Hcnt & _).
  assert (Hindex : indexOfName (m_name m) = Some (groupElementIndex model)).
  { rewrite Hm. apply indexOfName_componentNameOf, Hprefix. }
  unfold createCorrespondingGroupMember. rewrite Hindex.
  set (view1 := if groupElementIndex view =? groupElementIndex model
                then setIndex (groupElementIndex view + 1) view else view).
  assert (Hcand : candidate view1 (Some (groupElementIndex model)) args'
                  = candidate view (Some (groupElementIndex model)) args').
  { unfold view1. destruct (_ =? _); reflexivity. }
  rewrite <- Hcand in Hacc.
  rewrite (createGroupMember_accepted _ _ _ _ _ _ _ Hacc).
  eexists. eexists. split; [reflexivity|]. split.
  - rewrite Hcand. reflexivity.
  - intros Heq. cbn [groupElementIndex]. unfold view1.
    rewrite Heq, Z.eqb_refl. cbn [setIndex groupElementIndex]. lia.
Qed.

End MoreGroupFacts.

Lemma disposeGroupMember_removes_that_member_witness :
  let env := {| Group.assertions := true; Group.PHET_IO_ENABLED := true |} in
  let m0 := Group.mkMember 0%nat "particle_0" 5 in
  let m1 := Group.mkMember 1%nat "particle_1" 7 in
  let m2 := Group.mkMember 2%nat "particle_2" 9 in
  let g := Group.mkGroup Z "particle" [m0; m1; m2] 3 3%nat [m0; m1; m2] [] in
  exists g',
    Group.disposeGroupMember env m1 g = Ok g'
    /\ Group.array g' = [m0; m2]
    /\ Group.groupElementIndex g' = 3.
Proof.
  intros env m0 m1 m2 g.
  destruct (disposeGroupMember_removes_that_member Z env g [m0] [m2] m1)
    as (g' & Hd & Harr & _ & Hidx & _).
  - split.
    + apply (bool_decide_unpack _). vm_compute. exact I.
    + repeat constructor.
  - reflexivity.
  - exists g'. repeat split; assumption.
Defined.

Section MoreGroupWitnesses.
Import Group.

Let env : Env := {| assertions := true; PHET_IO_ENABLED := true |}.
Let yes : Member Z -> bool := fun _ => true.

Lemma group_accounts_for_every_member_witness :
  exists m0 g1 g2,
    createNextMember yes yes env 5 (new "particle") = Ok (m0, g1)
    /\ disposeGroupMember env m0 g1 = Ok g2
    /\ wellFormed g2 /\ accounted g2.
Proof.
  destruct (group_accounts_for_every_member Z yes yes env)
    as (Hnew & Hnext & _ & Hdispose & _).
  destruct (Hnew "particle") as (Hwf0 & Hacc0).
  destruct (createNextMember yes yes env 5 (new "particle"))
    as [[m0 g1]|] eqn:H1; [|discriminate].
  destruct (Hnext _ _ _ _ Hwf0 Hacc0 H1) as (Hwf1 & Hacc1).
  destruct (disposeGroupMember env m0 g1) as [g2|] eqn:H2;
    [|injection H1 as <- <-; discriminate].
  exists m0, g1, g2. split; [reflexivity|]. split; [exact H2|].
  apply (Hdispose g1 g2 m0 Hwf1 Hacc1); [|exact H2].
  injection H1 as <- <-. simpl. now left.
Defined.

Lemma createNextMember_never_reuses_a_live_name_witness :
  exists m0 g1 m1 g2,
    createNextMember yes yes env 5 (new "particle") = Ok (m0, g1)
    /\ createNextMember yes yes env 7 g1 = Ok (m1, g2)
    /\ ~ In (m_name m1) (map m_name (array g1))
    /\ indexedBelowCounter g2.
Proof.
  destruct (createNextMember_never_reuses_a_live_name Z yes yes env)
    as (Hnew & Hnext & _).
  destruct (createNextMember yes yes env 5 (new "particle"))
    as [[m0 g1]|] eqn:H1; [|discriminate].
  destruct (Hnext _ _ _ _ (Hnew "particle") H1) as (_ & Hidx1).
  destruct (createNextMember yes yes env 7 g1)
    as [[m1 g2]|] eqn:H2; [|injection H1 as <- <-; discriminate].
  exists m0, g1, m1, g2. split; [reflexivity|]. split; [exact H2|].
  apply (Hnext _ _ _ _ Hidx1 H2).
Defined.

Lemma createCorrespondingGroupMember_without_index_witness :
  exists m g',
    createCorrespondingGroupMember yes yes env "electron" 5 (new "electronNode")
    = Ok (m, g')
    /\ m_name m = "electronNode_NaN"
    /\ groupElementIndex g' = 0.
Proof.
  destruct (createCorrespondingGroupMember_without_index Z yes yes env
              (new "electronNode") "electron" 5)
    as (m & g' & Hc & Hname & Hidx & _).
  - unfold JsString.hasChar. vm_compute. intuition discriminate.
  - reflexivity.
  - exists m, g'. repeat split; assumption.
Defined.

Lemma createCorrespondingGroupMember_follows_createNextMember_witness :
  exists m model' m' view',
    createNextMember yes yes env 5 (new "electron") = Ok (m, model')
    /\ createCorrespondingGroupMember yes yes env (m_name m) 5 (new "electronNode")
       = Ok (m', view')
    /\ m_name m' = "electronNode_0"
    /\ groupElementIndex view' = groupElementIndex model'.
Proof.
  destruct (createNextMember yes yes env 5 (new "electron"))
    as [[m model']|] eqn:H1; [|discriminate].
  destruct (createCorrespondingGroupMember_follows_createNextMember Z yes yes env
              (new "electron") model' (new "electronNode") 5 5 m)
    as (m' & view' & Hc & Hname & Hcount).
  - unfold JsString.hasChar. vm_compute. intuition discriminate.
  - exact H1.
  - reflexivity.
  - exists m, model', m', view'. split; [reflexivity|]. split; [exact Hc|].
    split; [exact Hname|]. now apply Hcount.
Defined.

End MoreGroupWitnesses.

(** ** Nested events of a PhetioObject *)

Section MorePhetioObjectFacts.
Import PhetioObject.

Variable Sink : Type.
Variable Event : Type.
Variable dataStream_start : Event -> Sink -> result (Z * Sink).
Variable dataStream_end : option Z -> Sink -> result Sink.

Lemma setStack_same (o : PhetioObject) :
  setStack (phetioMessageStack o) o = o.
Proof. destruct o. reflexivity. Qed.

Lemma setStack_setStack (st st' : list Z) (o : PhetioObject) :
  setStack st (setStack st' o) = setStack st o.
Proof. reflexivity. Qed.

Lemma startAll_length (events : list Event) :
  forall s ids s1,
    startAll dataStream_start events s = Ok (ids, s1) ->
    length ids = length events.
Proof.
  induction events as [|event rest IH]; intros s ids s1 H; cbn [startAll] in H.
  - injection H as <- <-. reflexivity.
  - destruct (dataStream_start event s) as [[i s0]|]; [|discriminate].
    cbn [bind fst snd] in H.
    destruct (startAll dataStream_start rest s0) as [[ids0 s2]|] eqn:Hrest;
      [|discriminate].
    cbn [bind fst snd] in H. injection H as <- <-.
    cbn [length]. f_equal. exact (IH _ _ _ Hrest).
Qed.

Lemma phetioStartEvents_pushes (env : Env) (events : list Event) :
  forall o s ids s1,
    (assertions env = true -> phetioObjectInitialized o = true) ->
    skipsHighFrequency env o = false ->
    isPhetioInstrumented env o = true ->
    startAll dataStream_start events s = Ok (ids, s1) ->
    phetioStartEvents dataStream_start env o events s
    = Ok (setStack (phetioMessageStack o ++ ids) o, s1).
Proof.
  induction events as [|event rest IH]; intros o s ids s1 Hinit Hskip Hinst H;
    cbn [startAll] in H; cbn [phetioStartEvents].
  - injection H as <- <-. rewrite app_nil_r, setStack_same. reflexivity.
  - destruct (dataStream_start event s) as [[i s0]|] eqn:Hstart; [|discriminate].
    cbn [bind fst snd] in H.
    destruct (startAll dataStream_start rest s0) as [[ids0 s2]|] eqn:Hrest;
      [|discriminate].
    cbn [bind fst snd] in H. injection H as <- <-.
    unfold phetioStartEvent.
    assert (Hassert : assert_ (assertions env) (phetioObjectInitialized o)
                              "phetioObject should be initialized" = Ok tt).
    { unfold assert_. destruct (assertions env); [|reflexivity].
      rewrite (Hinit eq_refl). reflexivity. }
    rewrite Hassert. cbn [bind]. rewrite Hskip, Hinst, Hstart. cbn [bind fst snd].
    rewrite (IH _ _ ids0 s2); [| exact Hinit | exact Hskip | exact Hinst | exact Hrest].
    cbn [setStack phetioMessageStack]. rewrite <- app_assoc. reflexivity.
Qed.

Lemma phetioEndEvents_pops_all (env : Env) (ids : list Z) :
  forall o s stack,
    isPhetioInstrumented env o = true ->
    List.Forall (fun i => i <> SKIPPING_HIGH_FREQUENCY_MESSAGE) ids ->
    phetioMessageStack o = stack ++ ids ->
    snd (phetioEndEvents dataStream_end (length ids) env o s)
    = endAll dataStream_end (rev ids) s
    /\ (forall s', endAll dataStream_end (rev ids) s = Ok s' ->
        fst (phetioEndEvents dataStream_end (length ids) env o s)
        = setStack stack o).
Proof.
  induction ids as [|top ids IH] using rev_ind; intros o s stack Hinst Hall Hstack.
  - cbn. rewrite app_nil_r in Hstack. rewrite <- Hstack, setStack_same.
    split; [reflexivity|]. intros; reflexivity.
  - apply List.Forall_app in Hall. destruct Hall as [Hall Htop].
    apply List.Forall_inv in Htop.
    rewrite List.length_app, Nat.add_comm, List.rev_app_distr.
    cbn [length Nat.add rev List.app endAll phetioEndEvents].
    assert (Hend : phetioEndEvent dataStream_end env o s
                   = (setStack (stack ++ ids) o, dataStream_end (Some top) s)).
    { unfold phetioEndEvent. rewrite Hstack, app_assoc, last_snoc, removelast_last.
      rewrite Hinst. destruct (decide _) as [Heq|Hne]; [congruence|reflexivity]. }
    rewrite Hend.
    destruct (dataStream_end (Some top) s) as [s0|e]; cbn [bind].
    + destruct (IH (setStack (stack ++ ids) o) s0 stack Hinst Hall eq_refl)
        as [Hsnd Hfst].
      split; [exact Hsnd|]. intros s' Hs'. rewrite (Hfst s' Hs'). reflexivity.
    + split; [reflexivity|]. intros s'; discriminate.
Qed.

(** X26. Nested events of an instrumented object end in the reverse order
    of their starts: after [phetioStartEvent] for each event of a list, the
    stack holds the indices the data stream answered, in order, and, none
    of them being the sentinel -1, as many calls of [phetioEndEvent] tell
    the data stream to end those indices from the last to the first; when
    the data stream accepts them all, the object is as it was before the
    first start. *)
Theorem nested_events_end_in_reverse_order :
  forall (env : Env) (o : PhetioObject) (events : list Event) (s s1 : Sink)
         (ids : list Z),
    (assertions env = true -> phetioObjectInitialized o = true) ->
    skipsHighFrequency env o = false ->
    isPhetioInstrumented env o = true ->
    startAll dataStream_start events s = Ok (ids, s1) ->
    List.Forall (fun i => i <> SKIPPING_HIGH_FREQUENCY_MESSAGE) ids ->
    let o1 := setStack (phetioMessageStack o ++ ids) o in
    phetioStartEvents dataStream_start env o events s = Ok (o1, s1)
    /\ snd (phetioEndEvents dataStream_end (length events) env o1 s1)
       = endAll dataStream_end (rev ids) s1
    /\ (forall s2, endAll dataStream_end (rev ids) s1 = Ok s2 ->
        phetioEndEvents dataStream_end (length events) env o1 s1 = (o, Ok s2)).
Proof.
  intros env o events s s1 ids Hinit Hskip Hinst Hstart Hall o1.
  split; [now apply phetioStartEvents_pushes|].
  rewrite <- (startAll_length _ _ _ _ Hstart).
  destruct (phetioEndEvents_pops_all env ids o1 s1 (phetioMessageStack o))
    as [Hsnd Hfst]; [exact Hinst | exact Hall | reflexivity |].
  split; [exact Hsnd|]. intros s2 Hs2.
  specialize (Hfst s2 Hs2). rewrite Hs2 in Hsnd.
  destruct (phetioEndEvents dataStream_end (length ids) env o1 s1) as [o2 r].
  cbn [fst snd] in *. subst. unfold o1. rewrite setStack_setStack, setStack_same.
  reflexivity.
Qed.

Lemma repeat_snoc {A} (x : A) (n : nat) :
  List.repeat x (S n) = List.repeat x n ++ [x].
Proof. cbn [List.repeat]. apply List.repeat_cons. Qed.

Lemma phetioEndEvents_skipped (env : Env) (o : PhetioObject) (s : Sink) (n : nat) :
  forall stack,
    phetioEndEvents dataStream_end n env
      (setStack (stack ++ List.repeat SKIPPING_HIGH_FREQUENCY_MESSAGE n) o) s
    = (setStack stack o, Ok s).
Proof.
  induction n as [|n IH]; intros stack.
  - cbn. rewrite app_nil_r. reflexivity.
  - rewrite repeat_snoc. cbn [phetioEndEvents].
    assert (Hend : phetioEndEvent dataStream_end env
                     (setStack (stack ++ List.repeat SKIPPING_HIGH_FREQUENCY_MESSAGE n
                                      ++ [SKIPPING_HIGH_FREQUENCY_MESSAGE]) o) s
                   = (setStack (stack ++ List.repeat SKIPPING_HIGH_FREQUENCY_MESSAGE n) o,
                      Ok s)).
    { unfold phetioEndEvent. cbn [setStack phetioMessageStack].
      rewrite app_assoc, last_snoc, removelast_last.
      destruct (decide _) as [Heq|Hne]; [reflexivity|congruence]. }
    rewrite Hend. apply IH.
Qed.

(** X27. While high-frequency events are switched off, the events of a
    high-frequency object never reach the data stream, whatever the data
    stream is and whether or not the object is instrumented: each start only
    pushes the sentinel and each end only pops it, so that after as many
    ends as starts the object and the data stream are unchanged. *)
Theorem skipped_events_never_reach_the_data_stream :
  forall (env : Env) (o : PhetioObject) (events : list Event) (s : Sink),
    (assertions env = true -> phetioObjectInitialized o = true) ->
    skipsHighFrequency env o = true ->
    let o1 := setStack (phetioMessageStack o
                        ++ List.repeat SKIPPING_HIGH_FREQUENCY_MESSAGE (length events)) o in
    phetioStartEvents dataStream_start env o events s = Ok (o1, s)
    /\ phetioEndEvents dataStream_end (length events) env o1 s = (o, Ok s).
Proof.
  intros env o events s Hinit Hskip. cbn zeta. split.
  - revert o Hinit Hskip. induction events as [|event rest IH]; intros o Hinit Hskip.
    + cbn. rewrite app_nil_r, setStack_same. reflexivity.
    + cbn [phetioStartEvents length]. unfold phetioStartEvent.
      assert (Hassert : assert_ (assertions env) (phetioObjectInitialized o)
                                "phetioObject should be initialized" = Ok tt).
      { unfold assert_. destruct (assertions env); [|reflexivity].
        rewrite (Hinit eq_refl). reflexivity. }
      rewrite Hassert. cbn [bind]. rewrite Hskip. cbn [bind fst snd].
      rewrite IH; [|exact Hinit|exact Hskip].
      cbn [setStack phetioMessageStack List.repeat].
      rewrite <- app_assoc. reflexivity.
  - rewrite phetioEndEvents_skipped, setStack_same. reflexivity.
Qed.

Lemma includes_In (array : list string) (key : string) :
  includes array key = true <-> In key array.
Proof.
  induction array as [|k rest IH]; cbn [includes In].
  - split; [discriminate|tauto].
  - rewrite orb_true_iff, IH, String.eqb_eq. tauto.
Qed.

Lemma intersection_In (a b : list string) (x : string) :
  In x (intersection a b) <-> In x a /\ In x b.
Proof.
  induction a as [|y rest IH]; cbn [intersection In].
  - tauto.
  - destruct (includes b y) eqn:Hb; cbn [andb].
    + destruct (includes (intersection rest b) y) eqn:Hi; cbn [negb].
      * apply includes_In in Hi. apply includes_In in Hb.
        rewrite IH. split; [tauto|]. intros [[<-|Hx] Hxb]; [|tauto].
        apply IH. exact Hi.
      * cbn [In]. apply includes_In in Hb. rewrite IH.
        split; [intros [<-|]; tauto|tauto].
    + rewrite IH. split; [tauto|]. intros [[<-|Hx] Hxb]; [|tauto].
      apply includes_In in Hxb. congruence.
Qed.


End MorePhetioObjectFacts.

Lemma nested_events_end_in_reverse_order_witness :
  let env := {| PhetioObject.assertions := true;
                PhetioObject.PHET_IO_ENABLED := true;
                PhetioObject.phetio := Some {| PhetioObject.phetioEmitHighFrequencyEvents := true |} |} in
  let o stack := PhetioObject.mkPhetioObject
                   (Some {| PhetioObject.supplied := true |}) true false stack false in
  PhetioObject.phetioStartEvents PhetioObject.checkingStart env (o [])
    ["press"; "drag"]%string (PhetioObject.mkStream 0 [])
  = Ok (o [0; 1], PhetioObject.mkStream 2 [0; 1])
  /\ PhetioObject.phetioEndEvents PhetioObject.checkingEnd 2 env (o [0; 1])
       (PhetioObject.mkStream 2 [0; 1])
     = (o [], Ok (PhetioObject.mkStream 2 [])).
Proof.
  intros env o.
  pose proof (nested_events_end_in_reverse_order PhetioObject.CheckingStream string
                PhetioObject.checkingStart PhetioObject.checkingEnd env (o [])
                ["press"; "drag"]%string (PhetioObject.mkStream 0 [])
                (PhetioObject.mkStream 2 [0; 1]) [0; 1]
                (fun _ => eq_refl) eq_refl eq_refl eq_refl) as H.
  cbn zeta in H. destruct H as (Hstart & _ & Hend).
  - repeat constructor; discriminate.
  - split; [exact Hstart|]. exact (Hend _ eq_refl).
Defined.

Lemma skipped_events_never_reach_the_data_stream_witness :
  let env := {| PhetioObject.assertions := true;
                PhetioObject.PHET_IO_ENABLED := true;
                PhetioObject.phetio := Some {| PhetioObject.phetioEmitHighFrequencyEvents := false |} |} in
  let o stack := PhetioObject.mkPhetioObject
                   (Some {| PhetioObject.supplied := true |}) true true stack false in
  let s := PhetioObject.mkStream 0 [] in
  PhetioObject.phetioStartEvents PhetioObject.checkingStart env (o [])
    ["move"; "move"]%string s
  = Ok (o [-1; -1], s)
  /\ PhetioObject.phetioEndEvents PhetioObject.checkingEnd 2 env (o [-1; -1]) s
     = (o [], Ok s).
Proof.
  intros env o s.
  exact (skipped_events_never_reach_the_data_stream PhetioObject.CheckingStream string
           PhetioObject.checkingStart PhetioObject.checkingEnd env (o [])
           ["move"; "move"]%string s (fun _ => eq_refl) eq_refl).
Defined.

(** ** The event protocol of an IOObject *)

Section IOObjectFacts.
Import IOObject.

Variable Sink : Type.
Variable Event : Type.
Variable phetioEvents_start : Event -> Sink -> result (Z * Sink).
Variable phetioEvents_end : option Z -> Sink -> result Sink.

Lemma odd_S (n : nat) : Nat.odd (S n) = negb (Nat.odd n).
Proof. rewrite Nat.odd_succ, <- Nat.negb_odd. reflexivity. Qed.


End IOObjectFacts.


(** ** The instance of a DynamicElement *)

Section DynamicElementFacts.
Import DynamicElement.

Variable Args : Type.
Variable creator : Args -> nat -> option Instance.

(** X30. A DynamicElement creates its instance at most once: when
    [getInstance] has answered an instance, the creator was called only if
    there was none before, and every later call answers the same instance,
    ignores its arguments and leaves the element unchanged. *)
Theorem getInstance_creates_at_most_once :
  forall (env : Env) (d : DynamicElement Args) (args : Args) (i : Instance),
    snd (getInstance Args creator env d args) = Ok (Some i) ->
    let d' := fst (getInstance Args creator env d args) in
    (instance d = None ->
     creator args (length (created d)) = Some i
     /\ created d' = created d ++ [args])
    /\ (forall i0, instance d = Some i0 -> i = i0 /\ d' = d)
    /\ (forall args', getInstance Args creator env d' args' = (d', Ok (Some i))).
Proof.
  intros env d args i Hok. cbn zeta.
  unfold getInstance in Hok |- *. cbn [fst snd] in *.
  destruct (instance d) as [i0|] eqn:Hinst.
  - rewrite Hinst in *.
    assert (i0 = i) as ->.
    { unfold assert_ in Hok.
      destruct (assertions env), (isPhetioObject i0), (phetioDynamicElement i0);
        cbn [andb negb bind] in Hok; congruence. }
    split; [discriminate|]. split; [intros ? [= <-]; split; reflexivity|].
    intros args'. rewrite Hinst. rewrite Hok. reflexivity.
  - cbn [instance created] in *.
    destruct (creator args (length (created d))) as [i1|] eqn:Hcreate.
    + assert (i1 = i) as ->.
      { unfold assert_ in Hok.
        destruct (assertions env), (isPhetioObject i1), (phetioDynamicElement i1);
          cbn [andb negb bind] in Hok; congruence. }
      split; [intros _; split; reflexivity|]. split; [discriminate|].
      intros args'. cbn [instance created]. rewrite Hok. reflexivity.
    + unfold assert_ in Hok.
      destruct (assertions env); cbn [andb negb bind] in Hok; discriminate.
Qed.

End DynamicElementFacts.

Lemma getInstance_creates_at_most_once_witness :
  let env := {| DynamicElement.assertions := true; DynamicElement.phetio := Some true |} in
  let creator := fun (args : Z) (n : nat) => Some (DynamicElement.mkInstance n true true) in
  let i := DynamicElement.mkInstance 0 true true in
  let d' := DynamicElement.mkDynamicElement (Some i) [5] in
  DynamicElement.new Z creator env 5 = Ok d'
  /\ DynamicElement.getInstance Z creator env d' 7 = (d', Ok (Some i)).
Proof.
  intros env creator i d'.
  split; [reflexivity|].
  exact (proj2 (proj2 (getInstance_creates_at_most_once Z creator env
                         (DynamicElement.mkDynamicElement None []) 5 i eq_refl)) 7).
Defined.
